(** * readme-tsdoc: a shallow embedding of [src/readme-tsdoc.js]

    The development follows the JavaScript source function by function.
    JavaScript strings are sequences of UTF-16 code units; they are modelled
    as lists of [N].  The TypeScript compiler API, the file system, the
    console and [git ls-files] are the program's collaborators: the AST is a
    record type with the fields the source reads, and the calls that may
    throw return a [result]. *)

From Stdlib Require Import NArith Ascii String DecimalString.
From stdpp Require Import base list gmap numbers countable.

Set Default Proof Using "Type".

(** ** Strings *)

Definition char := N.
Definition text := list char.

(** A string literal of the source, code unit by code unit (ASCII only). *)
Definition str (s : string) : text :=
  (fun a => N_of_ascii a) <$> list_ascii_of_string s.
#[global] Opaque str.

Definition c_nl : char := 10%N.
Definition c_hash : char := 35%N.
Definition c_space : char := 32%N.
Definition c_backtick : char := 96%N.
Definition c_colon : char := 58%N.
Definition c_quote : char := 34%N.
Definition c_underscore : char := 95%N.
Definition c_slash : char := 47%N.
(** U+00B7 MIDDLE DOT, the separator of a heading's name and kind. *)
Definition c_middot : char := 183%N.

Definition char_in (cs : list char) (c : char) : bool :=
  existsb (N.eqb c) cs.

(** ECMAScript LineTerminator: LF, CR, LS, PS. *)
Definition isLineTerminator (c : char) : bool :=
  char_in [10; 13; 8232; 8233]%N c.

(** ECMAScript [\s] (and what [trim] strips): WhiteSpace and LineTerminator. *)
Definition isWhiteSpace (c : char) : bool :=
  char_in [9; 11; 12; 32; 160; 5760; 8239; 8287; 12288; 65279]%N c
  || ((8192 <=? c)%N && (c <=? 8202)%N)
  || isLineTerminator c.

Fixpoint startsWith (p t : text) : bool :=
  match p, t with
  | [], _ => true
  | _ :: _, [] => false
  | a :: p', b :: t' => (a =? b)%N && startsWith p' t'
  end.

Fixpoint includes (p t : text) : bool :=
  startsWith p t ||
  match t with
  | [] => false
  | _ :: t' => includes p t'
  end.

(** [s.substring(a)] and [s.substring(0, b)], the two forms the source uses. *)
Definition substring_from (a : nat) (s : text) : text := drop a s.
Definition substring_to (b : nat) (s : text) : text := take b s.

(** ['#'.repeat(n)] *)
Definition repeat_hash (n : nat) : text := replicate n c_hash.

Fixpoint trimStart (s : text) : text :=
  match s with
  | c :: s' => if isWhiteSpace c then trimStart s' else s
  | [] => []
  end.

(** [s.trim()] *)
Definition trim (s : text) : text := reverse (trimStart (reverse (trimStart s))).

(** Decimal rendering of a number inside a template literal. *)
Definition digits (n : nat) : text :=
  str (NilEmpty.string_of_uint (Nat.to_uint n)).

(** JavaScript truthiness of a possibly undefined string. *)
Definition truthy (o : option text) : bool :=
  match o with
  | Some (_ :: _) => true
  | _ => false
  end.

(** [a || b] on possibly undefined strings. *)
Definition or_else (a b : option text) : option text :=
  if truthy a then a else b.

(** ** Exceptions *)

Inductive result (A : Type) : Type :=
| Ok (a : A)
| Throw (msg : text).
Arguments Ok {A} a.
Arguments Throw {A} msg.

Definition rbind {A B} (r : result A) (f : A -> result B) : result B :=
  match r with
  | Ok a => f a
  | Throw e => Throw e
  end.

#[global] Instance result_bind : MBind result := fun A B f r => rbind r f.
#[global] Instance result_ret : MRet result := fun A a => Ok a.
#[global] Instance result_fmap : FMap result :=
  fun A B f r => rbind r (fun a => Ok (f a)).

(** [try { r } catch { h }] *)
Definition try_catch {A} (r : result A) (h : A) : A :=
  match r with
  | Ok a => a
  | Throw _ => h
  end.

(** ** Regular expressions

    The fragment of ECMAScript regular expressions that the two patterns of
    the source use, with the backtracking semantics of ECMA-262 (22.2.2):
    a matcher takes a state and a continuation, and a quantifier tries its
    alternatives in priority order.  Every quantified atom of the source is a
    single-character class, except the optional heading group. *)

Module Regex.

Inductive regex : Type :=
| Eps
| Cls (p : char -> bool)
| Cat (r1 r2 : regex)
| LineStart
| Group (n : nat) (r : regex)
| Opt (r : regex) (inner : list nat)
| Rep (p : char -> bool) (min : nat) (max : option nat) (greedy : bool).

Record mstate : Type := MState {
  m_pos : nat;
  m_prev : option char;
  m_rest : text;
  m_caps : list (option (nat * nat))
}.

Definition advance (st : mstate) : mstate :=
  match m_rest st with
  | c :: u => MState (S (m_pos st)) (Some c) u (m_caps st)
  | [] => st
  end.

Definition set_cap (n : nat) (a b : nat) (st : mstate) : mstate :=
  MState (m_pos st) (m_prev st) (m_rest st) (<[n := Some (a, b)]> (m_caps st)).

Definition clear_caps (ns : list nat) (st : mstate) : mstate :=
  MState (m_pos st) (m_prev st) (m_rest st)
         (foldr (fun n cs => <[n := None]> cs) (m_caps st) ns).

(** [^] under the [m] flag. *)
Definition at_line_start (st : mstate) : bool :=
  match m_prev st with
  | None => true
  | Some c => isLineTerminator c
  end.

Definition dec_max (max : option nat) : option nat := Nat.pred <$> max.

(** RepeatMatcher for a one-character atom; [u] is [m_rest st]. *)
Fixpoint rep (p : char -> bool) (greedy : bool) (u : text)
    (min : nat) (max : option nat) (st : mstate)
    (k : mstate -> option mstate) : option mstate :=
  match max with
  | Some 0 => k st
  | _ =>
    let iter :=
      match u with
      | c :: u' =>
          if p c then rep p greedy u' (Nat.pred min) (dec_max max) (advance st) k
          else None
      | [] => None
      end in
    match min with
    | S _ => iter
    | 0 =>
        if greedy
        then match iter with Some z => Some z | None => k st end
        else match k st with Some z => Some z | None => iter end
    end
  end.

Fixpoint run (r : regex) (st : mstate) (k : mstate -> option mstate)
    : option mstate :=
  match r with
  | Eps => k st
  | Cls p =>
      match m_rest st with
      | c :: _ => if p c then k (advance st) else None
      | [] => None
      end
  | Cat r1 r2 => run r1 st (fun st' => run r2 st' k)
  | LineStart => if at_line_start st then k st else None
  | Group n r1 => run r1 st (fun st' => k (set_cap n (m_pos st) (m_pos st') st'))
  | Opt r1 inner =>
      match run r1 (clear_caps inner st)
                (fun st' => if m_pos st' =? m_pos st then None else k st') with
      | Some z => Some z
      | None => k st
      end
  | Rep p min max greedy => rep p greedy (m_rest st) min max st k
  end.

(** The match object of [exec] / [matchAll]: [index], the end of the whole
    match, and the capture groups as spans of the input. *)
Record jsmatch : Type := JsMatch {
  index : nat;
  stop : nat;
  caps : list (option (nat * nat))
}.

Definition span (t : text) (a b : nat) : text := take (b - a) (drop a t).

(** [match[0]] *)
Definition matched (t : text) (m : jsmatch) : text := span t (index m) (stop m).

(** [match[n]], [None] for [undefined]. *)
Definition group (t : text) (m : jsmatch) (n : nat) : option text :=
  '(a, b) ← mjoin (caps m !! n); Some (span t a b).

(** One attempt of the pattern at a position. *)
Definition attempt (r : regex) (ngroups : nat) (prev : option char)
    (pos : nat) (u : text) : option jsmatch :=
  (fun st => JsMatch pos (m_pos st) (m_caps st)) <$>
  run r (MState pos prev u (replicate (S ngroups) None)) Some.

(** The scan of RegExpBuiltinExec: the first position at or after the
    current one where an attempt succeeds. *)
Fixpoint scan (r : regex) (ngroups : nat) (prev : option char)
    (pos : nat) (u : text) : option jsmatch :=
  match attempt r ngroups prev pos u with
  | Some m => Some m
  | None =>
      match u with
      | c :: u' => scan r ngroups (Some c) (S pos) u'
      | [] => None
      end
  end.

Definition prev_at (t : text) (i : nat) : option char :=
  match i with
  | 0 => None
  | S j => t !! j
  end.

(** [regex.exec(t)] for a global regex whose [lastIndex] is [lastIndex]. *)
Definition exec (r : regex) (ngroups : nat) (t : text) (lastIndex : nat)
    : option jsmatch :=
  if decide (lastIndex <= length t)
  then scan r ngroups (prev_at t lastIndex) lastIndex (drop lastIndex t)
  else None.

(** [lastIndex] after a successful [exec] inside [matchAll]: the end of the
    match, moved one further when the match is empty. *)
Definition next_index (m : jsmatch) : nat :=
  if stop m =? index m then S (stop m) else stop m.

(** The iteration of [t.matchAll(r)]; [None] only when the fuel is used up. *)
Fixpoint matchAll_loop (fuel : nat) (r : regex) (ngroups : nat) (t : text)
    (lastIndex : nat) : option (list jsmatch) :=
  match fuel with
  | 0 => None
  | S fuel' =>
      match exec r ngroups t lastIndex with
      | None => Some []
      | Some m => (m ::.) <$> matchAll_loop fuel' r ngroups t (next_index m)
      end
  end.

Definition matchAll (r : regex) (ngroups : nat) (t : text)
    : option (list jsmatch) :=
  matchAll_loop (2 + length t) r ngroups t 0.

(** A literal string as a pattern. *)
Definition lit (s : text) : regex :=
  foldr (fun c r => Cat (Cls (N.eqb c)) r) Eps s.

Definition is_hash (c : char) : bool := (c =? c_hash)%N.
Definition is_nl (c : char) : bool := (c =? c_nl)%N.
(** [.] without the [s] flag *)
Definition is_dot (c : char) : bool := negb (isLineTerminator c).

End Regex.

(** ** The TypeScript compiler API, as far as the source reads it *)

Inductive SyntaxKind : Type :=
| FunctionDeclaration | ClassDeclaration | InterfaceDeclaration
| TypeAliasDeclaration | VariableDeclaration | VariableDeclarationList
| VariableStatement | ExportSpecifier | AsExpression
| Constructor | MethodDeclaration | PropertyDeclaration
| GetAccessor | SetAccessor | ConstructSignature
| AbstractKeyword | StaticKeyword
| OtherKind (n : N).

#[global] Instance SyntaxKind_eq_dec : EqDecision SyntaxKind.
Proof. solve_decision. Defined.

(** [NodeFlags.Const] and [SymbolFlags.Alias] of the [typescript] package. *)
Definition NodeFlags_Const : N := 2.
Definition SymbolFlags_Alias : N := 2097152.

(** The identifier of a JSDoc tag: [tag.name.escapedText] and
    [tag.name.getText()], either of which may be missing. *)
Record TagName : Type := {
  escapedText : option text;
  tn_getText : option text
}.

(** The [comment] of a JSDoc block or tag is a string or, when it has inline
    tags such as [{@link}], a [NodeArray] of comment nodes. *)
Inductive JSDocCommentNode : Type :=
| JSDocText (t : text)
| JSDocLink (t : text).

Inductive Comment : Type :=
| CommentString (s : text)
| CommentNodes (parts : list JSDocCommentNode).

Record JSDocTag : Type := {
  tagName : option text;        (* tag.tagName?.escapedText *)
  tag_name : option TagName;    (* tag.name *)
  tag_comment : option Comment  (* tag.comment *)
}.

Record JSDoc : Type := {
  comment : option Comment;
  tags : option (list JSDocTag)
}.

Record TypeParameter : Type := {
  tp_name : text;                 (* param.name.getText() *)
  tp_constraint : option text;    (* param.constraint?.getText() *)
  tp_default : option text        (* param.default?.getText() *)
}.

Record ParameterDecl : Type := {
  p_name : text;                  (* param.name.getText() *)
  p_type : option text;           (* param.type?.getText() *)
  p_questionToken : bool;
  p_initializer : bool
}.

#[warnings="-register-all"] Inductive Node : Type := MkNode {
  kind : SyntaxKind;
  flags : N;
  modifiers : list SyntaxKind;        (* kinds of the modifier nodes *)
  jsDoc : list JSDoc;
  parent : option Node;
  name : option text;                 (* node.name?.getText() *)
  initializer : option Node;
  expression : option Node;
  declarationList : option Node;
  typeParameters : list TypeParameter;
  parameters : list ParameterDecl;
  members : list Node;
  type_text : option text;            (* node.type?.getText() *)
  pos : option nat;
  startLine : nat   (* getLineAndCharacterOfPosition(node.getStart()).line *)
}.

Record Symbol : Type := {
  sym_flags : N;
  valueDeclaration : option Node;
  declarations : list Node
}.

(** What [checker.getSymbolAtLocation] is asked about: an expression node, or
    the name of a member. *)
Inductive Location : Type :=
| AtNode (n : Node)
| AtNameOf (member : Node).

Record TypeChecker : Type := {
  getAliasedSymbol : Symbol -> result (option Symbol);
  getSymbolAtLocation : Location -> result (option Symbol);
  (** [checker.typeToString(checker.getTypeOfSymbolAtLocation(s, d))] *)
  typeStringAt : Symbol -> Node -> result text
}.

Record SourceFile : Type := {
  fileName : text;
  exports : option (list (text * Symbol))   (* sourceFile.symbol?.exports *)
}.

(** The environment of one run: [createProgram] with the lookup of the source
    file in it, the checker of that program, and [execSync]. *)
Record Env : Type := {
  findSourceFile : text -> option SourceFile;
  checkerOf : text -> TypeChecker;
  execSync : text -> result text;
  (** [String.prototype.toLowerCase] on a one-character string *)
  toLowerCase : char -> text
}.

Definition nl : text := [c_nl].
Definition nl2 : text := [c_nl; c_nl].

Definition has_modifier (k : SyntaxKind) (n : Node) : bool :=
  existsb (fun m => bool_decide (m = k)) (modifiers n).

Definition is_kind (k : SyntaxKind) (n : Node) : bool :=
  bool_decide (kind n = k).

Definition tag_is (nm : string) (t : JSDocTag) : bool :=
  bool_decide (tagName t = Some (str nm)).

(** [Array.prototype.join] with its default separator, the comma. *)
Fixpoint joinComma (l : list text) : text :=
  match l with
  | [] => []
  | x :: l' =>
      match l' with
      | [] => x
      | _ => x ++ str "," ++ joinComma l'
      end
  end.

(** [`${c}`] for a comment: the string itself, and for a [NodeArray] the
    [toString] of an array, which joins the [toString] of its elements; a
    node has no [toString] of its own. *)
Definition commentToString (c : Comment) : text :=
  match c with
  | CommentString s => s
  | CommentNodes parts => joinComma ((fun _ => str "[object Object]") <$> parts)
  end.

(** JavaScript truthiness of a comment: a string that is not empty, and
    every object. *)
Definition commentTruthy (c : Comment) : bool :=
  match c with
  | CommentString [] => false
  | _ => true
  end.

(** [c ? `${c}` : undefined] for a possibly undefined comment [c]. *)
Definition shown (o : option Comment) : option text :=
  match o with
  | Some c => if commentTruthy c then Some (commentToString c) else None
  | None => None
  end.

(** [c || ''] *)
Definition commentOrEmpty (o : option Comment) : Comment :=
  match o with
  | Some c => if commentTruthy c then c else CommentString []
  | None => CommentString []
  end.

(** [`${c}`] for a possibly undefined comment [c]. *)
Definition tmplComment (o : option Comment) : text :=
  match o with
  | Some c => commentToString c
  | None => str "undefined"
  end.

(** The message of the [TypeError] of [comment.startsWith] on a comment that
    is not a string. *)
Definition startsWithTypeError : text :=
  str "comment.startsWith is not a function".

(** [jsDoc?.tags] of a possibly missing comment. *)
Definition tags_of (j : option JSDoc) : option (list JSDocTag) :=
  j ≫= tags.

(** ** The renderer *)

Definition stripTrailingSlash (s : text) : text :=
  match reverse s with
  | c :: r => if (c =? c_slash)%N then reverse r else s
  | [] => s
  end.

Definition isGitLab (baseUrl : text) : bool :=
  includes (str "://gitlab.com") baseUrl
  || includes (str "://www.gitlab.com") baseUrl.

(** [`git ls-files --full-name "${filePath}"`] *)
Definition gitCommand (filePath : text) : text :=
  str "git ls-files --full-name " ++ [c_quote] ++ filePath ++ [c_quote].

Definition generateDeepLink (env : Env) (repoUrl filePath : text)
    (lineNumber : nat) : result (option text) :=
  out ← execSync env (gitCommand filePath);
  let relativePath := trim out in
  match relativePath with
  | [] => Ok None
  | _ =>
    let baseUrl := stripTrailingSlash repoUrl in
    if isGitLab baseUrl
    then Ok (Some (baseUrl ++ str "/-/blob/main/" ++ relativePath ++
                   str "#L" ++ digits lineNumber))
    else Ok (Some (baseUrl ++ str "/blob/main/" ++ relativePath ++
                   str "#L" ++ digits lineNumber))
  end.

(** [symbol.valueDeclaration || symbol.declarations?.[0]] *)
Definition firstDeclaration (s : Symbol) : option Node :=
  match valueDeclaration s with
  | Some d => Some d
  | None => head (declarations s)
  end.

Record Resolved : Type := {
  declaration : option Node;
  originalSymbol : Symbol;
  exportDeclaration : option Node
}.

Definition resolveSymbol (symbol : Symbol) (checker : TypeChecker) : Resolved :=
  let declaration := firstDeclaration symbol in
  let unchanged := Build_Resolved declaration symbol declaration in
  match declaration with
  | None => unchanged
  | Some d =>
    if is_kind ExportSpecifier d
       && negb (N.land (sym_flags symbol) SymbolFlags_Alias =? 0)%N
    then
      try_catch
        (aliasedSymbol ← getAliasedSymbol checker symbol;
         match aliasedSymbol with
         | Some a =>
             match valueDeclaration a with
             | Some _ => Ok (Build_Resolved (firstDeclaration a) a declaration)
             | None => Ok unchanged
             end
         | None => Ok unchanged
         end)
        unchanged
    else if is_kind VariableDeclaration d
            && bool_decide (kind <$> initializer d = Some AsExpression)
    then
      try_catch
        (match initializer d ≫= expression with
         | Some expr =>
             innerSymbol ← getSymbolAtLocation checker (AtNode expr);
             match innerSymbol with
             | Some i =>
                 match valueDeclaration i with
                 | Some _ =>
                     match firstDeclaration i with
                     | Some innerDeclaration =>
                         Ok (Build_Resolved (Some innerDeclaration) i declaration)
                     | None => Ok (Build_Resolved declaration i declaration)
                     end
                 | None => Ok unchanged
                 end
             | None => Ok unchanged
             end
         | None => Ok unchanged
         end)
        unchanged
    else unchanged
  end.

Definition getTypeInfo (symbol : Symbol) (declaration : Node)
    (checker : TypeChecker) : option text :=
  try_catch (Some <$> typeStringAt checker symbol declaration) None.

Fixpoint isConst (node : Node) : bool :=
  if negb (N.land (flags node) NodeFlags_Const =? 0)%N then true
  else if is_kind VariableStatement node then
    match declarationList node with
    | Some l => negb (N.land (flags l) NodeFlags_Const =? 0)%N
    | None => false
    end
  else
    match parent node with
    | Some p => isConst p
    | None => false
    end.

Definition getTypeLabel (declaration : Node) (typeString : option text) : text :=
  match kind declaration with
  | FunctionDeclaration => str "function"
  | ClassDeclaration =>
      if has_modifier AbstractKeyword declaration
      then str "abstract class" else str "class"
  | InterfaceDeclaration => str "interface"
  | TypeAliasDeclaration => str "type"
  | VariableDeclaration =>
      match typeString with
      | Some (c :: s) =>
          let ts := c :: s in
          if includes (str "=>") ts || startsWith (str "(") ts
          then str "function"
          else if startsWith (str "typeof ") ts && negb (includes (str "=>") ts)
          then str "class"
          else if isConst declaration then str "constant" else str "variable"
      | _ => if isConst declaration then str "constant" else str "variable"
      end
  | _ =>
      match typeString with
      | Some ts =>
          if includes (str "=>") ts then str "function" else str "value"
      | None => str "value"
      end
  end.

(** [node?.jsDoc?.[0]] and [node?.parent] *)
Definition firstJSDoc (n : option Node) : option JSDoc :=
  match n with
  | Some d => head (jsDoc d)
  | None => None
  end.

Definition parentOf (n : option Node) : option Node :=
  match n with
  | Some d => parent d
  | None => None
  end.

Definition extractJSDoc (declaration : option Node) : option JSDoc :=
  match firstJSDoc declaration with
  | Some j => Some j
  | None =>
    if bool_decide (kind <$> declaration = Some VariableDeclaration) then
      match firstJSDoc (parentOf declaration) with
      | Some j => Some j
      | None =>
        match firstJSDoc (parentOf (parentOf declaration)) with
        | Some j => Some j
        | None => None
        end
      end
    else None
  end.

Definition findTag (nm : string) (ts : list JSDocTag) : option JSDocTag :=
  head (filter (fun t => tag_is nm t = true) ts).

(** [x || d] for a possibly undefined string [x]. *)
Definition text_or (o : option text) (d : text) : text :=
  match o with
  | Some (c :: s) => c :: s
  | _ => d
  end.

(** [tag.name?.escapedText || tag.name?.getText?.() || 'unknown'] *)
Definition tagNameText (t : JSDocTag) : text :=
  text_or (or_else (tag_name t ≫= escapedText) (tag_name t ≫= tn_getText))
          (str "unknown").

Definition generateJSDocTags (jsDoc : option JSDoc) : text :=
  match tags_of jsDoc with
  | None => []
  | Some ts =>
    let returns :=
      match shown (findTag "returns" ts ≫= tag_comment) with
      | Some s => str "**Returns:** " ++ s ++ nl2
      | None => []
      end in
    let throwsTags := filter (fun t => tag_is "throws" t = true) ts in
    let throws :=
      match throwsTags with
      | [] => []
      | _ => str "**Throws:**" ++ nl2 ++
             concat ((fun t => str "- " ++ tmplComment (tag_comment t) ++ nl)
                     <$> throwsTags)
             ++ nl
      end in
    let exampleTags := filter (fun t => tag_is "example" t = true) ts in
    let examples :=
      match exampleTags with
      | [] => []
      | _ => str "**Examples:**" ++ nl2 ++
             concat ((fun t => tmplComment (tag_comment t) ++ nl2) <$> exampleTags)
      end in
    returns ++ throws ++ examples
  end.

Definition paramTagFor (nm : text) (t : JSDocTag) : bool :=
  tag_is "param" t
  && (bool_decide (tag_name t ≫= escapedText = Some nm)
      || bool_decide (tag_name t ≫= tn_getText = Some nm)).

Definition generateParameters (declaration : Node) : text :=
  let jsDoc := head (jsDoc declaration) in
  str "**Parameters:**" ++ nl2 ++
  concat ((fun param =>
    let name := p_name param in
    let type := default (str "any") (p_type param) in
    let isOptional := if p_questionToken param then str "?" else [] in
    let hasDefault := if p_initializer param then str " (optional)" else [] in
    let comment :=
      match tags_of jsDoc with
      | Some ts =>
          match shown (head (filter (fun t => paramTagFor name t = true) ts)
                       ≫= tag_comment) with
          | Some s => str " - " ++ s
          | None => []
          end
      | None => []
      end in
    str "- `" ++ name ++ isOptional ++ str ": " ++ type ++ str "`" ++
    hasDefault ++ comment ++ nl) <$> parameters declaration)
  ++ nl.

(** The loop that fills [templateDocs]: the tags are taken by position.  A
    comment that is not a string has no [startsWith]: the call throws. *)
Fixpoint collectTemplateDocs (typeParameters : list TypeParameter)
    (templateTags : list JSDocTag) (templateIndex : nat)
    (templateDocs : gmap text text) : result (gmap text text) :=
  match typeParameters with
  | [] => Ok templateDocs
  | param :: rest =>
      match templateTags !! templateIndex with
      | Some templateTag =>
          match commentOrEmpty (tag_comment templateTag) with
          | CommentString comment =>
              let cleanComment :=
                if startsWith (str "- ") comment then drop 2 comment
                else comment in
              collectTemplateDocs rest templateTags (S templateIndex)
                (<[tp_name param := cleanComment]> templateDocs)
          | CommentNodes _ => Throw startsWithTypeError
          end
      | None => collectTemplateDocs rest templateTags templateIndex templateDocs
      end
  end.

Definition generateTypeParameters (typeParameters : list TypeParameter)
    (jsDoc : option JSDoc) : result text :=
  templateDocs ←
    match tags_of jsDoc with
    | Some ts =>
        collectTemplateDocs typeParameters
          (filter (fun t => tag_is "template" t = true) ts) 0 ∅
    | None => Ok ∅
    end;
  Ok (str "**Type Parameters:**" ++ nl2 ++
  concat ((fun param =>
    let name := tp_name param in
    let constraint :=
      match tp_constraint param with
      | Some c => str " extends " ++ c
      | None => []
      end in
    let defaultType :=
      match tp_default param with
      | Some d => str " = " ++ d
      | None => []
      end in
    let commentText :=
      match templateDocs !! name with
      | Some (c :: s) => str " - " ++ (c :: s)
      | _ => []
      end in
    str "- `" ++ name ++ constraint ++ defaultType ++ str "`" ++
    commentText ++ nl) <$> typeParameters)
  ++ nl).

Definition generateJSDocBasedFunctionDoc (jsDoc : JSDoc) : text :=
  let ts := default [] (tags jsDoc) in
  let paramTags := filter (fun t => tag_is "param" t = true) ts in
  let params :=
    match paramTags with
    | [] => []
    | _ => str "**Parameters:**" ++ nl2 ++
           concat ((fun t => str "- `" ++ tagNameText t ++ str "` - " ++
                             commentToString (commentOrEmpty (tag_comment t)) ++
                             nl) <$> paramTags)
           ++ nl
    end in
  params ++ generateJSDocTags (Some jsDoc).

Definition generateFunctionDoc (declaration : Node) (typeString : text)
    (jsDocObject : option JSDoc) : result text :=
  let doc := str "**Signature:** `" ++ typeString ++ str "`" ++ nl2 in
  let resolvedJSDoc :=
    match jsDocObject with
    | Some j => Some j
    | None => head (jsDoc declaration)
    end in
  let viaTags :=
    match resolvedJSDoc with
    | Some j =>
        if is_kind VariableDeclaration declaration && bool_decide (tags j <> None)
        then Some j else None
    | None => None
    end in
  match viaTags with
  | Some j => Ok (doc ++ generateJSDocBasedFunctionDoc j)
  | None =>
      typeParams ←
        match typeParameters declaration with
        | [] => Ok []
        | tps => generateTypeParameters tps resolvedJSDoc
        end;
      Ok (doc ++ typeParams ++
          (match parameters declaration with
           | [] => []
           | _ => generateParameters declaration
           end) ++
          generateJSDocTags resolvedJSDoc)
  end.

Definition getMemberType (member : Node) (isStatic : bool) : text :=
  let abstractPrefix :=
    if has_modifier AbstractKeyword member then str "abstract " else [] in
  let staticPrefix := if isStatic then str "static " else [] in
  let prefix := abstractPrefix ++ staticPrefix in
  prefix ++
  match kind member with
  | MethodDeclaration => str "method"
  | PropertyDeclaration => str "property"
  | GetAccessor => str "getter"
  | SetAccessor => str "setter"
  | ConstructSignature => str "constructor"
  | _ => str "member"
  end.

(** [repoUrl && node.pos !== undefined], then the deep link for the node;
    [Ok None] when no link is asked for or none is found. *)
Definition deepLinkFor (env : Env) (repoUrl : option text) (node : Node)
    (sourceFile : SourceFile) : result (option text) :=
  match repoUrl, pos node with
  | Some (c :: u), Some _ =>
      let lineNumber := startLine node + 1 in
      generateDeepLink env (c :: u) (fileName sourceFile) lineNumber
  | _, _ => Ok None
  end.

(** [label] or [`[${label}](${deepLink})`] *)
Definition linked (label : text) (deepLink : option text) : text :=
  match deepLink with
  | Some (c :: l) => str "[" ++ label ++ str "](" ++ (c :: l) ++ str ")"
  | _ => label
  end.

(** [className.charAt(0).toLowerCase() + className.slice(1)] *)
Definition lowerFirst (env : Env) (className : text) : text :=
  match className with
  | c :: s => toLowerCase env c ++ s
  | [] => []
  end.

Definition exampleBlock (jsDocObject : option JSDoc) : text :=
  match tags_of jsDocObject with
  | Some ts =>
      match filter (fun t => tag_is "example" t = true) ts with
      | [] => []
      | exampleTags =>
          str "**Examples:**" ++ nl2 ++
          concat ((fun t => tmplComment (tag_comment t) ++ nl2) <$> exampleTags)
      end
  | None => []
  end.

Definition generateClassMemberDoc (env : Env) (member : Node)
    (checker : TypeChecker) (isStatic : bool) (headingPrefix className : text)
    (sourceFile : SourceFile) (repoUrl : option text) : result text :=
  let memberName :=
    text_or (name member)
      (if is_kind ConstructSignature member then str "new" else str "unknown") in
  let memberType := getMemberType member isStatic in
  let prefix := if isStatic then className else lowerFirst env className in
  let heading := prefix ++ str "." ++ memberName in
  deepLink ← deepLinkFor env repoUrl member sourceFile;
  let memberType := linked memberType deepLink in
  let doc := headingPrefix ++ str "# " ++ heading ++ str " " ++ [c_middot] ++
             str " " ++ memberType ++ nl2 in
  let jsDocObject := extractJSDoc (Some member) in
  let doc :=
    match shown (jsDocObject ≫= comment) with
    | Some s => doc ++ s ++ nl2
    | None => doc
    end in
  Ok (try_catch
        (symbol ← getSymbolAtLocation checker (AtNameOf member);
         match symbol with
         | Some sy =>
             typeString ← typeStringAt checker sy member;
             if is_kind MethodDeclaration member
             then Ok (doc ++ str "**Signature:** `" ++ typeString ++ str "`" ++ nl2
                          ++ generateParameters member
                          ++ generateJSDocTags jsDocObject)
             else Ok (doc ++ str "**Type:** `" ++ typeString ++ str "`" ++ nl2
                          ++ exampleBlock jsDocObject)
         | None => Ok doc
         end)
        (doc ++ str "*Type information unavailable*" ++ nl2)).

(** [output += f(x)] over a list, stopping at the first exception. *)
Fixpoint concatResults {A} (f : A -> result text) (l : list A) : result text :=
  match l with
  | [] => Ok []
  | x :: l' =>
      d ← f x;
      rest ← concatResults f l';
      Ok (d ++ rest)
  end.

Definition nameStartsWithUnderscore (m : Node) : bool :=
  match name m with
  | Some n => startsWith (str "_") n
  | None => false
  end.

Definition publicMembersOf (declaration : Node) : list Node :=
  filter (fun m => negb (nameStartsWithUnderscore m)
                   && negb (is_kind Constructor m) = true)
         (members declaration).

Definition staticMembersOf (declaration : Node) : list Node :=
  filter (fun m => has_modifier StaticKeyword m = true) (publicMembersOf declaration).

Definition instanceMembersOf (declaration : Node) : list Node :=
  filter (fun m => negb (has_modifier StaticKeyword m) = true)
         (publicMembersOf declaration).

Definition constructorParameters (declaration : Node) : text :=
  let constructor :=
    head (filter (fun m => is_kind Constructor m = true) (members declaration)) in
  let constructorJSDoc :=
    match constructor with
    | Some c => extractJSDoc (Some c)
    | None => None
    end in
  match tags_of constructorJSDoc with
  | Some ts =>
      match filter (fun t => tag_is "param" t = true) ts with
      | [] => []
      | paramTags =>
          str "**Constructor Parameters:**" ++ nl2 ++
          concat ((fun t => str "- `" ++ tagNameText t ++ str "`: " ++
                            commentToString (commentOrEmpty (tag_comment t)) ++
                            nl) <$> paramTags)
          ++ nl
      end
  | None => []
  end.

Definition generateClassDoc (env : Env) (declaration : Node) (typeString : text)
    (checker : TypeChecker) (headingPrefix className : text)
    (sourceFile : SourceFile) (repoUrl : option text) : result text :=
  if is_kind VariableDeclaration declaration
  then Ok (str "**Type:** `" ++ typeString ++ str "`" ++ nl2)
  else
    typeParams ←
      match typeParameters declaration with
      | [] => Ok []
      | tps => generateTypeParameters tps (extractJSDoc (Some declaration))
      end;
    let doc :=
      typeParams ++
      generateJSDocTags (extractJSDoc (Some declaration)) ++
      constructorParameters declaration in
    (* [staticMembers.includes(member)] holds exactly for the members taken
       from [staticMembers] *)
    statics ← concatResults (fun member =>
        generateClassMemberDoc env member checker true headingPrefix className
          sourceFile repoUrl) (staticMembersOf declaration);
    instances ← concatResults (fun member =>
        generateClassMemberDoc env member checker false headingPrefix className
          sourceFile repoUrl) (instanceMembersOf declaration);
    Ok (doc ++ statics ++ instances).

Definition generateTypeSpecificDoc (env : Env) (declaration : Node)
    (typeString : option text) (checker : TypeChecker)
    (headingPrefix name : text) (sourceFile : SourceFile)
    (repoUrl : option text) (jsDocObject : option JSDoc) : result text :=
  match typeString with
  | Some (c :: s) =>
    let typeString := c :: s in
    if is_kind VariableDeclaration declaration
       && (includes (str "=>") typeString || startsWith (str "(") typeString)
    then generateFunctionDoc declaration typeString jsDocObject
    else if is_kind VariableDeclaration declaration
            && startsWith (str "typeof ") typeString
    then generateClassDoc env declaration typeString checker headingPrefix name
           sourceFile repoUrl
    else
      match kind declaration with
      | FunctionDeclaration =>
          generateFunctionDoc declaration typeString jsDocObject
      | ClassDeclaration | InterfaceDeclaration =>
          generateClassDoc env declaration typeString checker headingPrefix name
            sourceFile repoUrl
      | TypeAliasDeclaration =>
          let actualType := default typeString (type_text declaration) in
          Ok (str "**Type:** `" ++ actualType ++ str "`" ++ nl2)
      | _ => Ok (str "**Value:** `" ++ typeString ++ str "`" ++ nl2)
      end
  | _ => Ok (str "*Type information unavailable*" ++ nl2)
  end.

(** [extractJSDoc(exportDeclaration) || extractJSDoc(declaration)] *)
Definition docCommentOf (exportDeclaration : option Node) (declaration : Node)
    : option JSDoc :=
  match extractJSDoc exportDeclaration with
  | Some j => Some j
  | None => extractJSDoc (Some declaration)
  end.

Definition generateSymbolDoc (env : Env) (name : text) (symbol : Symbol)
    (checker : TypeChecker) (headingPrefix : text) (sourceFile : SourceFile)
    (repoUrl : option text) : result text :=
  let r := resolveSymbol symbol checker in
  match declaration r with
  | None =>
      Ok (headingPrefix ++ str " " ++ name ++ nl2 ++
          str "*No declaration found*" ++ nl2)
  | Some declaration =>
    let typeInfo := getTypeInfo (originalSymbol r) declaration checker in
    let typeLabel := getTypeLabel declaration typeInfo in
    deepLink ← deepLinkFor env repoUrl declaration sourceFile;
    let typeLabel := linked typeLabel deepLink in
    let doc := headingPrefix ++ str " " ++ name ++ str " " ++ [c_middot] ++
               str " " ++ typeLabel ++ nl2 in
    let jsDocObject := docCommentOf (exportDeclaration r) declaration in
    let doc :=
      match shown (jsDocObject ≫= comment) with
      | Some s => doc ++ s ++ nl2
      | None => doc
      end in
    body ← generateTypeSpecificDoc env declaration typeInfo checker
             headingPrefix name sourceFile repoUrl jsDocObject;
    Ok (doc ++ body)
  end.

Definition generateMarkdownDoc (env : Env) (filePath headingPrefix : text)
    (repoUrl : option text) : result text :=
  let checker := checkerOf env filePath in
  match findSourceFile env filePath with
  | Some sourceFile =>
      match exports sourceFile with
      | Some exps =>
          concatResults (fun '(name, symbol) =>
            generateSymbolDoc env name symbol checker headingPrefix sourceFile
              repoUrl) exps
      | None => Throw (str "No exports found in " ++ filePath)
      end
  | None => Throw (str "No exports found in " ++ filePath)
  end.

(** ** The document splicer *)

Import Regex.

(** [/^(#{1,6})\s+/gm] *)
Definition headingRegex : regex :=
  Cat LineStart
      (Cat (Group 1 (Rep is_hash 1 (Some 6) true))
           (Rep isWhiteSpace 1 None true)).

(** The loop of [findNextHeadingBoundary]; [None] only when the fuel is used
    up. *)
Fixpoint headingLoop (fuel : nat) (t : text) (lastIndex maxLevel : nat)
    : option nat :=
  match fuel with
  | 0 => None
  | S fuel' =>
      match exec headingRegex 1 t lastIndex with
      | None => Some (length t)
      | Some m =>
          if length (default [] (group t m 1)) <=? maxLevel
          then Some (index m)
          else headingLoop fuel' t (stop m) maxLevel
      end
  end.

Definition findNextHeadingBoundary (t : text) (startPos maxLevel : nat) : nat :=
  default (length t) (headingLoop (2 + length t) t startPos maxLevel).

(** The three character classes around the source file token:
    [[ `]], [[^`: ]] and [[`: ]]. *)
Definition cls_lead (c : char) : bool := char_in [c_space; c_backtick] c.
Definition cls_term (c : char) : bool := char_in [c_backtick; c_colon; c_space] c.
Definition cls_file (c : char) : bool := negb (cls_term c).

(** [new RegExp(`(^(#{1,6})\\s+)?(.*?\n${escapedSearchPhrase}[ \`]*([^\`: ]+)[\`: ]*\\n)`, 'gm')];
    the escaping makes every character of the phrase a literal. *)
Definition markerRegex (searchPhrase : text) : regex :=
  Cat (Opt (Group 1 (Cat LineStart
                      (Cat (Group 2 (Rep is_hash 1 (Some 6) true))
                           (Rep isWhiteSpace 1 None true))))
           [1; 2])
      (Group 3
         (Cat (Rep is_dot 0 None false)
         (Cat (Cls is_nl)
         (Cat (lit searchPhrase)
         (Cat (Rep cls_lead 0 None true)
         (Cat (Group 4 (Rep cls_file 1 None true))
         (Cat (Rep cls_term 0 None true)
              (Cls is_nl)))))))).

(** [Array.from(readme.matchAll(markerRegex))] *)
Definition markers (searchPhrase readme : text) : list jsmatch :=
  default [] (matchAll (markerRegex searchPhrase) 4 readme).

(** [precedingHeadingLevel?.length || 2] *)
Definition baseHeadingLevelOf (readme : text) (m : jsmatch) : nat :=
  match group readme m 2 with
  | Some (c :: l) => length (c :: l)
  | _ => 2
  end.

Definition contentStartOf (readme : text) (m : jsmatch) : nat :=
  index m + length (matched readme m).

Definition contentEndOf (readme : text) (m : jsmatch) : nat :=
  findNextHeadingBoundary readme (contentStartOf readme m)
    (baseHeadingLevelOf readme m).

Definition headingPrefixOf (readme : text) (m : jsmatch) : text :=
  repeat_hash (baseHeadingLevelOf readme m + 1).

Definition sourceFileOf (readme : text) (m : jsmatch) : text :=
  default [] (group readme m 4).

(** The text put in place of a match and its region. *)
Definition replacementOf (readme : text) (m : jsmatch) (newContent : text)
    : text :=
  (match group readme m 2 with
   | Some (c :: l) => repeat_hash (length (c :: l)) ++ str " "
   | _ => []
   end) ++ default [] (group readme m 3) ++ nl ++ newContent.

Definition generatingLine (readme : text) (m : jsmatch) : text :=
  str "Generating docs for " ++ sourceFileOf readme m ++
  str " with heading level " ++ digits (baseHeadingLevelOf readme m + 1) ++
  str "...".

(** The [for (const match of matches)] loop: the document so far and the lines
    logged so far, until a generation throws. *)
Fixpoint spliceLoop (env : Env) (repoUrl : option text) (readme : text)
    (matches : list jsmatch) (updatedReadme : text) (logged : list text)
    : result text * list text :=
  match matches with
  | [] => (Ok updatedReadme, logged)
  | m :: rest =>
      let contentEnd := contentEndOf readme m in
      let logged := logged ++ [generatingLine readme m] in
      match generateMarkdownDoc env (sourceFileOf readme m)
              (headingPrefixOf readme m) repoUrl with
      | Throw e => (Throw e, logged)
      | Ok newContent =>
          let replacement := replacementOf readme m newContent in
          spliceLoop env repoUrl readme rest
            (substring_to (index m) updatedReadme ++ replacement ++
             substring_from contentEnd updatedReadme)
            logged
      end
  end.

(** The file system and the console. *)
Record World : Type := {
  files : gmap text text;
  stdout : list text;
  stderr : list text
}.

Inductive Outcome : Type :=
| Returned (w : World)
| Exited (code : nat) (w : World)
| Thrown (msg : text) (w : World).

Definition worldOf (o : Outcome) : World :=
  match o with
  | Returned w | Exited _ w | Thrown _ w => w
  end.

Definition updateReadme (env : Env) (readmePath searchPhrase : text)
    (repoUrl : option text) (w : World) : Outcome :=
  match files w !! readmePath with
  | None =>
      Thrown (str "ENOENT: no such file or directory, open '" ++ readmePath ++
              str "'") w
  | Some readme =>
      let matches := reverse (markers searchPhrase readme) in
      match matches with
      | [] =>
          Exited 1
            {| files := files w;
               stdout := stdout w;
               stderr := stderr w ++
                 [str "Could not find any " ++ [c_quote] ++ searchPhrase ++
                  [c_quote] ++ str " markers in " ++ readmePath] |}
      | _ =>
          match spliceLoop env repoUrl readme matches readme (stdout w) with
          | (Throw e, logged) =>
              Thrown e {| files := files w; stdout := logged; stderr := stderr w |}
          | (Ok updatedReadme, logged) =>
              Returned
                {| files := <[readmePath := updatedReadme]> (files w);
                   stdout := logged ++
                     [str "Updated documentation for " ++
                      digits (length matches) ++ str " file(s) in " ++
                      readmePath];
                   stderr := stderr w |}
          end
      end
  end.

(** The in-memory part of [updateReadme]: the document that would be written. *)
Definition spliceAll (env : Env) (searchPhrase : text) (repoUrl : option text)
    (readme : text) : result text :=
  fst (spliceLoop env repoUrl readme (reverse (markers searchPhrase readme))
         readme []).

(** ** The command line

    [parseCommandLineArgs] reads [process.argv.slice(2)] from left to right;
    an option flag that has an argument after it takes that argument, and the
    scan moves on behind the two; everything else is skipped. *)

Record Config : Type := {
  cfg_readmePath : text;
  cfg_searchPhrase : text;
  cfg_repoUrl : option text    (* [None] for [undefined] *)
}.

Fixpoint parseArgs (args : list text) (c : Config) : Config :=
  match args with
  | [] => c
  | a :: rest =>
      match rest with
      | v :: rest' =>
          if bool_decide (a = str "--file")
          then parseArgs rest'
                 {| cfg_readmePath := v;
                    cfg_searchPhrase := cfg_searchPhrase c;
                    cfg_repoUrl := cfg_repoUrl c |}
          else if bool_decide (a = str "--search")
          then parseArgs rest'
                 {| cfg_readmePath := cfg_readmePath c;
                    cfg_searchPhrase := v;
                    cfg_repoUrl := cfg_repoUrl c |}
          else if bool_decide (a = str "--repo-url")
          then parseArgs rest'
                 {| cfg_readmePath := cfg_readmePath c;
                    cfg_searchPhrase := cfg_searchPhrase c;
                    cfg_repoUrl := Some v |}
          else parseArgs rest c
      | [] => c
      end
  end.

Definition defaultConfig : Config :=
  {| cfg_readmePath := str "README.md";
     cfg_searchPhrase := str "The following is auto-generated from";
     cfg_repoUrl := None |}.

Definition parseCommandLineArgs (argv : list text) : Config :=
  parseArgs (drop 2 argv) defaultConfig.

(** The command line tool: parse, then [updateReadme]. *)
Definition cli (env : Env) (argv : list text) (w : World) : Outcome :=
  let c := parseCommandLineArgs argv in
  updateReadme env (cfg_readmePath c) (cfg_searchPhrase c) (cfg_repoUrl c) w.

(** ** Declarative reading of the patterns

    [matches r st st'] holds when pattern [r] can take the matcher from state
    [st] to state [st'], whatever the priorities; the backtracking matcher
    only ever answers with such a path. *)

Inductive walk (p : char -> bool) : nat -> mstate -> mstate -> Prop :=
| walk_O st : walk p 0 st st
| walk_S n st c u st' :
    m_rest st = c :: u -> p c = true -> walk p n (advance st) st' ->
    walk p (S n) st st'.

Inductive matches : regex -> mstate -> mstate -> Prop :=
| m_eps st : matches Eps st st
| m_cls p st c u :
    m_rest st = c :: u -> p c = true -> matches (Cls p) st (advance st)
| m_cat r1 r2 st st1 st2 :
    matches r1 st st1 -> matches r2 st1 st2 -> matches (Cat r1 r2) st st2
| m_linestart st : at_line_start st = true -> matches LineStart st st
| m_group n r st st' :
    matches r st st' ->
    matches (Group n r) st (set_cap n (m_pos st) (m_pos st') st')
| m_opt_some r inner st st' :
    matches r (clear_caps inner st) st' -> m_pos st' <> m_pos st ->
    matches (Opt r inner) st st'
| m_opt_none r inner st : matches (Opt r inner) st st
| m_rep p min max greedy n st st' :
    walk p n st st' -> min <= n -> (forall mx, max = Some mx -> n <= mx) ->
    matches (Rep p min max greedy) st st'.

(** Quantifier bounds are well formed when [min <= max] everywhere. *)
Fixpoint bounds_ok (r : regex) : Prop :=
  match r with
  | Cat r1 r2 => bounds_ok r1 /\ bounds_ok r2
  | Group _ r1 | Opt r1 _ => bounds_ok r1
  | Rep _ min (Some mx) _ => min <= mx
  | _ => True
  end.

(** [st'] is [st] moved forward over [w]. *)
Definition moved (w : text) (st st' : mstate) : Prop :=
  m_rest st = w ++ m_rest st' /\ m_pos st' = m_pos st + length w.

(** The matcher is at position [m_pos st] of [t]. *)
Definition aligned (t : text) (st : mstate) : Prop :=
  m_rest st = drop (m_pos st) t /\ m_pos st <= length t.

(** One attempt of a pattern at position [i] of [t]. *)
Definition attemptAt (r : regex) (ngroups : nat) (t : text) (i : nat)
    : option jsmatch :=
  attempt r ngroups (prev_at t i) i (drop i t).

Definition initial (ngroups : nat) (t : text) (i : nat) : mstate :=
  MState i (prev_at t i) (drop i t) (replicate (S ngroups) None).

(** ** The search order of the documentation comment, in the spec's words

    The original export declaration first, then the resolved declaration;
    within a declaration its own comment, then, for a variable, the comment of
    the enclosing declaration list, then that of the enclosing statement. *)




(** The members a class fragment has an entry for, in the order of the
    entries, and what precedes the entries. *)
Definition renderedMembers (declaration : Node) : list Node :=
  staticMembersOf declaration ++ instanceMembersOf declaration.

Definition classPreamble (declaration : Node) : result text :=
  typeParams ←
    match typeParameters declaration with
    | [] => Ok []
    | tps => generateTypeParameters tps (extractJSDoc (Some declaration))
    end;
  Ok (typeParams ++
      generateJSDocTags (extractJSDoc (Some declaration)) ++
      constructorParameters declaration).

(** The heading line of a symbol and of a member. *)
Definition symbolHeading (headingPrefix name label : text) : text :=
  headingPrefix ++ str " " ++ name ++ str " " ++ [c_middot] ++ str " " ++
  label ++ nl2.

(** ** Sample programs *)

Definition node0 (k : SyntaxKind) : Node :=
  MkNode k 0 [] [] None None None None None [] [] [] None (Some 0) 0.

Definition withFlags (f : N) (n : Node) : Node :=
  MkNode (kind n) f (modifiers n) (jsDoc n) (parent n) (name n) (initializer n)
    (expression n) (declarationList n) (typeParameters n) (parameters n)
    (members n) (type_text n) (pos n) (startLine n).

Definition withParent (p : Node) (n : Node) : Node :=
  MkNode (kind n) (flags n) (modifiers n) (jsDoc n) (Some p) (name n)
    (initializer n) (expression n) (declarationList n) (typeParameters n)
    (parameters n) (members n) (type_text n) (pos n) (startLine n).

Definition withJSDoc (j : list JSDoc) (n : Node) : Node :=
  MkNode (kind n) (flags n) (modifiers n) j (parent n) (name n) (initializer n)
    (expression n) (declarationList n) (typeParameters n) (parameters n)
    (members n) (type_text n) (pos n) (startLine n).

Definition withName (s : string) (n : Node) : Node :=
  MkNode (kind n) (flags n) (modifiers n) (jsDoc n) (parent n) (Some (str s))
    (initializer n) (expression n) (declarationList n) (typeParameters n)
    (parameters n) (members n) (type_text n) (pos n) (startLine n).

Definition withModifiers (ms : list SyntaxKind) (n : Node) : Node :=
  MkNode (kind n) (flags n) ms (jsDoc n) (parent n) (name n) (initializer n)
    (expression n) (declarationList n) (typeParameters n) (parameters n)
    (members n) (type_text n) (pos n) (startLine n).

Definition withMembers (ms : list Node) (n : Node) : Node :=
  MkNode (kind n) (flags n) (modifiers n) (jsDoc n) (parent n) (name n)
    (initializer n) (expression n) (declarationList n) (typeParameters n)
    (parameters n) ms (type_text n) (pos n) (startLine n).

Definition withLine (l : nat) (n : Node) : Node :=
  MkNode (kind n) (flags n) (modifiers n) (jsDoc n) (parent n) (name n)
    (initializer n) (expression n) (declarationList n) (typeParameters n)
    (parameters n) (members n) (type_text n) (pos n) l.

Definition plainDoc (s : string) : JSDoc :=
  {| comment := Some (CommentString (str s)); tags := None |}.

Definition paramTag (nm text : string) : JSDocTag :=
  {| tagName := Some (str "param");
     tag_name := Some {| escapedText := Some (str nm); tn_getText := Some (str nm) |};
     tag_comment := Some (CommentString (str text)) |}.

(** [/** The universe and everything... */ export const answer = 42;] *)
Definition answerStatement : Node :=
  withJSDoc [plainDoc "The universe and everything..."] (node0 VariableStatement).

Definition answerList : Node :=
  withParent answerStatement (withFlags NodeFlags_Const (node0 VariableDeclarationList)).

Definition answerDecl : Node :=
  withLine 1 (withName "answer" (withParent answerList (node0 VariableDeclaration))).

Definition answerSymbol : Symbol :=
  {| sym_flags := 2; valueDeclaration := Some answerDecl; declarations := [answerDecl] |}.

(** [export const f = (x: T) => U] and [export let v: typeof Base & (() => void)] *)
Definition arrowDecl : Node :=
  withName "f" (withParent answerList (node0 VariableDeclaration)).

Definition staticSideDecl : Node :=
  withName "v" (withParent (node0 VariableDeclarationList) (node0 VariableDeclaration)).

Definition bareSymbol : Symbol :=
  {| sym_flags := 2; valueDeclaration := Some staticSideDecl;
     declarations := [staticSideDecl] |}.

(** A class with a constructor, an underscore member, a static and an
    instance member. *)
Definition ctorMember : Node :=
  withJSDoc [{| comment := Some (CommentString (str "Create a box"));
                tags := Some [paramTag "size" "The size"] |}]
            (node0 Constructor).
Definition hiddenMember : Node := withName "_internal" (node0 PropertyDeclaration).
Definition sizeMember : Node := withName "size" (node0 PropertyDeclaration).
Definition makeMember : Node :=
  withModifiers [StaticKeyword] (withName "make" (node0 MethodDeclaration)).

Definition boxClass : Node :=
  withName "Box"
    (withMembers [ctorMember; hiddenMember; sizeMember; makeMember]
       (node0 ClassDeclaration)).

Definition boxSymbol : Symbol :=
  {| sym_flags := 32; valueDeclaration := Some boxClass; declarations := [boxClass] |}.

Definition asciiLower (c : char) : text :=
  if ((65 <=? c) && (c <=? 90))%N then [(c + 32)%N] else [c].

(** A checker that renders every type as [ts]. *)
Definition constChecker (ts : string) : TypeChecker :=
  {| getAliasedSymbol := fun _ => Ok None;
     getSymbolAtLocation := fun _ => Ok (Some answerSymbol);
     typeStringAt := fun _ _ => Ok (str ts) |}.

Definition trivialFile : SourceFile :=
  {| fileName := str "/repo/test/trivial.ts";
     exports := Some [(str "answer", answerSymbol)] |}.

(** An environment with one source file, [test/trivial.ts]; [git] is what
    [execSync] answers. *)
Definition envWith (sf : SourceFile) (git : text -> result text) : Env :=
  {| findSourceFile := fun f =>
       if bool_decide (f = str "test/trivial.ts") then Some sf else None;
     checkerOf := fun _ => constChecker "42";
     execSync := git;
     toLowerCase := asciiLower |}.

Definition sampleEnv (git : text -> result text) : Env := envWith trivialFile git.




Definition gitTracked : text -> result text :=
  fun _ => Ok (str "test/trivial.ts" ++ nl).
Definition gitUntracked : text -> result text := fun _ => Ok [].
Definition gitFails : text -> result text :=
  fun _ => Throw (str "Command failed: git ls-files").

(** [git ls-files] answers for the file, with nothing but white space: the
    file is not tracked. *)
Definition untracked (env : Env) (sf : SourceFile) : Prop :=
  exists out, execSync env (gitCommand (fileName sf)) = Ok out /\ trim out = [].

(** ** Sample documents *)

Definition defaultPhrase : text := str "The following is auto-generated from".

(** A marker under a level-3 heading, with stale content, followed by a
    level-2 section. *)
Definition trivialReadme : text :=
  str "# Trivial

### Answer
The following is auto-generated from test/trivial.ts:
stale

## Next
kept
".

Definition readmePath : text := str "README.md".

Definition worldWith (doc : text) : World :=
  {| files := {[ readmePath := doc ]}; stdout := []; stderr := [] |}.

(** The entry of the class [Box] and the only marker of [trivialReadme]. *)
Definition boxDoc : text :=
  Eval vm_compute in
    match generateClassDoc (sampleEnv gitTracked) boxClass (str "typeof Box")
            (constChecker "number") (str "###") (str "Box") trivialFile None with
    | Ok d => d
    | Throw _ => []
    end.

Definition trivialMarker : jsmatch :=
  Eval vm_compute in
    match markers defaultPhrase trivialReadme with
    | m :: _ => m
    | [] => JsMatch 0 0 []
    end.

Definition exampleRepo : text := str "https://github.com/me/example".

(** The message of the zero-marker exit. *)
Definition noMarkersMessage (searchPhrase readmePath : text) : text :=
  str "Could not find any " ++ [c_quote] ++ searchPhrase ++ [c_quote] ++
  str " markers in " ++ readmePath.

(** A marker for a file that is not there, and a document without marker. *)
Definition missingReadme : text :=
  str "## API
The following is auto-generated from src/missing.ts:
old
".

Definition missingMarker : jsmatch :=
  Eval vm_compute in
    match markers defaultPhrase missingReadme with
    | m :: _ => m
    | [] => JsMatch 0 0 []
    end.

Definition plainReadme : text :=
  str "# Title

Nothing to generate here.
".

(** ** The document a pass writes

    [assemble t from parts] is [t] from position [from] on, with every match
    and its region replaced by the match's replacement text. *)
Fixpoint assemble (t : text) (from : nat) (parts : list (jsmatch * text))
    : text :=
  match parts with
  | [] => drop from t
  | (m, newContent) :: rest =>
      span t from (index m) ++ replacementOf t m newContent ++
      assemble t (contentEndOf t m) rest
  end.

(** No region reaches into the next match: every match starts at or after
    the end of the region before it. *)
Fixpoint separated (t : text) (from : nat) (ms : list jsmatch) : bool :=
  match ms with
  | [] => true
  | m :: rest => (from <=? index m) && separated t (contentEndOf t m) rest
  end.

(** What is generated for a match. *)
Definition generatedFor (env : Env) (repoUrl : option text) (t : text)
    (m : jsmatch) : result text :=
  generateMarkdownDoc env (sourceFileOf t m) (headingPrefixOf t m) repoUrl.

Definition contentFor (env : Env) (repoUrl : option text) (t : text)
    (m : jsmatch) : text :=
  match generatedFor env repoUrl t m with
  | Ok c => c
  | Throw _ => []
  end.

Definition partsOf (env : Env) (repoUrl : option text) (t : text)
    (ms : list jsmatch) : list (jsmatch * text) :=
  (fun m => (m, contentFor env repoUrl t m)) <$> ms.

(** A marker inside the region of another marker. *)
Definition nestedReadme : text :=
  str "## API
The following is auto-generated from test/trivial.ts:

### Sub
The following is auto-generated from test/trivial.ts:
stale

## End
kept
".

(** The fragment of [answer] under a heading prefix. *)
Definition answerFragment (headingPrefix : string) : text :=
  str headingPrefix ++ str " answer " ++ [c_middot] ++ str " constant

The universe and everything...

**Value:** `42`

".

(** What a first run makes of [trivialReadme]. *)
Definition trivialSpliced : text :=
  str "# Trivial

### Answer
The following is auto-generated from test/trivial.ts:

" ++ answerFragment "####" ++ str "## Next
kept
".

(** The two markers of [nestedReadme], and what a run makes of it: the end
    of the fragment of the inner marker is left behind the fragment of the
    outer one. *)
Definition nestedOuter : jsmatch :=
  Eval vm_compute in
    match markers defaultPhrase nestedReadme with
    | m :: _ => m
    | [] => JsMatch 0 0 []
    end.

Definition nestedInner : jsmatch :=
  Eval vm_compute in
    match markers defaultPhrase nestedReadme with
    | _ :: m :: _ => m
    | _ => JsMatch 0 0 []
    end.

Definition nestedSpliced : text :=
  str "## API
The following is auto-generated from test/trivial.ts:

" ++ answerFragment "###" ++ str "nswer " ++ [c_middot] ++ str " constant

The universe and everything...

**Value:** `42`

## End
kept
".




(** A marker line that does not end in [:], a backtick or a space. *)
Definition untermReadme : text :=
  str "intro
The following is auto-generated from test/trivial.ts
more text here
".

Definition untermSpliced : text :=
  str "intro
The following is auto-generated from test/trivial.ts

" ++ answerFragment "###".

(** ** Documents in normal form

    A document in normal form is a list of blocks and a closing text.  A
    block is the text before a marker, the marker (an optional heading of
    [#]s and one space, the title line, and the marker line: the phrase, the
    lead characters, the source file, the closing characters and a line
    break) and the region that a pass replaces. *)

Record block : Type := Block {
  b_before : text;
  b_level : nat;
  b_title : text;
  b_lead : text;
  b_file : text;
  b_term : text;
  b_region : text
}.

Definition headingOf (b : block) : text :=
  match b_level b with
  | 0 => []
  | k => repeat_hash k ++ [c_space]
  end.

Definition markerLine (P : text) (b : block) : text :=
  P ++ b_lead b ++ b_file b ++ b_term b ++ [c_nl].

Definition titledLine (P : text) (b : block) : text :=
  b_title b ++ [c_nl] ++ markerLine P b.

Definition markerText (P : text) (b : block) : text :=
  headingOf b ++ titledLine P b.

Definition blockText (P : text) (b : block) : text :=
  b_before b ++ markerText P b ++ b_region b.

Fixpoint docOf (P : text) (bs : list block) (post : text) : text :=
  match bs with
  | [] => post
  | b :: bs' => blockText P b ++ docOf P bs' post
  end.

(** The heading level a marker works with. *)
Definition baseOf (b : block) : nat :=
  match b_level b with
  | 0 => 2
  | k => k
  end.

(** What is generated for a block, and the block with a fresh region. *)
Definition generatedForBlock (env : Env) (repoUrl : option text) (b : block)
    : result text :=
  generateMarkdownDoc env (b_file b) (repeat_hash (baseOf b + 1)) repoUrl.

Definition contentOfBlock (env : Env) (repoUrl : option text) (b : block)
    : text :=
  match generatedForBlock env repoUrl b with
  | Ok c => c
  | Throw _ => []
  end.

Definition freshBlock (env : Env) (repoUrl : option text) (b : block) : block :=
  Block (b_before b) (b_level b) (b_title b) (b_lead b) (b_file b) (b_term b)
        (nl ++ contentOfBlock env repoUrl b).

Definition generates (env : Env) (repoUrl : option text) (b : block) : bool :=
  match generatedForBlock env repoUrl b with
  | Ok _ => true
  | Throw _ => false
  end.

(** The number of leading characters of a class. *)
Fixpoint leading (p : char -> bool) (u : text) : nat :=
  match u with
  | c :: u' => if p c then S (leading p u') else 0
  | [] => 0
  end.

(** The level of the heading a text starts with: one to six [#] and then a
    white space character. *)
Definition headingLevel (u : text) : option nat :=
  let k := leading is_hash u in
  if (1 <=? k) && (k <=? 6) &&
     match drop k u with
     | c :: _ => isWhiteSpace c
     | [] => false
     end
  then Some k else None.

(** A heading that ends a region of base level [maxLevel]. *)
Definition isBoundary (maxLevel : nat) (u : text) : bool :=
  match headingLevel u with
  | Some k => k <=? maxLevel
  | None => false
  end.

(** One to six [#] and then nothing but white space, at least one
    character of it. *)
Definition isDangling (u : text) : bool :=
  let k := leading is_hash u in
  (1 <=? k) && (k <=? 6) && (k <? length u) && forallb isWhiteSpace (drop k u).

(** [f] holds of the rest of the text at every line start. *)
Fixpoint lineStartsAll (f : text -> bool) (lineStart : bool) (u : text) : bool :=
  match u with
  | [] => true
  | c :: u' =>
      (negb lineStart || f u) && lineStartsAll f (isLineTerminator c) u'
  end.

Definition headingFree (maxLevel : nat) (u : text) : bool :=
  lineStartsAll (fun v => negb (isBoundary maxLevel v)) true u.

Definition noDangling (u : text) : bool :=
  lineStartsAll (fun v => negb (isDangling v)) true u.

(** Empty, or ending in a line terminator. *)
Definition endsLine (u : text) : bool :=
  match list.last u with
  | None => true
  | Some c => isLineTerminator c
  end.

(** No occurrence of the phrase starts in [u] when the phrase follows [u]. *)
Definition noEarly (P u : text) : bool :=
  forallb (fun k => negb (startsWith P (drop k (u ++ P)))) (seq 0 (length u)).

(** The marker of a block: the title is one line; without a heading it does
    not read as one, with a heading it starts with a character that is not
    white space; the source file has no line break in it and is followed by
    a closing character. *)
Definition wfMarker (b : block) : bool :=
  forallb is_dot (b_title b) &&
  forallb cls_lead (b_lead b) &&
  forallb (fun c => cls_file c && negb (is_nl c)) (b_file b) &&
  (0 <? length (b_file b)) &&
  forallb cls_term (b_term b) &&
  (0 <? length (b_term b)) &&
  match b_level b with
  | 0 =>
      match headingLevel (b_title b ++ [c_nl]) with
      | Some _ => false
      | None => true
      end
  | k =>
      (k <=? 6) &&
      match b_title b with
      | c :: _ => negb (isWhiteSpace c)
      | [] => false
      end
  end.

(** A region ends a line and has no heading in it that would end it. *)
Definition wfRegion (maxLevel : nat) (u : text) : bool :=
  endsLine u && headingFree maxLevel u.

(** What follows a region: the end of the document or a heading that ends
    the region. *)
Definition atBoundary (maxLevel : nat) (u : text) : bool :=
  match u with
  | [] => true
  | _ => isBoundary maxLevel u
  end.

(** The normal form; [R] is the region before the first block. *)
Fixpoint normal (P R : text) (bs : list block) (post : text) : bool :=
  match bs with
  | [] => negb (includes P (R ++ post))
  | b :: bs' =>
      endsLine (b_before b) &&
      noEarly P (R ++ b_before b ++ headingOf b ++ b_title b ++ [c_nl]) &&
      noDangling (R ++ b_before b) &&
      wfMarker b &&
      wfRegion (baseOf b) (b_region b) &&
      atBoundary (baseOf b) (docOf P bs' post) &&
      normal P (b_region b) bs' post
  end.

(** The matches found from a position on, as a relation. *)
Inductive found (r : regex) (n : nat) (t : text) : nat -> list jsmatch -> Prop :=
| found_nil li : exec r n t li = None -> found r n t li []
| found_cons li m ms :
    exec r n t li = Some m -> found r n t (next_index m) ms ->
    found r n t li (m :: ms).

(** A match of the marker pattern that is the marker of block [b], the
    block starting at position [start] of [t]; its region ends where the
    block ends. *)
Definition marks (P t : text) (start : nat) (b : block) (m : jsmatch) : Prop :=
  index m = start + length (b_before b) /\
  stop m = index m + length (markerText P b) /\
  group t m 2 = (match b_level b with
                 | 0 => None
                 | k => Some (repeat_hash k)
                 end) /\
  group t m 3 = Some (titledLine P b) /\
  group t m 4 = Some (b_file b) /\
  contentEndOf t m = start + length (blockText P b).

(** The matches are the markers of the blocks, one after the other. *)
Fixpoint tracks (P t : text) (start : nat) (bs : list block)
    (ms : list jsmatch) : Prop :=
  match bs, ms with
  | [], [] => True
  | b :: bs', m :: ms' =>
      marks P t start b m /\
      tracks P t (start + length (blockText P b)) bs' ms'
  | _, _ => False
  end.

(** The two parts of the marker pattern. *)
Definition headingPart : regex :=
  Group 1 (Cat LineStart
            (Cat (Group 2 (Rep is_hash 1 (Some 6) true))
                 (Rep isWhiteSpace 1 None true))).

Definition linePart (P : text) : regex :=
  Cat (Rep is_dot 0 None false)
  (Cat (Cls is_nl)
  (Cat (lit P)
  (Cat (Rep cls_lead 0 None true)
  (Cat (Group 4 (Rep cls_file 1 None true))
  (Cat (Rep cls_term 0 None true)
       (Cls is_nl)))))).

(** ** More sample data *)

(** A checker whose every lookup throws. *)
Definition failingChecker : TypeChecker :=
  {| getAliasedSymbol := fun _ => Throw (str "alias");
     getSymbolAtLocation := fun _ => Throw (str "symbol");
     typeStringAt := fun _ _ => Throw (str "type") |}.

(** [export { answer } from './trivial'] *)
Definition specifierDecl : Node := withName "answer" (node0 ExportSpecifier).

Definition aliasSymbol : Symbol :=
  {| sym_flags := SymbolFlags_Alias; valueDeclaration := None;
     declarations := [specifierDecl] |}.

(** [@template T - The element type], [@returns The box] and so on. *)
Definition plainTag (nm text : string) : JSDocTag :=
  {| tagName := Some (str nm); tag_name := None;
     tag_comment := Some (CommentString (str text)) |}.

Definition typeParam (nm : string) : TypeParameter :=
  {| tp_name := str nm; tp_constraint := None; tp_default := None |}.

(** The tags [generateJSDocTags] renders. *)
Definition rendersTag (t : JSDocTag) : bool :=
  tag_is "returns" t || tag_is "throws" t || tag_is "example" t.

(** What is put behind the heading for the comment of a symbol. *)
Definition commentPart (jsDocObject : option JSDoc) : text :=
  match shown (jsDocObject ≫= comment) with
  | Some s => s ++ nl2
  | None => []
  end.

(** The comment of a [@template] tag as it is put in [templateDocs]. *)
Definition cleanComment (t : JSDocTag) : text :=
  let comment := commentToString (commentOrEmpty (tag_comment t)) in
  if startsWith (str "- ") comment then drop 2 comment else comment.

(** The comment of a tag is a string, or missing. *)
Definition hasStringComment (t : JSDocTag) : bool :=
  match tag_comment t with
  | Some (CommentNodes _) => false
  | _ => true
  end.

(** The line of a type parameter, with the [@template] tag taken for it. *)
Definition typeParameterLine (param : TypeParameter) (tag : option JSDocTag)
    : text :=
  str "- `" ++ tp_name param ++
  (match tp_constraint param with
   | Some c => str " extends " ++ c
   | None => []
   end) ++
  (match tp_default param with
   | Some d => str " = " ++ d
   | None => []
   end) ++ str "`" ++
  (match tag with
   | Some t =>
       match cleanComment t with
       | c :: s => str " - " ++ (c :: s)
       | [] => []
       end
   | None => []
   end) ++ nl.

Definition templateTagsOf (jsDoc : option JSDoc) : list JSDocTag :=
  match tags_of jsDoc with
  | Some ts => filter (fun t => tag_is "template" t = true) ts
  | None => []
  end.

(** Position [i] of [t] starts a line: it is the start of the text or it
    follows a line terminator. *)
Definition atLineStart (t : text) (i : nat) : bool :=
  match prev_at t i with
  | None => true
  | Some c => isLineTerminator c
  end.

(** The lines a pass logs for the markers it gets to. *)
Definition generatingLines (readme : text) (ms : list jsmatch) : list text :=
  generatingLine readme <$> ms.

Definition updatedLine (n : nat) (readmePath : text) : text :=
  str "Updated documentation for " ++ digits n ++ str " file(s) in " ++
  readmePath.

(** A document whose first line is the marker line. *)
Definition firstLineReadme : text :=
  str "The following is auto-generated from test/trivial.ts:
stale
".

(** A document in normal form with two blocks: a marker line after a blank
    line, without a heading, and a marker line under a level-2 heading at
    the end of the document. *)
Definition introBlock : block :=
  {| b_before := str "# Lib

intro
";
     b_level := 0;
     b_title := [];
     b_lead := str " ";
     b_file := str "test/trivial.ts";
     b_term := str ":";
     b_region := str "
old text

" |}.

Definition apiBlock : block :=
  {| b_before := [];
     b_level := 2;
     b_title := str "API";
     b_lead := str " `";
     b_file := str "test/trivial.ts";
     b_term := str "`";
     b_region := [] |}.

Definition twoBlocks : list block := [introBlock; apiBlock].

Definition twoBlocksReadme : text :=
  str "# Lib

intro

The following is auto-generated from test/trivial.ts:

old text

## API
The following is auto-generated from `test/trivial.ts`
".

Definition twoBlocksSpliced : text :=
  str "# Lib

intro

The following is auto-generated from test/trivial.ts:

" ++ answerFragment "###" ++ str "## API
The following is auto-generated from `test/trivial.ts`

" ++ answerFragment "###".

(** The heading line of a member without a deep link, and the entry of the
    member up to its type: the heading and, when there is one, the
    comment. *)
Definition memberHeading (env : Env) (member : Node) (isStatic : bool)
    (headingPrefix className : text) : text :=
  headingPrefix ++ str "# " ++
  ((if isStatic then className else lowerFirst env className) ++ str "." ++
   text_or (name member)
     (if is_kind ConstructSignature member then str "new" else str "unknown")) ++
  str " " ++ [c_middot] ++ str " " ++ getMemberType member isStatic ++ nl2.

Definition memberEntry (env : Env) (member : Node) (isStatic : bool)
    (headingPrefix className : text) : text :=
  match shown (extractJSDoc (Some member) ≫= comment) with
  | Some s =>
      memberHeading env member isStatic headingPrefix className ++ s ++ nl2
  | None => memberHeading env member isStatic headingPrefix className
  end.

(** The nodes the loop of [isConst] can get to: the node and its ancestors
    up to the first variable statement. *)
Fixpoint upToStatement (node : Node) : list Node :=
  node ::
  (if is_kind VariableStatement node then []
   else match parent node with
        | Some p => upToStatement p
        | None => []
        end).

Definition hasConstFlag (node : Node) : bool :=
  negb (N.land (flags node) NodeFlags_Const =? 0)%N.

(** ** Headings, in the words of the specification *)

(** The name a member is listed under. *)
Definition memberNameOf (member : Node) : text :=
  text_or (name member)
    (if is_kind ConstructSignature member then str "new" else str "unknown").

(** The title of a member's heading: the class name, with a lower-case first
    letter for an instance member, a dot and the member's name. *)
Definition memberTitle (env : Env) (className : text) (member : Node) : text :=
  (if has_modifier StaticKeyword member then className
   else lowerFirst env className) ++ str "." ++ memberNameOf member.

(** The heading line of a member, one [#] deeper than the heading prefix of
    its class. *)
Definition memberLine (env : Env) (headingPrefix className : text)
    (member : Node) (deepLink : option text) : text :=
  headingPrefix ++ str "# " ++ memberTitle env className member ++ str " " ++
  [c_middot] ++ str " " ++
  linked (getMemberType member (has_modifier StaticKeyword member)) deepLink ++
  nl2.


(** The type string of a declaration, when the checker gives one that is not
    empty: the declaration is rendered with a body of its kind. *)
Definition typeInfoOf (sy : Symbol) (chk : TypeChecker) : option text :=
  match declaration (resolveSymbol sy chk) with
  | Some d => getTypeInfo (originalSymbol (resolveSymbol sy chk)) d chk
  | None => None
  end.





(** ** Comments that are strings *)

Definition templatesAreStrings (jsDoc : option JSDoc) : bool :=
  forallb hasStringComment (templateTagsOf jsDoc).

(** The [@template] tags of the comments an export is rendered with have
    string comments. *)
Definition exportTemplatesAreStrings (chk : TypeChecker) (e : text * Symbol)
    : bool :=
  let r := resolveSymbol e.2 chk in
  match declaration r with
  | Some d =>
      templatesAreStrings (extractJSDoc (exportDeclaration r)) &&
      templatesAreStrings (extractJSDoc (Some d))
  | None => true
  end.

(** ** A class, an interface and an alias *)

Definition withInitializer (i : Node) (n : Node) : Node :=
  MkNode (kind n) (flags n) (modifiers n) (jsDoc n) (parent n) (name n)
    (Some i) (expression n) (declarationList n) (typeParameters n)
    (parameters n) (members n) (type_text n) (pos n) (startLine n).

Definition withExpression (e : Node) (n : Node) : Node :=
  MkNode (kind n) (flags n) (modifiers n) (jsDoc n) (parent n) (name n)
    (initializer n) (Some e) (declarationList n) (typeParameters n)
    (parameters n) (members n) (type_text n) (pos n) (startLine n).

(** [/** A box. */ export class Box { ... }] *)
Definition notedBoxClass : Node := withJSDoc [plainDoc "A box."] boxClass.

Definition notedBoxSymbol : Symbol :=
  {| sym_flags := 32; valueDeclaration := Some notedBoxClass;
     declarations := [notedBoxClass] |}.

(** [/** The box, under another name. */ export const B = Box as typeof Box;] *)
Definition aliasStatement : Node :=
  withJSDoc [plainDoc "The box, under another name."] (node0 VariableStatement).

Definition aliasDecl : Node :=
  withInitializer (withExpression (node0 (OtherKind 80)) (node0 AsExpression))
    (withName "B"
       (withParent (withParent aliasStatement
                      (withFlags NodeFlags_Const (node0 VariableDeclarationList)))
                   (node0 VariableDeclaration))).

Definition assertedSymbol : Symbol :=
  {| sym_flags := 2; valueDeclaration := Some aliasDecl;
     declarations := [aliasDecl] |}.

(** [interface Shape { new (size: number): Shape; area: number }] *)
Definition newSignature : Node := node0 ConstructSignature.
Definition areaMember : Node := withName "area" (node0 (OtherKind 171)).

Definition shapeInterface : Node :=
  withName "Shape"
    (withMembers [newSignature; areaMember] (node0 InterfaceDeclaration)).

Definition shapeSymbol : Symbol :=
  {| sym_flags := 64; valueDeclaration := Some shapeInterface;
     declarations := [shapeInterface] |}.

(** [class Jar { '_internal' = 1 }]: the text of the name starts with its
    quote. *)
Definition quotedMember : Node := withName "'_internal'" (node0 PropertyDeclaration).

Definition jarClass : Node :=
  withName "Jar" (withMembers [quotedMember] (node0 ClassDeclaration)).

(** A checker for these: the asserted expression is [Box]; a member without
    a name has no symbol; a class has the type of its static side. *)
Definition classChecker : TypeChecker :=
  {| getAliasedSymbol := fun _ => Ok None;
     getSymbolAtLocation := fun l =>
       match l with
       | AtNode _ => Ok (Some notedBoxSymbol)
       | AtNameOf member =>
           match name member with
           | Some _ => Ok (Some answerSymbol)
           | None => Ok None
           end
       end;
     typeStringAt := fun _ d =>
       match kind d with
       | ClassDeclaration => Ok (str "typeof Box")
       | InterfaceDeclaration => Ok (str "Shape")
       | MethodDeclaration => Ok (str "(size: number) => Box")
       | _ => Ok (str "number")
       end |}.

Definition classFile : SourceFile :=
  {| fileName := str "/repo/test/trivial.ts";
     exports := Some [(str "Box", notedBoxSymbol); (str "B", assertedSymbol)] |}.

Definition classEnv : Env :=
  {| findSourceFile := fun f =>
       if bool_decide (f = str "test/trivial.ts") then Some classFile else None;
     checkerOf := fun _ => classChecker;
     execSync := gitTracked;
     toLowerCase := asciiLower |}.

(** Every deep link asked for is answered, with a link or without one. *)
Definition linksAnswered (env : Env) (repoUrl : option text) (sf : SourceFile)
    : Prop :=
  forall n, exists r, deepLinkFor env repoUrl n sf = Ok r.

(** The comment a function is rendered with: the one found for the symbol,
    or else the declaration's own. *)
Definition resolvedJSDocOf (declaration : Node) (jsDocObject : option JSDoc)
    : option JSDoc :=
  match jsDocObject with
  | Some j => Some j
  | None => head (jsDoc declaration)
  end.

(** The fragment of [B]: the class [Box] in full, under the comment of the
    alias. *)
Definition aliasFragment : text :=
  str "### B " ++ [c_middot] ++ str " class

The box, under another name.

**Constructor Parameters:**

- `size`: The size

#### B.make " ++ [c_middot] ++ str " static method

**Signature:** `(size: number) => Box`

**Parameters:**


#### b.size " ++ [c_middot] ++ str " property

**Type:** `number`

".

(** The entries of [Shape] and of [Jar]. *)
Definition shapeDoc : text :=
  str "#### shape.new " ++ [c_middot] ++ str " constructor

#### shape.area " ++ [c_middot] ++ str " member

**Type:** `number`

".

Definition jarDoc : text :=
  str "#### jar.'_internal' " ++ [c_middot] ++ str " property

**Type:** `number`

".


(** [templateDocs] when the comments of the tags it is filled from are
    strings. *)
Fixpoint collectedDocs (typeParameters : list TypeParameter)
    (templateTags : list JSDocTag) (templateIndex : nat)
    (templateDocs : gmap text text) : gmap text text :=
  match typeParameters with
  | [] => templateDocs
  | param :: rest =>
      match templateTags !! templateIndex with
      | Some templateTag =>
          collectedDocs rest templateTags (S templateIndex)
            (<[tp_name param := cleanComment templateTag]> templateDocs)
      | None => collectedDocs rest templateTags templateIndex templateDocs
      end
  end.

(** [/** @template K - see {@link Key} */ export function pair<K>(k: K): K]:
    the comment of the tag has an inline tag and is a [NodeArray]. *)
Definition linkedTemplateTag : JSDocTag :=
  {| tagName := Some (str "template"); tag_name := None;
     tag_comment := Some (CommentNodes [JSDocText (str "- see ");
                                        JSDocLink (str "Key")]) |}.

Definition pairDecl : Node :=
  MkNode FunctionDeclaration 0 []
    [{| comment := None; tags := Some [linkedTemplateTag] |}]
    None (Some (str "pair")) None None None [typeParam "K"] [] [] None (Some 0) 0.

Definition pairSymbol : Symbol :=
  {| sym_flags := 16; valueDeclaration := Some pairDecl;
     declarations := [pairDecl] |}.

Definition linkedFile : SourceFile :=
  {| fileName := str "/repo/test/trivial.ts";
     exports := Some [(str "pair", pairSymbol)] |}.

(** ** Generated text that is read back as it was written

    [inert P level G]: no line of [G] is a heading that ends a region of
    base level [level], no line of [G] is a run of [#]s with nothing but
    white space behind it up to the end of [G], and the phrase [P] does not
    occur in [G]. *)
Definition inert (P : text) (level : nat) (G : text) : bool :=
  headingFree level G && noDangling G && negb (includes P G).

Definition inertBlock (env : Env) (repoUrl : option text) (P : text)
    (b : block) : bool :=
  inert P (baseOf b) (contentOfBlock env repoUrl b).

(** A constant whose comment has a line that reads as a marker line, and a
    function whose example ends in a line of [#]s. *)
Definition markedStatement : Node :=
  withJSDoc [plainDoc "See the other file.
The following is auto-generated from test/trivial.ts:
It is the same."] (node0 VariableStatement).

Definition markedDecl : Node :=
  withLine 1 (withName "answer"
    (withParent (withParent markedStatement
                   (withFlags NodeFlags_Const (node0 VariableDeclarationList)))
                (node0 VariableDeclaration))).

Definition markedFile : SourceFile :=
  {| fileName := str "/repo/test/trivial.ts";
     exports := Some [(str "answer",
                       {| sym_flags := 2; valueDeclaration := Some markedDecl;
                          declarations := [markedDecl] |})] |}.

Definition ruledDecl : Node :=
  MkNode FunctionDeclaration 0 []
    [{| comment := None;
        tags := Some [plainTag "example" "rule()
####"] |}]
    None (Some (str "rule")) None None None [] [] [] None (Some 0) 0.

Definition ruledFile : SourceFile :=
  {| fileName := str "/repo/test/trivial.ts";
     exports := Some [(str "rule",
                       {| sym_flags := 16; valueDeclaration := Some ruledDecl;
                          declarations := [ruledDecl] |})] |}.

(** * Properties *)

(** ** The matcher *)


Lemma moved_refl st : moved [] st st.
Proof. split; simpl; [done | lia]. Qed.

Lemma moved_trans w1 w2 st1 st2 st3 :
  moved w1 st1 st2 -> moved w2 st2 st3 -> moved (w1 ++ w2) st1 st3.
Proof.
  intros [H1 H2] [H3 H4]. split.
  - rewrite H1, H3. by rewrite app_assoc.
  - rewrite H4, H2, length_app. lia.
Qed.

Lemma moved_advance st c u : m_rest st = c :: u -> moved [c] st (advance st).
Proof.
  intros H. unfold moved, advance. rewrite H. simpl. split; [done | lia].
Qed.

Lemma walk_moved p n st st' :
  walk p n st st' ->
  exists w, moved w st st' /\ length w = n /\ forallb p w = true
            /\ m_caps st' = m_caps st.
Proof.
  induction 1 as [st | n st c u st' Hr Hp Hw (w & Hm & Hl & Hf & Hc)].
  - exists []. split; [apply moved_refl | done].
  - exists (c :: w). split; [| split; [| split]].
    + apply (moved_trans [c] w st (advance st) st'); [by eapply moved_advance | done].
    + simpl. by rewrite Hl.
    + simpl. by rewrite Hp, Hf.
    + rewrite Hc. unfold advance. by rewrite Hr.
Qed.

Lemma rep_sound p g u :
  forall min max st k z,
    u = m_rest st ->
    (forall mx, max = Some mx -> min <= mx) ->
    rep p g u min max st k = Some z ->
    exists n st', walk p n st st' /\ min <= n
                  /\ (forall mx, max = Some mx -> n <= mx) /\ k st' = Some z.
Proof.
  induction u as [| c u IH]; intros min max st k z Hu Hb H.
  - simpl in H. destruct max as [[| mx] |].
    + exists 0, st. specialize (Hb 0 eq_refl).
      repeat split; [constructor | lia | intros ? [= <-]; lia | done].
    + destruct min; [| done]. destruct g.
      * exists 0, st. repeat split; [constructor | lia | intros; lia | done].
      * destruct (k st) eqn:E; [| done]. exists 0, st.
        repeat split; [constructor | lia | intros; lia | congruence].
    + destruct min; [| done]. destruct g.
      * exists 0, st. repeat split; [constructor | lia | done | done].
      * destruct (k st) eqn:E; [| done]. exists 0, st.
        repeat split; [constructor | lia | done | congruence].
  - assert (Hit : forall z' max',
      (forall mx, max' = Some mx -> Nat.pred min <= mx) ->
      (if p c then rep p g u (Nat.pred min) max' (advance st) k else None)
        = Some z' ->
      exists n st', walk p (S n) st st' /\ min <= S n
                    /\ (forall mx, max' = Some mx -> n <= mx) /\ k st' = Some z').
    { intros z' max' Hb' Hz. destruct (p c) eqn:Hp; [| done].
      apply IH in Hz as (n & st' & Hw & Hmin & Hmax & Hk); [| | done].
      - exists n, st'. repeat split; [| lia | done | done].
        by eapply walk_S.
      - unfold advance. by rewrite <- Hu. }
    simpl in H. destruct max as [[| mx] |].
    + exists 0, st. specialize (Hb 0 eq_refl).
      repeat split; [constructor | lia | intros ? [= <-]; lia | done].
    + assert (Hb' : forall mx0, dec_max (Some (S mx)) = Some mx0 -> Nat.pred min <= mx0).
      { intros mx0 [= <-]. specialize (Hb _ eq_refl). lia. }
      destruct min as [| min'].
      * destruct g.
        -- match type of H with
           | match ?it with _ => _ end = _ => destruct it eqn:E
           end.
           ++ apply Hit in E as (n & st' & ? & ? & Hmax & ?); [| done].
              exists (S n), st'. repeat split; [done | lia | | congruence].
              intros ? [= <-]. specialize (Hmax mx eq_refl). lia.
           ++ exists 0, st. repeat split; [constructor | lia | intros; lia | done].
        -- destruct (k st) eqn:E.
           ++ exists 0, st. repeat split; [constructor | lia | intros; lia | congruence].
           ++ apply Hit in H as (n & st' & ? & ? & Hmax & ?); [| done].
              exists (S n), st'. repeat split; [done | lia | | done].
              intros ? [= <-]. specialize (Hmax mx eq_refl). lia.
      * apply Hit in H as (n & st' & ? & ? & Hmax & ?); [| done].
        exists (S n), st'. repeat split; [done | lia | | done].
        intros ? [= <-]. specialize (Hmax mx eq_refl). lia.
    + assert (Hb' : forall mx0, dec_max None = Some mx0 -> Nat.pred min <= mx0) by done.
      destruct min as [| min'].
      * destruct g.
        -- match type of H with
           | match ?it with _ => _ end = _ => destruct it eqn:E
           end.
           ++ apply Hit in E as (n & st' & ? & ? & Hmax & ?); [| done].
              exists (S n), st'. repeat split; [done | lia | done | congruence].
           ++ exists 0, st. repeat split; [constructor | lia | done | done].
        -- destruct (k st) eqn:E.
           ++ exists 0, st. repeat split; [constructor | lia | done | congruence].
           ++ apply Hit in H as (n & st' & ? & ? & Hmax & ?); [| done].
              exists (S n), st'. repeat split; [done | lia | done | done].
      * apply Hit in H as (n & st' & ? & ? & Hmax & ?); [| done].
        exists (S n), st'. repeat split; [done | lia | done | done].
Qed.

Lemma run_sound r :
  forall st k z,
    bounds_ok r ->
    run r st k = Some z ->
    exists st', matches r st st' /\ k st' = Some z.
Proof.
  induction r as [| p | r1 IH1 r2 IH2 | | n r IH | r IH inner | p min max g];
    intros st k z Hb H; simpl in H.
  - exists st. split; [constructor | done].
  - destruct (m_rest st) as [| c u] eqn:Hr; [done |].
    destruct (p c) eqn:Hp; [| done].
    exists (advance st). split; [by eapply m_cls | done].
  - destruct Hb as [Hb1 Hb2].
    apply IH1 in H as (st1 & Hm1 & H); [| done].
    apply IH2 in H as (st2 & Hm2 & H); [| done].
    exists st2. split; [by eapply m_cat | done].
  - destruct (at_line_start st) eqn:E; [| done].
    exists st. split; [by constructor | done].
  - apply IH in H as (st' & Hm & H); [| done].
    eexists. split; [by apply m_group | done].
  - match type of H with
    | match ?it with _ => _ end = _ => destruct it eqn:E
    end.
    + apply IH in E as (st' & Hm & E); [| done].
      destruct (m_pos st' =? m_pos st) eqn:Hp; [done |].
      apply Nat.eqb_neq in Hp. exists st'. split; [| congruence].
      apply m_opt_some; [done |]. exact Hp.
    + exists st. split; [apply m_opt_none | done].
  - apply rep_sound in H as (n & st' & Hw & Hmin & Hmax & Hk); [| done |].
    + exists st'. split; [by eapply m_rep | done].
    + intros mx ->. exact Hb.
Qed.

Lemma matches_moved r st st' : matches r st st' -> exists w, moved w st st'.
Proof.
  induction 1 as [st | p st c u Hr Hp | r1 r2 st st1 st2 _ [w1 H1] _ [w2 H2]
                 | st Hl | n r st st' _ [w Hw] | r inner st st' _ [w Hw] Hne
                 | r inner st | p min max g n st st' Hw Hmin Hmax].
  - exists []. apply moved_refl.
  - exists [c]. by eapply moved_advance.
  - exists (w1 ++ w2). by eapply moved_trans.
  - exists []. apply moved_refl.
  - exists w. exact Hw.
  - exists w. exact Hw.
  - exists []. apply moved_refl.
  - apply walk_moved in Hw as (w & Hm & _). by exists w.
Qed.

Lemma moved_aligned t w st st' :
  aligned t st -> moved w st st' ->
  aligned t st' /\ w = span t (m_pos st) (m_pos st').
Proof.
  intros [Ha Hle] [Hr Hp].
  assert (Hlen : length (m_rest st) = length t - m_pos st).
  { rewrite Ha. apply length_drop. }
  assert (Hw : length w + length (m_rest st') = length t - m_pos st).
  { rewrite <- Hlen, Hr, length_app. lia. }
  assert (Hsp : w = span t (m_pos st) (m_pos st')).
  { unfold span. rewrite <- Ha, Hr, Hp.
    replace (m_pos st + length w - m_pos st) with (length w) by lia.
    by rewrite take_app_length. }
  split; [split |]; [| lia | done].
  rewrite Hp. rewrite <- drop_drop, <- Ha, Hr. by rewrite drop_app_length.
Qed.

Lemma initial_aligned n t i : i <= length t -> aligned t (initial n t i).
Proof. intros H. split; simpl; [done | lia]. Qed.

(** A successful attempt is a path of the pattern through the text. *)
Lemma attemptAt_sound r n t i m :
  bounds_ok r -> i <= length t ->
  attemptAt r n t i = Some m ->
  exists st', matches r (initial n t i) st' /\
              aligned t st' /\
              index m = i /\ stop m = m_pos st' /\ caps m = m_caps st' /\
              i <= stop m <= length t.
Proof.
  intros Hb Hi H. unfold attemptAt, attempt in H.
  destruct (run r _ Some) as [z |] eqn:E; [| done].
  simpl in H. injection H as <-.
  apply run_sound in E as (st' & Hm & Heq); [| done].
  injection Heq as Heq. subst st'.
  destruct (matches_moved _ _ _ Hm) as [w Hw].
  destruct (moved_aligned t w _ _ (initial_aligned n t i Hi) Hw) as [Ha _].
  exists z. split; [exact Hm |]. split; [exact Ha |].
  destruct Hw as [_ Hp]. destruct Ha as [_ Hle]. simpl in *.
  repeat split; try done; lia.
Qed.

Lemma prev_at_S t i c u : drop i t = c :: u -> prev_at t (S i) = Some c.
Proof.
  intros H. simpl.
  pose proof (lookup_drop t i 0) as Hl. rewrite H in Hl. simpl in Hl.
  by rewrite Nat.add_0_r in Hl.
Qed.

(** The scan answers with the first position where an attempt succeeds. *)
Lemma scan_spec r n t :
  forall u i m,
    u = drop i t -> i <= length t ->
    scan r n (prev_at t i) i u = Some m ->
    exists j, i <= j <= length t /\ attemptAt r n t j = Some m /\
              forall j', i <= j' < j -> attemptAt r n t j' = None.
Proof.
  induction u as [| c u IH]; intros i m Hu Hi H; simpl in H.
  - destruct (attempt r n (prev_at t i) i []) eqn:E; [| done].
    exists i. unfold attemptAt. rewrite <- Hu.
    split; [lia |]. split; [congruence | intros; lia].
  - destruct (attempt r n (prev_at t i) i (c :: u)) eqn:E.
    + exists i. unfold attemptAt. rewrite <- Hu.
      split; [lia |]. split; [congruence | intros; lia].
    + assert (Hlt : i < length t).
      { destruct (decide (i < length t)); [done |].
        rewrite drop_ge in Hu; [done | lia]. }
      rewrite <- (prev_at_S t i c u) in H by done.
      apply IH in H as (j & Hj & Hat & Hnone); [| | lia].
      * exists j. split; [lia |]. split; [done |].
        intros j' Hj'. destruct (decide (j' = i)) as [-> | Hne].
        -- unfold attemptAt. by rewrite <- Hu.
        -- apply Hnone. lia.
      * replace (S i) with (i + 1) by lia. by rewrite <- drop_drop, <- Hu.
Qed.

Lemma scan_none r n t :
  forall u i,
    u = drop i t -> i <= length t ->
    scan r n (prev_at t i) i u = None ->
    forall j, i <= j <= length t -> attemptAt r n t j = None.
Proof.
  induction u as [| c u IH]; intros i Hu Hi H j Hj; simpl in H.
  - destruct (attempt r n (prev_at t i) i []) eqn:E; [done |].
    assert (length (drop i t) = 0) as Hl by (by rewrite <- Hu).
    rewrite length_drop in Hl. assert (j = i) as -> by lia.
    unfold attemptAt. by rewrite <- Hu.
  - destruct (attempt r n (prev_at t i) i (c :: u)) eqn:E; [done |].
    destruct (decide (j = i)) as [-> | Hne].
    + unfold attemptAt. by rewrite <- Hu.
    + assert (Hlt : i < length t).
      { destruct (decide (i < length t)); [done |].
        rewrite drop_ge in Hu; [done | lia]. }
      rewrite <- (prev_at_S t i c u) in H by done.
      eapply IH; [| | exact H | lia]; [| lia].
      replace (S i) with (i + 1) by lia. by rewrite <- drop_drop, <- Hu.
Qed.

Lemma exec_spec r n t li m :
  exec r n t li = Some m ->
  exists j, li <= j <= length t /\ attemptAt r n t j = Some m /\
            forall j', li <= j' < j -> attemptAt r n t j' = None.
Proof.
  unfold exec. destruct (decide (li <= length t)); [| done].
  by apply scan_spec.
Qed.

Lemma exec_none r n t li :
  exec r n t li = None ->
  forall j, li <= j <= length t -> attemptAt r n t j = None.
Proof.
  unfold exec. destruct (decide (li <= length t)).
  - by apply scan_none.
  - intros _ j Hj. lia.
Qed.

Lemma exec_bounds r n t li m :
  bounds_ok r -> exec r n t li = Some m ->
  li <= index m /\ index m <= stop m /\ stop m <= length t.
Proof.
  intros Hb H. apply exec_spec in H as (j & Hj & Hat & _).
  apply attemptAt_sound in Hat as (st' & _ & _ & Hi & _ & _ & Hs); [| done | lia].
  lia.
Qed.

(** [matchAll] never runs out of fuel. *)
Lemma matchAll_loop_total r n t :
  bounds_ok r ->
  forall fuel li, 1 <= fuel -> length t + 2 <= fuel + li ->
    is_Some (matchAll_loop fuel r n t li).
Proof.
  intros Hb. induction fuel as [| fuel IH]; intros li H1 Hf; [lia |].
  simpl. destruct (exec r n t li) as [m |] eqn:E; [| by eexists].
  destruct (exec_bounds _ _ _ _ _ Hb E) as (H2 & H3 & H4).
  destruct (IH (next_index m)) as [ms Hms].
  - lia.
  - unfold next_index. destruct (stop m =? index m) eqn:Eq; [lia |].
    apply Nat.eqb_neq in Eq. lia.
  - rewrite Hms. by eexists.
Qed.


(** ** What a match of the two patterns looks like *)

Lemma span_length t a b : b <= length t -> length (span t a b) = b - a.
Proof. intros H. unfold span. rewrite length_take, length_drop. lia. Qed.

Lemma span_app t a b c :
  a <= b -> b <= c -> b <= length t ->
  span t a b ++ span t b c = span t a c.
Proof.
  intros Hab Hbc Hb. unfold span.
  replace (c - a) with ((b - a) + (c - b)) by lia.
  rewrite <- take_take_drop, drop_drop.
  by replace (a + (b - a)) with b by lia.
Qed.

Lemma span_nil t a : span t a a = [].
Proof. unfold span. by rewrite Nat.sub_diag. Qed.

Lemma span_0 t b : span t 0 b = take b t.
Proof. unfold span. by rewrite Nat.sub_0_r. Qed.

Lemma span_to_end t a : span t a (length t) = drop a t.
Proof. unfold span. rewrite take_ge; [done |]. rewrite length_drop. lia. Qed.

Lemma matches_cat_inv r1 r2 st st' :
  matches (Cat r1 r2) st st' ->
  exists st1, matches r1 st st1 /\ matches r2 st1 st'.
Proof. inversion 1; subst. eauto. Qed.

Lemma matches_group_inv n r st st' :
  matches (Group n r) st st' ->
  exists st1, matches r st st1 /\ st' = set_cap n (m_pos st) (m_pos st1) st1.
Proof. inversion 1; subst. eauto. Qed.

Lemma matches_opt_inv r inner st st' :
  matches (Opt r inner) st st' ->
  st' = st \/ (matches r (clear_caps inner st) st' /\ m_pos st' <> m_pos st).
Proof. inversion 1; subst; eauto. Qed.

Lemma matches_linestart_inv st st' :
  matches LineStart st st' -> st' = st /\ at_line_start st = true.
Proof. inversion 1; subst. eauto. Qed.

Lemma matches_rep_inv p min max g st st' :
  matches (Rep p min max g) st st' ->
  exists w, moved w st st' /\ min <= length w /\
            (forall mx, max = Some mx -> length w <= mx) /\
            forallb p w = true /\ m_caps st' = m_caps st.
Proof.
  inversion 1 as [| | | | | | | ? ? ? ? n ? ? Hw Hmin Hmax]; subst.
  apply walk_moved in Hw as (w & Hm & Hl & Hf & Hc).
  exists w. subst n. eauto.
Qed.

Lemma matches_cls_inv p st st' :
  matches (Cls p) st st' ->
  exists c, moved [c] st st' /\ p c = true /\ m_caps st' = m_caps st.
Proof.
  inversion 1 as [| ? ? c u Hr Hp | | | | | |]; subst.
  exists c. split; [by eapply moved_advance |]. split; [done |].
  unfold advance. by rewrite Hr.
Qed.

Lemma matches_lit_inv s :
  forall st st', matches (lit s) st st' -> moved s st st' /\ m_caps st' = m_caps st.
Proof.
  induction s as [| c s IH]; intros st st' H; simpl in H.
  - inversion H; subst. split; [apply moved_refl | done].
  - apply matches_cat_inv in H as (st1 & H1 & H2).
    apply matches_cls_inv in H1 as (c' & Hm & Hc & Hcaps).
    apply N.eqb_eq in Hc. subst c'.
    apply IH in H2 as [Hm2 Hcaps2].
    split; [| congruence].
    exact (moved_trans [c] s _ _ _ Hm Hm2).
Qed.

Lemma forallb_replicate (p : char -> bool) (w : text) c :
  forallb (fun x => (x =? c)%N) w = true -> w = replicate (length w) c.
Proof.
  induction w as [| x w IH]; [done |]. simpl.
  intros [Hx Hw]%andb_prop. apply N.eqb_eq in Hx. subst x.
  by rewrite <- IH.
Qed.

(** The shape of a heading match: at a line start, one to six [#] and then
    white space. *)
Lemma heading_shape t i m :
  i <= length t ->
  attemptAt headingRegex 1 t i = Some m ->
  exists k ws,
    index m = i /\ stop m = i + k + length ws /\ stop m <= length t /\
    1 <= k <= 6 /\ 1 <= length ws /\ forallb isWhiteSpace ws = true /\
    span t i (stop m) = repeat_hash k ++ ws /\
    group t m 1 = Some (repeat_hash k) /\
    at_line_start (initial 1 t i) = true.
Proof.
  intros Hi H.
  apply attemptAt_sound in H as (st' & Hm & Ha' & Hidx & Hstop & Hcaps & Hb);
    [| simpl; lia | done].
  apply matches_cat_inv in Hm as (st1 & H1 & Hm).
  apply matches_linestart_inv in H1 as [-> Hls].
  apply matches_cat_inv in Hm as (st2 & H2 & H3).
  apply matches_group_inv in H2 as (st2' & H2 & ->).
  apply matches_rep_inv in H2 as (w & Hmw & Hmin & Hmax & Hfw & Hcw).
  apply matches_rep_inv in H3 as (ws & Hmws & Hminws & _ & Hfws & Hcws).
  specialize (Hmax 6 eq_refl).
  pose proof (initial_aligned 1 t i Hi) as Ha0.
  destruct (moved_aligned t w _ _ Ha0 Hmw) as [Ha2 Hw].
  assert (Ha2' : aligned t (set_cap 1 (m_pos (initial 1 t i)) (m_pos st2') st2'))
    by exact Ha2.
  destruct (moved_aligned t ws _ _ Ha2' Hmws) as [_ Hws].
  destruct Hmw as [_ Hp2]. destruct Hmws as [_ Hp3]. simpl in *.
  apply (forallb_replicate is_hash) in Hfw.
  exists (length w), ws.
  assert (Hs : stop m = i + length w + length ws) by lia.
  repeat split; try done; try lia.
  - rewrite <- (span_app t i (m_pos st2') (stop m)); [| lia | lia | lia].
    rewrite <- Hw. rewrite Hstop, <- Hws. by rewrite Hfw at 1.
  - unfold group. rewrite Hcaps, Hcws. simpl. rewrite Hcw. simpl.
    rewrite <- Hw. by rewrite Hfw at 1.
Qed.

Lemma moved_set_cap_l w n a b st st' :
  moved w (set_cap n a b st) st' <-> moved w st st'.
Proof. done. Qed.

Lemma aligned_set_cap t n a b st : aligned t (set_cap n a b st) <-> aligned t st.
Proof. done. Qed.

Lemma aligned_clear_caps t ns st : aligned t (clear_caps ns st) <-> aligned t st.
Proof. done. Qed.

(** The marker line of the pattern, from the state where group 3 starts. *)
Lemma marker_line_shape P t st1 st3 :
  aligned t st1 ->
  matches
    (Cat (Rep is_dot 0 None false)
    (Cat (Cls is_nl)
    (Cat (lit P)
    (Cat (Rep cls_lead 0 None true)
    (Cat (Group 4 (Rep cls_file 1 None true))
    (Cat (Rep cls_term 0 None true)
         (Cls is_nl))))))) st1 st3 ->
  exists line xs file zs,
    moved (line ++ [c_nl] ++ P ++ xs ++ file ++ zs ++ [c_nl]) st1 st3 /\
    forallb is_dot line = true /\ forallb cls_lead xs = true /\
    forallb cls_file file = true /\ file <> [] /\
    forallb cls_term zs = true /\
    exists a b, m_caps st3 = <[4 := Some (a, b)]> (m_caps st1) /\
                span t a b = file.
Proof.
  intros Ha1 H.
  apply matches_cat_inv in H as (s1 & H1 & H).
  apply matches_rep_inv in H1 as (line & Hm1 & _ & _ & Hf1 & Hc1).
  apply matches_cat_inv in H as (s2 & H2 & H).
  apply matches_cls_inv in H2 as (c & Hm2 & Hnl & Hc2).
  apply N.eqb_eq in Hnl. subst c.
  apply matches_cat_inv in H as (s3 & H3 & H).
  apply matches_lit_inv in H3 as [Hm3 Hc3].
  apply matches_cat_inv in H as (s4 & H4 & H).
  apply matches_rep_inv in H4 as (xs & Hm4 & _ & _ & Hf4 & Hc4).
  apply matches_cat_inv in H as (s5 & H5 & H).
  apply matches_group_inv in H5 as (s5' & H5 & ->).
  apply matches_rep_inv in H5 as (file & Hm5 & Hmin5 & _ & Hf5 & Hc5).
  apply matches_cat_inv in H as (s6 & H6 & H).
  apply matches_rep_inv in H6 as (zs & Hm6 & _ & _ & Hf6 & Hc6).
  apply matches_cls_inv in H as (c & Hm7 & Hnl & Hc7).
  apply N.eqb_eq in Hnl. subst c.
  exists line, xs, file, zs.
  pose proof (moved_trans _ _ _ _ _ Hm1
               (moved_trans _ _ _ _ _ Hm2
                 (moved_trans _ _ _ _ _ Hm3 Hm4))) as Hpre.
  destruct (moved_aligned t _ _ _ Ha1 Hpre) as [Ha4 _].
  destruct (moved_aligned t _ _ _ Ha4 Hm5) as [_ Hfile].
  apply moved_set_cap_l in Hm6.
  split; [| repeat split; try done].
  - pose proof (moved_trans _ _ _ _ _ Hpre
                 (moved_trans _ _ _ _ _ Hm5
                   (moved_trans _ _ _ _ _ Hm6 Hm7))) as Hall.
    by rewrite <- !app_assoc in Hall.
  - intros ->. simpl in Hmin5. lia.
  - exists (m_pos s4), (m_pos s5'). split; [| done].
    rewrite Hc7, Hc6. simpl. by rewrite Hc5, Hc4, Hc3, Hc2, Hc1.
Qed.

Lemma bounds_ok_lit s : bounds_ok (lit s).
Proof. induction s; simpl; auto. Qed.

Lemma markerRegex_bounds P : bounds_ok (markerRegex P).
Proof. simpl. repeat split; try lia. apply bounds_ok_lit. Qed.

Lemma headingRegex_bounds : bounds_ok headingRegex.
Proof. simpl. repeat split; lia. Qed.

(** The shape of a marker match. *)
Lemma marker_shape P t i m :
  i <= length t ->
  attemptAt (markerRegex P) 4 t i = Some m ->
  exists i3 line xs file zs,
    index m = i /\ i <= i3 /\ i3 <= stop m /\ stop m <= length t /\
    span t i3 (stop m) = line ++ [c_nl] ++ P ++ xs ++ file ++ zs ++ [c_nl] /\
    forallb is_dot line = true /\ forallb cls_lead xs = true /\
    forallb cls_file file = true /\ file <> [] /\
    forallb cls_term zs = true /\
    group t m 3 = Some (span t i3 (stop m)) /\
    group t m 4 = Some file /\
    ((group t m 2 = None /\ group t m 1 = None /\ i3 = i) \/
     (exists k ws,
        1 <= k <= 6 /\ ws <> [] /\ forallb isWhiteSpace ws = true /\
        span t i i3 = repeat_hash k ++ ws /\
        group t m 2 = Some (repeat_hash k) /\
        group t m 1 = Some (repeat_hash k ++ ws))).
Proof.
  intros Hi H.
  apply attemptAt_sound in H as (st' & Hm & Ha' & Hidx & Hstop & Hcaps & Hb);
    [| apply markerRegex_bounds | done].
  pose proof (initial_aligned 4 t i Hi) as Ha0.
  apply matches_cat_inv in Hm as (st1 & Hopt & Hm).
  apply matches_group_inv in Hm as (st3 & Hline & ->).
  assert (Hst1 :
    aligned t st1 /\ i <= m_pos st1 /\
    ((m_caps st1 = replicate 5 None /\ m_pos st1 = i) \/
     (exists k ws,
        1 <= k <= 6 /\ ws <> [] /\ forallb isWhiteSpace ws = true /\
        span t i (m_pos st1) = repeat_hash k ++ ws /\
        m_caps st1 = <[1 := Some (i, m_pos st1)]>
                       (<[2 := Some (i, i + k)]> (replicate 5 None)) /\
        span t i (i + k) = repeat_hash k))).
  { apply matches_opt_inv in Hopt as [-> | [Hg _]].
    - split; [done |]. split; [simpl; lia |]. by left.
    - apply matches_group_inv in Hg as (s1 & Hg & ->).
      apply matches_cat_inv in Hg as (s0 & Hls & Hg).
      apply matches_linestart_inv in Hls as [-> _].
      apply matches_cat_inv in Hg as (s2 & Hh & Hws).
      apply matches_group_inv in Hh as (s2' & Hh & ->).
      apply matches_rep_inv in Hh as (w & Hmw & Hmin & Hmax & Hfw & Hcw).
      apply matches_rep_inv in Hws as (ws & Hmws & Hminws & _ & Hfws & Hcws).
      specialize (Hmax 6 eq_refl).
      apply (forallb_replicate is_hash) in Hfw.
      assert (Hac : aligned t (clear_caps [1; 2] (initial 4 t i))) by done.
      destruct (moved_aligned t w _ _ Hac Hmw) as [Ha2 Hw].
      apply moved_set_cap_l in Hmws.
      destruct (moved_aligned t ws _ _ Ha2 Hmws) as [Ha3 Hws].
      destruct Hmw as [_ Hp2]. destruct Hmws as [_ Hp3]. simpl in *.
      split; [done |]. split; [lia |]. right.
      exists (length w), ws. split; [lia |]. split.
      { intros ->. simpl in Hminws. lia. }
      split; [done |]. split; [| split].
      + rewrite <- (span_app t i (m_pos s2') (m_pos s1)); [| lia | lia |].
        * rewrite <- Hw, <- Hws. by rewrite Hfw at 1.
        * destruct Ha2. lia.
      + rewrite Hcws. simpl. rewrite Hcw. simpl. by rewrite Hp2.
      + rewrite <- Hp2, <- Hw. by rewrite Hfw at 1. }
  destruct Hst1 as (Ha1 & Hi1 & Hhead).
  destruct (marker_line_shape P t st1 st3 Ha1 Hline)
    as (line & xs & file & zs & Hmv & Hf1 & Hf2 & Hf3 & Hne & Hf4 &
        a & b & Hc4 & Hfile).
  destruct (moved_aligned t _ _ _ Ha1 Hmv) as [Ha3 Hsp].
  destruct Hmv as [_ Hp]. simpl in *.
  exists (m_pos st1), line, xs, file, zs.
  assert (Hg3 : group t m 3 = Some (span t (m_pos st1) (stop m))).
  { unfold group. rewrite Hcaps, Hstop. simpl. rewrite Hc4.
    destruct Hhead as [[-> _] | (k & ws & _ & _ & _ & _ & -> & _)]; done. }
  assert (Hg4 : group t m 4 = Some file).
  { unfold group. rewrite Hcaps. simpl. rewrite Hc4.
    destruct Hhead as [[-> _] | (k & ws & _ & _ & _ & _ & -> & _)];
      simpl; by rewrite Hfile. }
  repeat split; try done; try lia.
  - rewrite Hstop. by rewrite <- Hsp.
  - destruct Hhead as [[Hc Hp1] | (k & ws & Hk & Hws & Hfws & Hsp1 & Hc & Hk2)].
    + left. unfold group. rewrite Hcaps. simpl. rewrite Hc4, Hc. done.
    + right. exists k, ws. repeat split; try done; try lia.
      * unfold group. rewrite Hcaps. simpl. rewrite Hc4, Hc. simpl.
        by rewrite Hk2.
      * unfold group. rewrite Hcaps. simpl. rewrite Hc4, Hc. simpl.
        by rewrite Hsp1.
Qed.

Lemma matchAll_loop_elem r n t :
  bounds_ok r ->
  forall fuel li ms m,
    matchAll_loop fuel r n t li = Some ms -> m ∈ ms ->
    exists j, j <= length t /\ attemptAt r n t j = Some m.
Proof.
  intros Hb. induction fuel as [| fuel IH]; intros li ms m H Hin; [done |].
  simpl in H. destruct (exec r n t li) as [m0 |] eqn:E.
  - destruct (matchAll_loop fuel r n t (next_index m0)) as [ms' |] eqn:E'; [| done].
    simpl in H. injection H as <-.
    apply elem_of_cons in Hin as [-> | Hin].
    + apply exec_spec in E as (j & Hj & Hat & _). exists j. split; [lia | done].
    + by eapply IH.
  - injection H as <-. by apply elem_of_nil in Hin.
Qed.

Lemma markers_elem P t m :
  m ∈ markers P t ->
  exists j, j <= length t /\ attemptAt (markerRegex P) 4 t j = Some m.
Proof.
  unfold markers, matchAll. intros Hin.
  destruct (matchAll_loop _ _ _ _ _) as [ms |] eqn:E; [| by apply elem_of_nil in Hin].
  eapply matchAll_loop_elem; [apply markerRegex_bounds | exact E | exact Hin].
Qed.

Lemma markers_total P t : matchAll (markerRegex P) 4 t = Some (markers P t).
Proof.
  unfold markers.
  destruct (matchAll_loop_total (markerRegex P) 4 t (markerRegex_bounds P)
              (2 + length t) 0) as [ms Hms]; [lia | lia |].
  unfold matchAll. by rewrite Hms.
Qed.

Lemma marker_bounds P t m :
  m ∈ markers P t -> index m <= stop m /\ stop m <= length t.
Proof.
  intros (j & Hj & Hat)%markers_elem.
  apply attemptAt_sound in Hat as (_ & _ & _ & <- & _ & _ & ?);
    [lia | apply markerRegex_bounds | done].
Qed.

Lemma contentStartOf_stop P t m : m ∈ markers P t -> contentStartOf t m = stop m.
Proof.
  intros [H1 H2]%marker_bounds. unfold contentStartOf, matched.
  rewrite span_length; lia.
Qed.

(** [findNextHeadingBoundary] never runs out of fuel. *)
Lemma headingLoop_total t maxLevel :
  forall fuel li, 1 <= fuel -> length t + 2 <= fuel + li ->
    is_Some (headingLoop fuel t li maxLevel).
Proof.
  induction fuel as [| fuel IH]; intros li H1 Hf; [lia |].
  simpl. destruct (exec headingRegex 1 t li) as [m |] eqn:E; [| by eexists].
  destruct (_ <=? _); [by eexists |].
  apply exec_spec in E as (j & Hj & Hat & _).
  apply heading_shape in Hat as (k & ws & Hi & Hs & Hle & Hk & Hws & _); [| lia].
  apply IH; lia.
Qed.

Lemma headingLoop_bounds t maxLevel :
  forall fuel li r,
    li <= length t -> headingLoop fuel t li maxLevel = Some r ->
    li <= r <= length t.
Proof.
  induction fuel as [| fuel IH]; intros li r Hli H; [done |].
  simpl in H. destruct (exec headingRegex 1 t li) as [m |] eqn:E.
  - pose proof (exec_bounds _ _ _ _ _ headingRegex_bounds E) as (H1 & H2 & H3).
    destruct (_ <=? _).
    + injection H as <-. lia.
    + apply IH in H; lia.
  - injection H as <-. lia.
Qed.

Lemma findNextHeadingBoundary_bounds t startPos maxLevel :
  startPos <= length t ->
  startPos <= findNextHeadingBoundary t startPos maxLevel <= length t.
Proof.
  intros H. unfold findNextHeadingBoundary.
  destruct (headingLoop_total t maxLevel (2 + length t) startPos) as [r Hr];
    [lia | lia |].
  rewrite Hr. simpl. by eapply headingLoop_bounds.
Qed.

Lemma contentEndOf_bounds P t m :
  m ∈ markers P t ->
  stop m <= contentEndOf t m /\ contentEndOf t m <= length t.
Proof.
  intros Hin. unfold contentEndOf. rewrite (contentStartOf_stop P t m Hin).
  apply findNextHeadingBoundary_bounds. by apply (marker_bounds P t m).
Qed.

(** ** Classification and kind-specific bodies *)

Ltac norm_str :=
  repeat match goal with
  | |- context [str ?s] =>
      let v := eval vm_compute in (str s) in change (str s) with v
  end.

Lemma startsWith_typeof_not_paren ts :
  startsWith (str "typeof ") ts = true -> startsWith (str "(") ts = false.
Proof.
  norm_str. destruct ts as [| c ts]; [done |]. cbn [startsWith].
  destruct (116 =? c)%N eqn:E; [| done].
  apply N.eqb_eq in E. subst c. done.
Qed.

Lemma startsWith_nonempty p c ts : startsWith (c :: p) ts = true -> ts <> [].
Proof. by destruct ts. Qed.

(** C6: a variable declaration is classified by call shape before
    const-ness: a callable type string gives the kind [function] even for a
    const binding; a const binding whose type string is neither callable nor
    a [typeof] reference has kind [constant] and a body of one value line
    showing the type string. *)
Theorem C6_call_shape_before_constness
    (env : Env) (checker : TypeChecker) (d : Node) (ts : text)
    (headingPrefix nm : text) (sf : SourceFile) (repoUrl : option text)
    (jsDocObject : option JSDoc) :
  kind d = VariableDeclaration ->
  (includes (str "=>") ts || startsWith (str "(") ts = true ->
   getTypeLabel d (Some ts) = str "function") /\
  (isConst d = true -> ts <> [] ->
   includes (str "=>") ts = false -> startsWith (str "(") ts = false ->
   startsWith (str "typeof ") ts = false ->
   getTypeLabel d (Some ts) = str "constant" /\
   generateTypeSpecificDoc env d (Some ts) checker headingPrefix nm sf repoUrl
     jsDocObject = Ok (str "**Value:** `" ++ ts ++ str "`" ++ nl2)).
Proof.
  intros Hk. split.
  - intros Hc. unfold getTypeLabel. rewrite Hk.
    destruct ts as [| c ts]; [done |]. by rewrite Hc.
  - intros Hconst Hne Harrow Hparen Htypeof.
    destruct ts as [| c ts]; [done |]. split.
    + unfold getTypeLabel. rewrite Hk, Harrow, Hparen, Htypeof, Hconst. done.
    + unfold generateTypeSpecificDoc, is_kind.
      rewrite Hk, Harrow, Hparen, Htypeof. simpl. done.
Qed.

Lemma C6_witness :
  (getTypeLabel arrowDecl (Some (str "(x: T) => U")) = str "function") /\
  (getTypeLabel answerDecl (Some (str "42")) = str "constant" /\
   generateTypeSpecificDoc (sampleEnv gitTracked) answerDecl (Some (str "42"))
     (constChecker "42") (str "####") (str "answer") trivialFile None None
   = Ok (str "**Value:** `42`" ++ nl2)).
Proof.
  split.
  - apply (C6_call_shape_before_constness (sampleEnv gitTracked)
             (constChecker "42") arrowDecl (str "(x: T) => U") [] [] trivialFile
             None None); reflexivity.
  - apply (C6_call_shape_before_constness (sampleEnv gitTracked)
             (constChecker "42") answerDecl (str "42") (str "####")
             (str "answer") trivialFile None None);
      [reflexivity | reflexivity | discriminate | reflexivity | reflexivity
      | reflexivity].
Defined.

(** ** Exceptions and results *)

Lemma bind_Ok_inv {A B} (r : result A) (f : A -> result B) (b : B) :
  (x ← r; f x) = Ok b -> exists a, r = Ok a /\ f a = Ok b.
Proof. destruct r as [a | e]; [| done]. intros H. by exists a. Qed.

Lemma Ok_inj {A} (a b : A) : Ok a = Ok b -> a = b.
Proof. by intros [= ->]. Qed.

Lemma bind_Ok {A B} (a : A) (f : A -> result B) : (Ok a ≫= f) = f a.
Proof. reflexivity. Qed.

Lemma bind_Throw {A B} (e : text) (f : A -> result B) : (Throw e ≫= f) = Throw e.
Proof. reflexivity. Qed.

Lemma concatResults_ext {A} (f g : A -> result text) (l : list A) :
  (forall x, f x = g x) -> concatResults f l = concatResults g l.
Proof. intros H. induction l as [| x l IH]; [done |]. simpl. by rewrite H, IH. Qed.

Lemma concatResults_ext_in {A} (f g : A -> result text) (l : list A) :
  (forall x, x ∈ l -> f x = g x) -> concatResults f l = concatResults g l.
Proof.
  induction l as [| x l IH]; intros H; [done |]. simpl.
  rewrite (H x) by (apply elem_of_cons; by left).
  rewrite IH; [done |]. intros y Hy. apply H, elem_of_cons. by right.
Qed.

Lemma concatResults_total_in {A} (f : A -> result text) (l : list A) :
  (forall x, x ∈ l -> exists d, f x = Ok d) -> exists d, concatResults f l = Ok d.
Proof.
  induction l as [| x l IH]; intros H; [by eexists |].
  simpl. destruct (H x) as [dx ->]; [apply elem_of_cons; by left |].
  destruct IH as [d ->]; [| by eexists].
  intros y Hy. apply H, elem_of_cons. by right.
Qed.

Lemma concatResults_total {A} (f : A -> result text) (l : list A) :
  (forall x, exists d, f x = Ok d) -> exists d, concatResults f l = Ok d.
Proof. intros H. apply concatResults_total_in. intros x _. apply H. Qed.

Lemma concatResults_Ok {A} (f : A -> result text) (l : list A) (doc : text) :
  concatResults f l = Ok doc ->
  exists docs, Forall2 (fun x d => f x = Ok d) l docs /\ doc = concat docs.
Proof.
  revert doc. induction l as [| x l IH]; intros doc H; simpl in H.
  - injection H as <-. by exists [].
  - apply bind_Ok_inv in H as (d & Hd & H).
    apply bind_Ok_inv in H as (rest & Hrest & H). injection H as <-.
    destruct (IH _ Hrest) as (docs & HF & ->).
    exists (d :: docs). split; [by constructor | done].
Qed.

Lemma concatResults_app {A} (f : A -> result text) (l1 l2 : list A) :
  concatResults f (l1 ++ l2) =
  (a ← concatResults f l1; b ← concatResults f l2; Ok (a ++ b)).
Proof.
  induction l1 as [| x l1 IH]; simpl.
  - by destruct (concatResults f l2).
  - destruct (f x) as [d |]; [| done]. simpl. rewrite IH.
    destruct (concatResults f l1) as [a |]; [| done]. simpl.
    destruct (concatResults f l2) as [b |]; [| done]. simpl.
    by rewrite app_assoc.
Qed.

(** An exception of one element is an exception of the whole. *)
Lemma concatResults_throws {A} (f : A -> result text) (l : list A) x e :
  x ∈ l -> f x = Throw e -> exists e', concatResults f l = Throw e'.
Proof.
  induction l as [| y l IH]; intros Hin Hx; [by apply elem_of_nil in Hin |].
  simpl. apply elem_of_cons in Hin as [<- | Hin].
  - rewrite Hx. by eexists.
  - destruct (f y) as [d |]; [| by eexists]. simpl.
    destruct (IH Hin Hx) as [e' ->]. by eexists.
Qed.

(** ** The fragment of a symbol *)

Lemma generateSymbolDoc_fragment env nm sy chk hp sf repoUrl d :
  declaration (resolveSymbol sy chk) = Some d ->
  generateSymbolDoc env nm sy chk hp sf repoUrl
  = (deepLink ← deepLinkFor env repoUrl d sf;
     body ← generateTypeSpecificDoc env d
              (getTypeInfo (originalSymbol (resolveSymbol sy chk)) d chk) chk hp
              nm sf repoUrl
              (docCommentOf (exportDeclaration (resolveSymbol sy chk)) d);
     Ok (symbolHeading hp nm
           (linked (getTypeLabel d
                      (getTypeInfo (originalSymbol (resolveSymbol sy chk)) d chk))
                   deepLink) ++
         commentPart (docCommentOf (exportDeclaration (resolveSymbol sy chk)) d) ++
         body)).
Proof.
  intros Hd. unfold generateSymbolDoc. rewrite Hd.
  destruct (deepLinkFor env repoUrl d sf) as [link | e]; [| done]. simpl.
  destruct (generateTypeSpecificDoc _ _ _ _ _ _ _ _ _) as [body | e]; [| done].
  simpl. unfold symbolHeading, commentPart.
  destruct (shown _); rewrite <- ?app_assoc; simpl; rewrite <- ?app_assoc; done.
Qed.

Lemma generateSymbolDoc_heading env nm sy chk hp sf repoUrl doc :
  generateSymbolDoc env nm sy chk hp sf repoUrl = Ok doc ->
  exists rest, doc = hp ++ str " " ++ nm ++ rest.
Proof.
  destruct (declaration (resolveSymbol sy chk)) as [d |] eqn:Hd.
  - rewrite (generateSymbolDoc_fragment _ _ _ _ _ _ _ _ Hd). intros H.
    apply bind_Ok_inv in H as (link & _ & H).
    apply bind_Ok_inv in H as (body & _ & H). injection H as <-.
    unfold symbolHeading. rewrite <- !app_assoc. by eexists.
  - unfold generateSymbolDoc. rewrite Hd. intros [= <-]. by eexists.
Qed.

(** ** The documentation comment *)




Lemma docCommentOf_None exportDecl d :
  docCommentOf exportDecl d = None ->
  extractJSDoc (Some d) = None /\ head (jsDoc d) = None.
Proof.
  unfold docCommentOf. destruct (extractJSDoc exportDecl); [done |].
  intros H. split; [done |]. unfold extractJSDoc in H. simpl in H.
  by destruct (head (jsDoc d)).
Qed.

(** ** Rendering without exceptions *)

Lemma linksAnswered_plain env sf : linksAnswered env None sf.
Proof. intros n. by eexists. Qed.

Lemma generateDeepLink_untracked env repoUrl f line :
  (exists out, execSync env (gitCommand f) = Ok out /\ trim out = []) ->
  generateDeepLink env repoUrl f line = Ok None.
Proof.
  intros (out & Hex & Htrim). unfold generateDeepLink.
  rewrite Hex. simpl. by rewrite Htrim.
Qed.

Lemma deepLinkFor_untracked env repoUrl n sf :
  untracked env sf -> deepLinkFor env repoUrl n sf = Ok None.
Proof.
  intros H. unfold deepLinkFor.
  destruct repoUrl as [[| c u] |]; [done | | done].
  destruct (pos n); [| done]. by apply generateDeepLink_untracked.
Qed.

Lemma linksAnswered_untracked env repoUrl sf :
  untracked env sf -> linksAnswered env repoUrl sf.
Proof. intros H n. rewrite deepLinkFor_untracked by done. by eexists. Qed.

Lemma linksAnswered_git env repoUrl sf :
  (forall cmd, exists out, execSync env cmd = Ok out) ->
  linksAnswered env repoUrl sf.
Proof.
  intros Hgit n. unfold deepLinkFor.
  destruct repoUrl as [[| c u] |]; try (by eexists).
  destruct (pos n); [| by eexists].
  unfold generateDeepLink. destruct (Hgit (gitCommand (fileName sf))) as [out ->].
  simpl. destruct (trim out); [by eexists |].
  destruct (isGitLab _); by eexists.
Qed.

Lemma collectTemplateDocs_strings tps tags :
  forallb hasStringComment tags = true ->
  forall k docs, exists m, collectTemplateDocs tps tags k docs = Ok m.
Proof.
  intros Hall. induction tps as [| p tps IH]; intros k docs; [by eexists |].
  simpl. destruct (tags !! k) as [t |] eqn:Ek; [| apply IH].
  rewrite forallb_forall in Hall.
  assert (Ht : hasStringComment t = true).
  { apply Hall, list_elem_of_In. by eapply list_elem_of_lookup_2. }
  unfold hasStringComment in Ht. unfold commentOrEmpty.
  destruct (tag_comment t) as [[s | parts] |]; [| done |]; simpl.
  - destruct s; apply IH.
  - apply IH.
Qed.

Lemma generateTypeParameters_strings tps j :
  templatesAreStrings j = true -> exists s, generateTypeParameters tps j = Ok s.
Proof.
  intros H. unfold generateTypeParameters, templatesAreStrings, templateTagsOf in *.
  destruct (tags_of j) as [ts |]; [| by eexists].
  destruct (collectTemplateDocs_strings tps _ H 0 ∅) as [m ->]. by eexists.
Qed.

Lemma generateFunctionDoc_strings d ts j :
  templatesAreStrings (resolvedJSDocOf d j) = true ->
  exists doc, generateFunctionDoc d ts j = Ok doc.
Proof.
  intros H. unfold generateFunctionDoc. fold (resolvedJSDocOf d j).
  destruct (match resolvedJSDocOf d j with Some _ => _ | None => _ end);
    [by eexists |].
  destruct (typeParameters d) as [| tp tps]; [by eexists |].
  destruct (generateTypeParameters_strings (tp :: tps) _ H) as [s ->].
  by eexists.
Qed.

Lemma generateClassMemberDoc_links env m chk st hp cn sf repoUrl :
  linksAnswered env repoUrl sf ->
  exists d, generateClassMemberDoc env m chk st hp cn sf repoUrl = Ok d.
Proof.
  intros H. unfold generateClassMemberDoc.
  destruct (H m) as [r ->]. simpl. by eexists.
Qed.

Lemma classPreamble_strings d :
  templatesAreStrings (extractJSDoc (Some d)) = true ->
  exists pre, classPreamble d = Ok pre.
Proof.
  intros H. unfold classPreamble.
  destruct (typeParameters d) as [| tp tps]; [by eexists |].
  destruct (generateTypeParameters_strings (tp :: tps) _ H) as [s ->].
  by eexists.
Qed.

(** The class fragment, read from its preamble and its member entries. *)
Lemma generateClassDoc_unfold env d ts chk hp cn sf repoUrl :
  kind d <> VariableDeclaration ->
  generateClassDoc env d ts chk hp cn sf repoUrl
  = (pre ← classPreamble d;
     entries ← concatResults
       (fun m => generateClassMemberDoc env m chk (has_modifier StaticKeyword m)
                   hp cn sf repoUrl) (renderedMembers d);
     Ok (pre ++ entries)).
Proof.
  intros Hk. unfold generateClassDoc, classPreamble, is_kind.
  rewrite bool_decide_eq_false_2 by done.
  set (g := fun m => generateClassMemberDoc env m chk
                       (has_modifier StaticKeyword m) hp cn sf repoUrl).
  rewrite (concatResults_ext_in
             (fun member => generateClassMemberDoc env member chk true hp cn sf repoUrl)
             g (staticMembersOf d)).
  2:{ intros m Hm. apply list_elem_of_filter in Hm as [Hs _].
      unfold g. by rewrite Hs. }
  rewrite (concatResults_ext_in
             (fun member => generateClassMemberDoc env member chk false hp cn sf repoUrl)
             g (instanceMembersOf d)).
  2:{ intros m Hm. apply list_elem_of_filter in Hm as [Hs _].
      unfold g. apply negb_true_iff in Hs. by rewrite Hs. }
  unfold renderedMembers. rewrite concatResults_app.
  destruct (match typeParameters d with [] => _ | _ => _ end) as [tp | e];
    [| done]. simpl.
  destruct (concatResults g (staticMembersOf d)) as [a |]; [| done]. simpl.
  destruct (concatResults g (instanceMembersOf d)) as [b |]; [| done]. simpl.
  by rewrite <- !app_assoc.
Qed.

Lemma generateClassDoc_strings env d ts chk hp cn sf repoUrl :
  linksAnswered env repoUrl sf ->
  templatesAreStrings (extractJSDoc (Some d)) = true ->
  exists doc, generateClassDoc env d ts chk hp cn sf repoUrl = Ok doc.
Proof.
  intros Hl Ht.
  destruct (decide (kind d = VariableDeclaration)) as [Hk | Hk].
  { unfold generateClassDoc, is_kind. rewrite bool_decide_eq_true_2 by done.
    by eexists. }
  rewrite generateClassDoc_unfold by done.
  destruct (classPreamble_strings d Ht) as [pre ->]. simpl.
  destruct (concatResults_total
              (fun m => generateClassMemberDoc env m chk
                          (has_modifier StaticKeyword m) hp cn sf repoUrl)
              (renderedMembers d)) as [s ->].
  { intros m. by apply generateClassMemberDoc_links. }
  by eexists.
Qed.

Lemma generateTypeSpecificDoc_strings env d ti chk hp nm sf repoUrl j :
  linksAnswered env repoUrl sf ->
  templatesAreStrings (extractJSDoc (Some d)) = true ->
  templatesAreStrings (resolvedJSDocOf d j) = true ->
  exists doc, generateTypeSpecificDoc env d ti chk hp nm sf repoUrl j = Ok doc.
Proof.
  intros Hl Hc Hf. unfold generateTypeSpecificDoc.
  destruct ti as [[| c s] |]; [by eexists | | by eexists].
  destruct (_ && _); [by apply generateFunctionDoc_strings |].
  destruct (_ && _); [by apply generateClassDoc_strings |].
  destruct (kind d); try (by eexists);
    (by apply generateFunctionDoc_strings) || (by apply generateClassDoc_strings).
Qed.

Lemma resolvedJSDocOf_docComment exportDecl d :
  templatesAreStrings (extractJSDoc exportDecl) = true ->
  templatesAreStrings (extractJSDoc (Some d)) = true ->
  templatesAreStrings (resolvedJSDocOf d (docCommentOf exportDecl d)) = true.
Proof.
  intros He Hd. unfold resolvedJSDocOf.
  destruct (docCommentOf exportDecl d) as [j |] eqn:E.
  - unfold docCommentOf in E.
    destruct (extractJSDoc exportDecl) as [j' |]; [by injection E as <- |].
    by rewrite <- E.
  - apply docCommentOf_None in E as [_ ->]. done.
Qed.

Lemma generateSymbolDoc_strings env nm sy chk hp sf repoUrl :
  linksAnswered env repoUrl sf ->
  exportTemplatesAreStrings chk (nm, sy) = true ->
  exists doc, generateSymbolDoc env nm sy chk hp sf repoUrl = Ok doc.
Proof.
  intros Hl Ht. unfold exportTemplatesAreStrings in Ht. simpl in Ht.
  destruct (declaration (resolveSymbol sy chk)) as [d |] eqn:Hd.
  2:{ unfold generateSymbolDoc. rewrite Hd. by eexists. }
  apply andb_prop in Ht as [He Hdd].
  rewrite (generateSymbolDoc_fragment _ _ _ _ _ _ _ _ Hd).
  destruct (Hl d) as [r ->]. simpl.
  destruct (generateTypeSpecificDoc_strings env d
              (getTypeInfo (originalSymbol (resolveSymbol sy chk)) d chk) chk hp
              nm sf repoUrl
              (docCommentOf (exportDeclaration (resolveSymbol sy chk)) d))
    as [body ->]; [done | done | by apply resolvedJSDocOf_docComment |].
  by eexists.
Qed.

(** ** A file that is not tracked *)

Lemma generateClassMemberDoc_untracked env m chk st hp cn sf repoUrl :
  untracked env sf ->
  generateClassMemberDoc env m chk st hp cn sf repoUrl
  = generateClassMemberDoc env m chk st hp cn sf None.
Proof.
  intros H. unfold generateClassMemberDoc.
  by rewrite deepLinkFor_untracked.
Qed.

Lemma generateClassDoc_untracked env d ts chk hp cn sf repoUrl :
  untracked env sf ->
  generateClassDoc env d ts chk hp cn sf repoUrl
  = generateClassDoc env d ts chk hp cn sf None.
Proof.
  intros H. unfold generateClassDoc. destruct (is_kind _ _); [done |].
  rewrite (concatResults_ext
             (fun member => generateClassMemberDoc env member chk true hp cn sf repoUrl)
             (fun member => generateClassMemberDoc env member chk true hp cn sf None));
    [| intros; by apply generateClassMemberDoc_untracked].
  rewrite (concatResults_ext
             (fun member => generateClassMemberDoc env member chk false hp cn sf repoUrl)
             (fun member => generateClassMemberDoc env member chk false hp cn sf None));
    [done | intros; by apply generateClassMemberDoc_untracked].
Qed.

Lemma generateTypeSpecificDoc_untracked env d ti chk hp nm sf repoUrl j :
  untracked env sf ->
  generateTypeSpecificDoc env d ti chk hp nm sf repoUrl j
  = generateTypeSpecificDoc env d ti chk hp nm sf None j.
Proof.
  intros H. unfold generateTypeSpecificDoc.
  destruct ti as [[| c s] |]; [done | | done].
  destruct (_ && _); [done |]. destruct (_ && _).
  { by apply generateClassDoc_untracked. }
  destruct (kind d); try done; by apply generateClassDoc_untracked.
Qed.

(** With a repository URL, a file that is not tracked is rendered as without
    the URL: the labels stay plain. *)
Lemma generateSymbolDoc_untracked env nm sy chk hp sf repoUrl :
  untracked env sf ->
  generateSymbolDoc env nm sy chk hp sf repoUrl
  = generateSymbolDoc env nm sy chk hp sf None.
Proof.
  intros H. unfold generateSymbolDoc.
  destruct (declaration _); [| done].
  rewrite deepLinkFor_untracked by done. simpl.
  by rewrite generateTypeSpecificDoc_untracked.
Qed.

(** ** Variables that refer to a class *)

Lemma getTypeInfo_Ok sy d chk ts :
  typeStringAt chk sy d = Ok ts -> getTypeInfo sy d chk = Some ts.
Proof. intros H. unfold getTypeInfo. by rewrite H. Qed.

(** C10, as amended: for an export whose resolved declaration is a variable
    declaration and whose type string starts with [typeof ] and contains no
    [=>], the kind is [class] and the body is the single line
    [**Type:** `<typeString>`]: the fragment is the heading, the comment and
    that line, without type parameters, constructor parameters or member
    fragments. *)
Theorem C10_typeof_variable_body
    (env : Env) (nm : text) (sy : Symbol) (chk : TypeChecker) (hp : text)
    (sf : SourceFile) (repoUrl : option text) (d : Node) (ts : text) :
  declaration (resolveSymbol sy chk) = Some d ->
  kind d = VariableDeclaration ->
  typeStringAt chk (originalSymbol (resolveSymbol sy chk)) d = Ok ts ->
  startsWith (str "typeof ") ts = true ->
  includes (str "=>") ts = false ->
  getTypeLabel d (Some ts) = str "class" /\
  (forall jsDocObject,
     generateTypeSpecificDoc env d (Some ts) chk hp nm sf repoUrl jsDocObject
     = Ok (str "**Type:** `" ++ ts ++ str "`" ++ nl2)) /\
  generateSymbolDoc env nm sy chk hp sf repoUrl
  = (deepLink ← deepLinkFor env repoUrl d sf;
     Ok (symbolHeading hp nm (linked (str "class") deepLink) ++
         commentPart (docCommentOf (exportDeclaration (resolveSymbol sy chk)) d) ++
         str "**Type:** `" ++ ts ++ str "`" ++ nl2)).
Proof.
  intros Hd Hk Hts Ht Ha.
  pose proof (startsWith_typeof_not_paren ts Ht) as Hp.
  pose proof (startsWith_nonempty _ _ _ Ht) as Hne.
  assert (Hlabel : getTypeLabel d (Some ts) = str "class").
  { destruct ts as [| c ts]; [done |].
    unfold getTypeLabel. rewrite Hk, Ha, Hp, Ht. done. }
  assert (Hbody : forall j,
             generateTypeSpecificDoc env d (Some ts) chk hp nm sf repoUrl j
             = Ok (str "**Type:** `" ++ ts ++ str "`" ++ nl2)).
  { intros j. destruct ts as [| c ts]; [done |].
    unfold generateTypeSpecificDoc, generateClassDoc, is_kind.
    rewrite Hk, Ha, Hp, Ht. simpl. done. }
  split; [done |]. split; [done |].
  rewrite (generateSymbolDoc_fragment _ _ _ _ _ _ _ _ Hd).
  rewrite (getTypeInfo_Ok _ _ _ _ Hts), Hlabel.
  destruct (deepLinkFor env repoUrl d sf) as [link | e]; [| done].
  rewrite !bind_Ok, Hbody. done.
Qed.

Lemma C10_witness :
  getTypeLabel staticSideDecl (Some (str "typeof Base")) = str "class" /\
  generateSymbolDoc (sampleEnv gitTracked) (str "v") bareSymbol
    (constChecker "typeof Base") (str "###") trivialFile None
  = Ok (symbolHeading (str "###") (str "v") (str "class") ++
        str "**Type:** `typeof Base`" ++ nl2).
Proof.
  destruct (C10_typeof_variable_body (sampleEnv gitTracked) (str "v") bareSymbol
              (constChecker "typeof Base") (str "###") trivialFile None
              staticSideDecl (str "typeof Base")) as (Hl & _ & Hs);
    try reflexivity.
  split; [exact Hl |]. rewrite Hs. vm_compute. reflexivity.
Defined.

(** A type string that starts with [typeof ] and is callable is rendered as a
    function, with a signature line; and a variable that asserts a class,
    [export const B = Box as typeof Box], is resolved to the class and
    rendered as the class in full: constructor parameters and members. *)
Lemma C10_counterexample :
  (kind staticSideDecl = VariableDeclaration /\
   startsWith (str "typeof ") (str "typeof Base & (() => void)") = true /\
   generateSymbolDoc (sampleEnv gitTracked) (str "v") bareSymbol
     (constChecker "typeof Base & (() => void)") (str "###") trivialFile None
   = Ok (symbolHeading (str "###") (str "v") (str "function") ++
         str "**Signature:** `typeof Base & (() => void)`" ++ nl2)) /\
  (firstDeclaration assertedSymbol = Some aliasDecl /\
   kind aliasDecl = VariableDeclaration /\
   typeInfoOf assertedSymbol classChecker = Some (str "typeof Box") /\
   generateSymbolDoc classEnv (str "B") assertedSymbol classChecker (str "###")
     classFile None = Ok aliasFragment /\
   aliasFragment <>
     symbolHeading (str "###") (str "B") (str "class") ++
     str "The box, under another name." ++ nl2 ++
     str "**Type:** `typeof Box`" ++ nl2).
Proof.
  split.
  - split; [reflexivity |]. split; vm_compute; reflexivity.
  - split; [reflexivity |]. split; [reflexivity |].
    split; [vm_compute; reflexivity |]. split; [vm_compute; reflexivity |].
    intros H. apply (f_equal length) in H. vm_compute in H. discriminate H.
Qed.

(** ** The search order of the documentation comment *)



(** ** Class fragments *)


(** The entry of a member starts with its heading line. *)
Lemma generateClassMemberDoc_line env m chk hp cn sf repoUrl doc :
  generateClassMemberDoc env m chk (has_modifier StaticKeyword m) hp cn sf
    repoUrl = Ok doc ->
  exists link rest,
    deepLinkFor env repoUrl m sf = Ok link /\
    doc = memberLine env hp cn m link ++ rest.
Proof.
  unfold generateClassMemberDoc. intros H.
  apply bind_Ok_inv in H as (link & Hlink & H). injection H as <-.
  exists link. unfold memberLine, memberTitle, memberNameOf.
  match goal with
  | |- context [try_catch ?r ?h] => destruct r as [a |] eqn:E; simpl
  end.
  2:{ destruct (shown _); eexists; (split; [done |]);
      rewrite <- ?app_assoc; simpl; rewrite <- ?app_assoc; reflexivity. }
  destruct (shown _);
  (apply bind_Ok_inv in E as ([sy |] & _ & E);
   [ apply bind_Ok_inv in E as (tstr & _ & E);
     destruct (is_kind MethodDeclaration m); injection E as <-
   | injection E as <- ]);
  eexists; (split; [done |]);
  rewrite <- ?app_assoc; simpl; rewrite <- ?app_assoc; reflexivity.
Qed.


(** A class fragment is its preamble followed by one entry per rendered
    member, each starting with the heading line of the member. *)
Lemma generateClassDoc_entries env d ts chk hp cn sf repoUrl doc :
  kind d <> VariableDeclaration ->
  generateClassDoc env d ts chk hp cn sf repoUrl = Ok doc ->
  exists pre entries,
    classPreamble d = Ok pre /\
    doc = pre ++ concat entries /\
    Forall2 (fun m e =>
               generateClassMemberDoc env m chk (has_modifier StaticKeyword m)
                 hp cn sf repoUrl = Ok e /\
               exists link rest, e = memberLine env hp cn m link ++ rest)
            (renderedMembers d) entries.
Proof.
  intros Hk H. rewrite generateClassDoc_unfold in H by done.
  apply bind_Ok_inv in H as (pre & Hpre & H).
  apply bind_Ok_inv in H as (all & Hall & H). injection H as <-.
  apply concatResults_Ok in Hall as (entries & HF & ->).
  exists pre, entries. split; [done |]. split; [done |].
  eapply Forall2_impl; [| exact HF].
  intros m e He. split; [done |].
  apply generateClassMemberDoc_line in He as (link & rest & _ & ->).
  by eexists _, _.
Qed.

(** C8, as amended: the members a class or interface fragment has an entry
    for are exactly the members whose name, as written, does not begin with
    an underscore and that are not a constructor declaration, each entry
    under the heading of its member; the constructor of a class only shows
    as the [Constructor Parameters] block, made from the [@param] tags of
    the constructor's own comment; the construct signature of an interface
    is a member like any other, with an entry named [new] of kind
    [constructor]. *)
Theorem C8_member_filtering
    (env : Env) (d : Node) (ts : text) (checker : TypeChecker)
    (headingPrefix className : text) (sf : SourceFile)
    (repoUrl : option text) (doc : text) :
  kind d <> VariableDeclaration ->
  generateClassDoc env d ts checker headingPrefix className sf repoUrl = Ok doc ->
  (exists pre entries,
     classPreamble d = Ok pre /\
     doc = pre ++ concat entries /\
     Forall2 (fun m e =>
                generateClassMemberDoc env m checker
                  (has_modifier StaticKeyword m) headingPrefix className sf
                  repoUrl = Ok e /\
                exists link rest,
                  e = memberLine env headingPrefix className m link ++ rest)
             (renderedMembers d) entries) /\
  (forall m, m ∈ renderedMembers d <->
             m ∈ members d /\ nameStartsWithUnderscore m = false
             /\ kind m <> Constructor) /\
  (forall m, m ∈ members d -> kind m = ConstructSignature -> name m = None ->
             m ∈ renderedMembers d /\ memberNameOf m = str "new" /\
             exists prefix,
               getMemberType m (has_modifier StaticKeyword m)
               = prefix ++ str "constructor") /\
  (forall c rest,
     filter (fun m => is_kind Constructor m = true) (members d) = c :: rest ->
     constructorParameters d =
     match tags_of (extractJSDoc (Some c)) with
     | Some tgs =>
         match filter (fun t => tag_is "param" t = true) tgs with
         | [] => []
         | paramTags =>
             str "**Constructor Parameters:**" ++ nl2 ++
             concat ((fun t => str "- `" ++ tagNameText t ++ str "`: " ++
                               commentToString (commentOrEmpty (tag_comment t)) ++
                               nl) <$> paramTags)
             ++ nl
         end
     | None => []
     end) /\
  (filter (fun m => is_kind Constructor m = true) (members d) = [] ->
   constructorParameters d = []).
Proof.
  intros Hk H.
  assert (Hin : forall m, m ∈ renderedMembers d <->
                  m ∈ members d /\ nameStartsWithUnderscore m = false
                  /\ kind m <> Constructor).
  { intros m. unfold renderedMembers, staticMembersOf, instanceMembersOf,
      publicMembersOf.
    rewrite elem_of_app, !list_elem_of_filter.
    unfold is_kind.
    destruct (has_modifier StaticKeyword m);
      destruct (nameStartsWithUnderscore m);
      destruct (bool_decide (kind m = Constructor)) eqn:Hc;
      try apply bool_decide_eq_true_1 in Hc;
      try apply bool_decide_eq_false_1 in Hc;
      simpl; intuition congruence. }
  split; [by eapply generateClassDoc_entries |]. split; [exact Hin |].
  split; [| split].
  - intros m Hm Hkm Hname. split; [| split].
    + apply Hin. split; [done |]. split.
      * unfold nameStartsWithUnderscore. by rewrite Hname.
      * by rewrite Hkm.
    + unfold memberNameOf, is_kind. rewrite Hname, Hkm. done.
    + unfold getMemberType. rewrite Hkm. by eexists.
  - intros c rest Hf. unfold constructorParameters. by rewrite Hf.
  - intros Hf. unfold constructorParameters. by rewrite Hf.
Qed.

Lemma C8_witness :
  ~ hiddenMember ∈ renderedMembers boxClass /\
  ~ ctorMember ∈ renderedMembers boxClass /\
  sizeMember ∈ renderedMembers boxClass /\
  constructorParameters boxClass
  = str "**Constructor Parameters:**" ++ nl2 ++ str "- `size`: The size" ++ nl2.
Proof.
  destruct (C8_member_filtering (sampleEnv gitTracked) boxClass
              (str "typeof Box") (constChecker "number") (str "###") (str "Box")
              trivialFile None boxDoc) as (_ & Hin & _ & Hctor & _).
  - discriminate.
  - vm_compute. reflexivity.
  - split; [| split; [| split]].
    + intros H. apply Hin in H as (_ & H & _). discriminate H.
    + intros H. apply Hin in H as (_ & _ & H). by apply H.
    + apply Hin. split; [| split; [reflexivity | discriminate]].
      unfold boxClass. simpl. apply elem_of_cons. right.
      apply elem_of_cons. right. apply elem_of_cons. by left.
    + rewrite (Hctor ctorMember []) by reflexivity. vm_compute. reflexivity.
Defined.

(** The construct signature of an interface has a member entry, named [new]
    and of kind [constructor]. *)
Lemma C8_counterexample :
  kind shapeInterface = InterfaceDeclaration /\
  members shapeInterface = [newSignature; areaMember] /\
  kind newSignature = ConstructSignature /\
  generateClassDoc classEnv shapeInterface (str "Shape") classChecker (str "###")
    (str "Shape") classFile None = Ok shapeDoc /\
  exists rest,
    shapeDoc = str "#### shape.new " ++ [c_middot] ++ str " constructor" ++ nl2
               ++ rest.
Proof.
  split; [reflexivity |]. split; [reflexivity |]. split; [reflexivity |].
  split; [vm_compute; reflexivity |].
  eexists. vm_compute. reflexivity.
Qed.

(** A member whose name is written in quotes is rendered, underscore or
    not: the text of its name starts with the quote. *)
Remark quoted_underscore_member_is_rendered :
  nameStartsWithUnderscore quotedMember = false /\
  generateClassDoc classEnv jarClass (str "typeof Jar") classChecker (str "###")
    (str "Jar") classFile None = Ok jarDoc.
Proof. split; vm_compute; reflexivity. Qed.

(** ** Generated text ends its line *)

Lemma endsLine_app (a b : text) :
  endsLine a = true -> endsLine b = true -> endsLine (a ++ b) = true.
Proof.
  unfold endsLine. intros Ha Hb. rewrite last_app.
  by destruct (list.last b).
Qed.

Lemma endsLine_snoc (a : text) : endsLine (a ++ nl) = true.
Proof. unfold endsLine, nl. by rewrite last_snoc. Qed.

Lemma endsLine_snoc2 (a : text) : endsLine (a ++ nl2) = true.
Proof.
  change nl2 with ([c_nl] ++ nl). rewrite app_assoc. apply endsLine_snoc.
Qed.

Lemma endsLine_concat (l : list text) :
  Forall (fun x => endsLine x = true) l -> endsLine (concat l) = true.
Proof.
  induction 1 as [| x l Hx _ IH]; [done |]. simpl. by apply endsLine_app.
Qed.

Lemma endsLine_concat_fmap {A} (f : A -> text) (l : list A) :
  (forall x, endsLine (f x) = true) -> endsLine (concat (f <$> l)) = true.
Proof.
  intros H. apply endsLine_concat, Forall_fmap, list.Forall_forall.
  intros x _. apply H.
Qed.

(** A text that is put together from pieces and ends in a line break. *)
Ltac ends_line :=
  solve [ reflexivity
        | rewrite ?app_assoc; apply endsLine_snoc
        | rewrite ?app_assoc; apply endsLine_snoc2 ].

Lemma generateJSDocTags_endsLine j : endsLine (generateJSDocTags j) = true.
Proof.
  unfold generateJSDocTags. destruct (tags_of j) as [ts |]; [| done].
  apply endsLine_app; [| apply endsLine_app].
  - destruct (shown _); ends_line.
  - destruct (filter _ ts); ends_line.
  - destruct (filter (fun t => tag_is "example" t = true) ts) as [| t l]; [done |].
    rewrite app_assoc. apply endsLine_app; [ends_line |].
    apply endsLine_concat_fmap. intros x. ends_line.
Qed.

Lemma exampleBlock_endsLine j : endsLine (exampleBlock j) = true.
Proof.
  unfold exampleBlock. destruct (tags_of j) as [ts |]; [| done].
  destruct (filter _ ts) as [| t l]; [done |].
  rewrite app_assoc. apply endsLine_app; [ends_line |].
  apply endsLine_concat_fmap. intros x. ends_line.
Qed.

Lemma generateParameters_endsLine d : endsLine (generateParameters d) = true.
Proof. unfold generateParameters. ends_line. Qed.

Lemma generateTypeParameters_endsLine tps j s :
  generateTypeParameters tps j = Ok s -> endsLine s = true.
Proof.
  unfold generateTypeParameters. intros H.
  apply bind_Ok_inv in H as (m & _ & H). apply Ok_inj in H as <-. ends_line.
Qed.

Lemma constructorParameters_endsLine d : endsLine (constructorParameters d) = true.
Proof.
  unfold constructorParameters. destruct (tags_of _) as [ts |]; [| done].
  destruct (filter _ ts); ends_line.
Qed.

Lemma generateFunctionDoc_endsLine d ts j s :
  generateFunctionDoc d ts j = Ok s -> endsLine s = true.
Proof.
  unfold generateFunctionDoc. intros H.
  destruct (match match j with Some _ => _ | None => _ end with
            | Some _ => _ | None => _ end) as [j' |].
  - apply Ok_inj in H as <-.
    apply endsLine_app; [ends_line |].
    unfold generateJSDocBasedFunctionDoc.
    apply endsLine_app; [| apply generateJSDocTags_endsLine].
    destruct (filter _ _); ends_line.
  - apply bind_Ok_inv in H as (tp & Htp & H). apply Ok_inj in H as <-.
    apply endsLine_app; [ends_line |].
    apply endsLine_app; [| apply endsLine_app].
    + destruct (typeParameters d); [by apply Ok_inj in Htp as <- |].
      by eapply generateTypeParameters_endsLine.
    + destruct (parameters d); [done | apply generateParameters_endsLine].
    + apply generateJSDocTags_endsLine.
Qed.

Lemma generateClassMemberDoc_endsLine env m chk st hp cn sf repoUrl s :
  generateClassMemberDoc env m chk st hp cn sf repoUrl = Ok s ->
  endsLine s = true.
Proof.
  unfold generateClassMemberDoc. intros H.
  apply bind_Ok_inv in H as (link & _ & H). apply Ok_inj in H as <-.
  match goal with
  | |- context [try_catch ?r ?h] => destruct r as [a |] eqn:E; simpl
  end.
  2:{ destruct (shown _); ends_line. }
  destruct (shown _);
  (apply bind_Ok_inv in E as ([sy |] & _ & E);
   [ apply bind_Ok_inv in E as (tstr & _ & E);
     destruct (is_kind MethodDeclaration m); apply Ok_inj in E as <-
   | apply Ok_inj in E as <-; ends_line ]).
  all: rewrite ?app_assoc;
    repeat (apply endsLine_app;
            [| first [apply generateJSDocTags_endsLine
                     | apply generateParameters_endsLine
                     | apply exampleBlock_endsLine]]);
    rewrite <- ?app_assoc; ends_line.
Qed.

Lemma classPreamble_endsLine d pre :
  classPreamble d = Ok pre -> endsLine pre = true.
Proof.
  unfold classPreamble. intros H.
  apply bind_Ok_inv in H as (tp & Htp & H). apply Ok_inj in H as <-.
  apply endsLine_app; [| apply endsLine_app].
  - destruct (typeParameters d); [by apply Ok_inj in Htp as <- |].
    by eapply generateTypeParameters_endsLine.
  - apply generateJSDocTags_endsLine.
  - apply constructorParameters_endsLine.
Qed.

Lemma generateClassDoc_endsLine env d ts chk hp cn sf repoUrl s :
  generateClassDoc env d ts chk hp cn sf repoUrl = Ok s -> endsLine s = true.
Proof.
  destruct (decide (kind d = VariableDeclaration)) as [Hk | Hk].
  { unfold generateClassDoc, is_kind. rewrite bool_decide_eq_true_2 by done.
    intros <-%Ok_inj. ends_line. }
  intros H. apply generateClassDoc_entries in H
    as (pre & entries & Hpre & -> & HF); [| done].
  apply endsLine_app; [by eapply classPreamble_endsLine |].
  apply endsLine_concat. clear -HF.
  induction HF as [| m e l es [He _] _ IH]; constructor; [| done].
  by eapply generateClassMemberDoc_endsLine.
Qed.

Lemma generateTypeSpecificDoc_endsLine env d ti chk hp nm sf repoUrl j s :
  generateTypeSpecificDoc env d ti chk hp nm sf repoUrl j = Ok s ->
  endsLine s = true.
Proof.
  unfold generateTypeSpecificDoc. intros H.
  destruct ti as [[| c t] |]; [apply Ok_inj in H as <-; ends_line | |
                               apply Ok_inj in H as <-; ends_line].
  destruct (_ && _); [by eapply generateFunctionDoc_endsLine |].
  destruct (_ && _); [by eapply generateClassDoc_endsLine |].
  destruct (kind d);
    first [ by eapply generateFunctionDoc_endsLine
          | by eapply generateClassDoc_endsLine
          | apply Ok_inj in H as <-; ends_line ].
Qed.

Lemma generateSymbolDoc_endsLine env nm sy chk hp sf repoUrl s :
  generateSymbolDoc env nm sy chk hp sf repoUrl = Ok s -> endsLine s = true.
Proof.
  destruct (declaration (resolveSymbol sy chk)) as [d |] eqn:Hd.
  - rewrite (generateSymbolDoc_fragment _ _ _ _ _ _ _ _ Hd). intros H.
    apply bind_Ok_inv in H as (link & _ & H).
    apply bind_Ok_inv in H as (body & Hbody & H). apply Ok_inj in H as <-.
    apply endsLine_app; [unfold symbolHeading; ends_line |].
    apply endsLine_app; [unfold commentPart; destruct (shown _); ends_line |].
    by eapply generateTypeSpecificDoc_endsLine.
  - unfold generateSymbolDoc. rewrite Hd. intros <-%Ok_inj. ends_line.
Qed.

(** What is generated for a file is empty or ends in a line break. *)
Lemma generateMarkdownDoc_endsLine env f hp repoUrl s :
  generateMarkdownDoc env f hp repoUrl = Ok s -> endsLine s = true.
Proof.
  unfold generateMarkdownDoc. intros H.
  destruct (findSourceFile env f) as [sf |]; [| done].
  destruct (exports sf) as [exps |]; [| done].
  apply concatResults_Ok in H as (docs & HF & ->).
  apply endsLine_concat. clear -HF.
  induction HF as [| [nm sy] e l es He _ IH]; constructor; [| done].
  by eapply generateSymbolDoc_endsLine.
Qed.

(** X26: what is generated for a file is empty or ends in a line
    terminator, whatever the names, comments and type strings are: every
    fragment, and every section of a fragment, ends its line. *)
Theorem generated_text_ends_its_line
    (env : Env) (filePath headingPrefix : text) (repoUrl : option text)
    (content : text) :
  generateMarkdownDoc env filePath headingPrefix repoUrl = Ok content ->
  match list.last content with
  | Some c => isLineTerminator c = true
  | None => content = []
  end.
Proof.
  intros H. apply generateMarkdownDoc_endsLine in H. unfold endsLine in H.
  destruct (list.last content) as [c |] eqn:E; [done |].
  by apply last_None in E.
Qed.

Lemma generated_text_ends_its_line_witness :
  list.last (answerFragment "###") = Some c_nl /\
  isLineTerminator c_nl = true.
Proof.
  pose proof (generated_text_ends_its_line (sampleEnv gitTracked)
                (str "test/trivial.ts") (str "###") None (answerFragment "###"))
    as H.
  assert (Hl : list.last (answerFragment "###") = Some c_nl)
    by (vm_compute; reflexivity).
  rewrite Hl in H. split; [exact Hl |]. apply H. vm_compute. reflexivity.
Defined.

(** ** The pass over the document *)

Lemma spliceLoop_throws env repoUrl readme ms :
  forall updated logged m e,
    m ∈ ms ->
    generateMarkdownDoc env (sourceFileOf readme m) (headingPrefixOf readme m)
      repoUrl = Throw e ->
    exists e', fst (spliceLoop env repoUrl readme ms updated logged) = Throw e'.
Proof.
  induction ms as [| m0 ms IH]; intros updated logged m e Hin He.
  - by apply elem_of_nil in Hin.
  - simpl. destruct (generateMarkdownDoc env (sourceFileOf readme m0) _ repoUrl)
      as [content | e0] eqn:E0.
    + apply elem_of_cons in Hin as [-> | Hin]; [congruence |].
      by eapply IH.
    + by exists e0.
Qed.

Lemma generateMarkdownDoc_no_exports env f hp repoUrl :
  (forall sf, findSourceFile env f = Some sf -> exports sf = None) ->
  generateMarkdownDoc env f hp repoUrl = Throw (str "No exports found in " ++ f).
Proof.
  intros H. unfold generateMarkdownDoc.
  destruct (findSourceFile env f) as [sf |]; [| done].
  by rewrite (H sf eq_refl).
Qed.

(** C2: when the generation for any marker's source file throws, as it does
    when the file has no exports, the pass ends with that exception and the
    file system is as it was: nothing has been written. *)
Theorem C2_failure_aborts_before_write
    (env : Env) (path phrase : text) (repoUrl : option text) (w : World)
    (readme : text) (m : jsmatch) :
  files w !! path = Some readme ->
  m ∈ markers phrase readme ->
  (forall sf, findSourceFile env (sourceFileOf readme m) = Some sf ->
              exports sf = None) \/
  (exists e, generateMarkdownDoc env (sourceFileOf readme m)
               (headingPrefixOf readme m) repoUrl = Throw e) ->
  exists e' w',
    updateReadme env path phrase repoUrl w = Thrown e' w' /\
    files w' = files w /\ stderr w' = stderr w.
Proof.
  intros Hfile Hin Hfail.
  assert (exists e, generateMarkdownDoc env (sourceFileOf readme m)
                      (headingPrefixOf readme m) repoUrl = Throw e) as [e He].
  { destruct Hfail as [Hno | He]; [| done].
    eexists. by apply generateMarkdownDoc_no_exports. }
  unfold updateReadme. rewrite Hfile.
  apply elem_of_reverse in Hin.
  destruct (reverse (markers phrase readme)) as [| m0 ms] eqn:Hms.
  { by apply elem_of_nil in Hin. }
  destruct (spliceLoop_throws env repoUrl readme (m0 :: ms) readme (stdout w)
              m e Hin He) as [e' He'].
  destruct (spliceLoop env repoUrl readme (m0 :: ms) readme (stdout w))
    as [[u | e''] logged]; simpl in He'; [done |].
  by eexists _, _.
Qed.

Lemma startsWith_app p b : startsWith p (p ++ b) = true.
Proof. induction p as [| c p IH]; [done |]. simpl. by rewrite N.eqb_refl, IH. Qed.

Lemma includes_startsWith p t : startsWith p t = true -> includes p t = true.
Proof. intros H. destruct t; simpl; by rewrite H. Qed.

Lemma includes_app p a b : includes p (a ++ p ++ b) = true.
Proof.
  induction a as [| c a IH]; simpl.
  - apply includes_startsWith, startsWith_app.
  - rewrite IH. apply orb_true_r.
Qed.

Lemma span_decompose t a b :
  a <= b -> b <= length t -> t = take a t ++ span t a b ++ drop b t.
Proof.
  intros Hab Hb. rewrite <- span_0, <- (span_to_end t b).
  rewrite (span_app t a b (length t)) by lia.
  rewrite (span_app t 0 a (length t)) by lia.
  by rewrite span_to_end.
Qed.

(** Every marker contains the search phrase. *)
Lemma no_phrase_no_markers phrase readme :
  includes phrase readme = false -> markers phrase readme = [].
Proof.
  intros Hno. destruct (markers phrase readme) as [| m ms] eqn:E; [done |].
  assert (Hin : m ∈ markers phrase readme) by (rewrite E; apply elem_of_cons; by left).
  destruct (markers_elem _ _ _ Hin) as (j & Hj & Hat).
  destruct (marker_shape _ _ _ _ Hj Hat)
    as (i3 & line & xs & file & zs & _ & _ & H3 & Hs & Hsp & _).
  rewrite (span_decompose readme i3 (stop m)) in Hno by lia.
  rewrite Hsp in Hno.
  replace (take i3 readme ++
           (line ++ [c_nl] ++ phrase ++ xs ++ file ++ zs ++ [c_nl]) ++
           drop (stop m) readme)
    with ((take i3 readme ++ line ++ [c_nl]) ++ phrase ++
          (xs ++ file ++ zs ++ [c_nl] ++ drop (stop m) readme)) in Hno
    by (by rewrite <- !app_assoc).
  by rewrite includes_app in Hno.
Qed.

(** C4: a document without a marker ends the pass with exit status 1 and one
    line on standard error that names the phrase and the file; nothing is
    written. *)
Theorem C4_zero_markers_exit
    (env : Env) (path phrase : text) (repoUrl : option text) (w : World)
    (readme : text) :
  files w !! path = Some readme ->
  markers phrase readme = [] \/ includes phrase readme = false ->
  updateReadme env path phrase repoUrl w =
  Exited 1 {| files := files w;
              stdout := stdout w;
              stderr := stderr w ++ [noMarkersMessage phrase path] |}.
Proof.
  intros Hfile Hnone.
  assert (Hm : markers phrase readme = []).
  { destruct Hnone; [done | by apply no_phrase_no_markers]. }
  unfold updateReadme. by rewrite Hfile, Hm.
Qed.

Lemma C2_witness :
  exists e' w',
    updateReadme (sampleEnv gitTracked) readmePath defaultPhrase None
      (worldWith missingReadme) = Thrown e' w' /\
    files w' = files (worldWith missingReadme) /\
    stderr w' = stderr (worldWith missingReadme).
Proof.
  apply (C2_failure_aborts_before_write (sampleEnv gitTracked) readmePath
           defaultPhrase None (worldWith missingReadme) missingReadme
           missingMarker).
  - apply lookup_singleton_eq.
  - vm_compute. apply elem_of_cons. by left.
  - left. intros sf H. vm_compute in H. discriminate H.
Defined.

Lemma C4_witness :
  updateReadme (sampleEnv gitTracked) readmePath defaultPhrase None
    (worldWith plainReadme) =
  Exited 1 {| files := files (worldWith plainReadme);
              stdout := [];
              stderr := [noMarkersMessage defaultPhrase readmePath] |}.
Proof.
  apply (C4_zero_markers_exit (sampleEnv gitTracked) readmePath defaultPhrase
           None (worldWith plainReadme) plainReadme).
  - apply lookup_singleton_eq.
  - right. vm_compute. reflexivity.
Defined.

(** ** A lookup that fails *)

Lemma generateSymbolDoc_lookup_fails env nm sy chk hp sf repoUrl d e :
  repoUrl <> [] ->
  declaration (resolveSymbol sy chk) = Some d -> pos d <> None ->
  execSync env (gitCommand (fileName sf)) = Throw e ->
  generateSymbolDoc env nm sy chk hp sf (Some repoUrl) = Throw e.
Proof.
  intros Hrepo Hd Hpos Hex. unfold generateSymbolDoc. rewrite Hd.
  unfold deepLinkFor, generateDeepLink.
  destruct repoUrl as [| c u]; [done |].
  destruct (pos d); [| done]. by rewrite Hex.
Qed.

(** C5 where the lookup command fails: with a repository URL configured, the
    exception of [git ls-files] is not caught.  It ends the fragment of
    every symbol that has a position; a marker whose file exports such a
    symbol ends the pass with an exception and nothing written, and when
    the symbol is the first export of the last marker, the one the pass
    starts with, the pass ends with the exception of the command itself,
    after the one line logged for that marker. *)
Theorem C5_failing_lookup_ends_the_pass (env : Env) (repoUrl : text) :
  repoUrl <> [] ->
  (forall nm sy chk hp sf d e,
     declaration (resolveSymbol sy chk) = Some d -> pos d <> None ->
     execSync env (gitCommand (fileName sf)) = Throw e ->
     generateSymbolDoc env nm sy chk hp sf (Some repoUrl) = Throw e) /\
  (forall path P w readme m sf exps nm sy d e,
     files w !! path = Some readme ->
     m ∈ markers P readme ->
     findSourceFile env (sourceFileOf readme m) = Some sf ->
     exports sf = Some exps -> (nm, sy) ∈ exps ->
     declaration (resolveSymbol sy (checkerOf env (sourceFileOf readme m)))
       = Some d ->
     pos d <> None ->
     execSync env (gitCommand (fileName sf)) = Throw e ->
     exists e' w',
       updateReadme env path P (Some repoUrl) w = Thrown e' w' /\
       files w' = files w /\ stderr w' = stderr w) /\
  (forall path P w readme m sf rest nm sy d e,
     files w !! path = Some readme ->
     list.last (markers P readme) = Some m ->
     findSourceFile env (sourceFileOf readme m) = Some sf ->
     exports sf = Some ((nm, sy) :: rest) ->
     declaration (resolveSymbol sy (checkerOf env (sourceFileOf readme m)))
       = Some d ->
     pos d <> None ->
     execSync env (gitCommand (fileName sf)) = Throw e ->
     updateReadme env path P (Some repoUrl) w
     = Thrown e {| files := files w;
                   stdout := stdout w ++ [generatingLine readme m];
                   stderr := stderr w |}).
Proof.
  intros Hrepo. split; [| split].
  - intros nm sy chk hp sf d e Hd Hpos Hex.
    by eapply generateSymbolDoc_lookup_fails.
  - intros path P w readme m sf exps nm sy d e Hfile Hin Hsf Hexps Hsym Hd Hpos
      Hex.
    assert (exists e', generateMarkdownDoc env (sourceFileOf readme m)
                         (headingPrefixOf readme m) (Some repoUrl) = Throw e')
      as [e' He'].
    { unfold generateMarkdownDoc. rewrite Hsf, Hexps.
      eapply (concatResults_throws _ exps (nm, sy)); [done |].
      simpl. by eapply generateSymbolDoc_lookup_fails. }
    unfold updateReadme. rewrite Hfile.
    apply elem_of_reverse in Hin.
    destruct (reverse (markers P readme)) as [| m0 ms] eqn:Hms.
    { by apply elem_of_nil in Hin. }
    destruct (spliceLoop_throws env (Some repoUrl) readme (m0 :: ms) readme
                (stdout w) m e' Hin He') as [e'' He''].
    destruct (spliceLoop env (Some repoUrl) readme (m0 :: ms) readme (stdout w))
      as [[u | e3] logged]; simpl in He''; [done |].
    by eexists _, _.
  - intros path P w readme m sf rest nm sy d e Hfile Hlast Hsf Hexps Hd Hpos Hex.
    apply last_Some in Hlast as [ms Hms].
    unfold updateReadme. rewrite Hfile, Hms, reverse_snoc.
    cbn [spliceLoop]. unfold generateMarkdownDoc. rewrite Hsf, Hexps.
    cbn [concatResults].
    rewrite (generateSymbolDoc_lookup_fails _ _ _ _ _ _ _ _ _ Hrepo Hd Hpos Hex).
    done.
Qed.

Lemma C5_witness :
  updateReadme (sampleEnv gitFails) readmePath defaultPhrase (Some exampleRepo)
    (worldWith trivialReadme)
  = Thrown (str "Command failed: git ls-files")
      {| files := files (worldWith trivialReadme);
         stdout := [generatingLine trivialReadme trivialMarker];
         stderr := [] |}.
Proof.
  assert (Hrepo : exampleRepo <> []) by discriminate.
  destruct (C5_failing_lookup_ends_the_pass (sampleEnv gitFails) exampleRepo
              Hrepo) as (_ & _ & H).
  apply (H readmePath defaultPhrase (worldWith trivialReadme) trivialReadme
           trivialMarker trivialFile [] (str "answer") answerSymbol answerDecl).
  - apply lookup_singleton_eq.
  - vm_compute. reflexivity.
  - vm_compute. reflexivity.
  - reflexivity.
  - reflexivity.
  - discriminate.
  - reflexivity.
Defined.

(** Where the file is not tracked the label degrades, as the specification
    has it: the fragment is the one rendered without a URL.  Where the
    command fails the fragment is not rendered. *)
Remark untracked_file_and_failing_lookup :
  generateSymbolDoc (sampleEnv gitUntracked) (str "answer") answerSymbol
    (constChecker "42") (str "####") trivialFile (Some exampleRepo)
  = Ok (answerFragment "####") /\
  generateSymbolDoc (sampleEnv gitFails) (str "answer") answerSymbol
    (constChecker "42") (str "####") trivialFile (Some exampleRepo)
  = Throw (str "Command failed: git ls-files") /\
  generatingLine trivialReadme trivialMarker
  = str "Generating docs for test/trivial.ts with heading level 4...".
Proof. repeat split; vm_compute; reflexivity. Qed.

(** ** Splicing regions that do not overlap *)

Lemma take_span t a b : a <= b -> take a t ++ span t a b = take b t.
Proof.
  intros H. unfold span. replace b with (a + (b - a)) at 2 by lia.
  by rewrite <- take_take_drop.
Qed.

Lemma span_drop t a b : a <= b -> b <= length t -> span t a b ++ drop b t = drop a t.
Proof.
  intros Hab Hb. rewrite <- (span_to_end t b), span_app by lia.
  apply span_to_end.
Qed.

Section splice.

Variables (env : Env) (repoUrl : option text) (t : text).

Lemma spliceLoop_app l1 :
  forall l2 u logged,
    spliceLoop env repoUrl t (l1 ++ l2) u logged =
    match spliceLoop env repoUrl t l1 u logged with
    | (Ok u', logged') => spliceLoop env repoUrl t l2 u' logged'
    | (Throw e, logged') => (Throw e, logged')
    end.
Proof.
  induction l1 as [| m l1 IH]; intros l2 u logged; [done |].
  simpl. destruct (generateMarkdownDoc env _ _ repoUrl); [apply IH | done].
Qed.

(** When no region reaches into the next match, the loop, which runs from the
    last match to the first, leaves the text before the matches alone and
    puts every replacement in its place. *)
Lemma spliceLoop_separated :
  forall ms from logged,
    (forall m, m ∈ ms -> index m <= contentEndOf t m <= length t) ->
    (forall m, m ∈ ms -> exists c, generatedFor env repoUrl t m = Ok c) ->
    separated t from ms = true ->
    fst (spliceLoop env repoUrl t (reverse ms) t logged)
    = Ok (take from t ++ assemble t from (partsOf env repoUrl t ms)).
Proof.
  induction ms as [| m ms IH]; intros from logged Hb Hg Hsep.
  - simpl. by rewrite take_drop.
  - simpl in Hsep. apply andb_prop in Hsep as [Hfrom Hsep].
    apply Nat.leb_le in Hfrom.
    rewrite reverse_cons, spliceLoop_app.
    specialize (IH (contentEndOf t m) logged).
    destruct (spliceLoop env repoUrl t (reverse ms) t logged) as [r logged'].
    simpl in IH. rewrite IH; [| | | done].
    2:{ intros m' Hm'. apply Hb, elem_of_cons. by right. }
    2:{ intros m' Hm'. apply Hg, elem_of_cons. by right. }
    destruct (Hb m) as [Hb1 Hb2]; [apply elem_of_cons; by left |].
    destruct (Hg m) as [c Hc]; [apply elem_of_cons; by left |].
    simpl. unfold contentFor. unfold generatedFor in Hc. rewrite Hc. simpl.
    unfold generatedFor. rewrite Hc.
    unfold substring_to, substring_from.
    rewrite take_app_le by (rewrite length_take; lia).
    rewrite take_take, Nat.min_l by lia.
    rewrite drop_app_length' by (rewrite length_take; lia).
    rewrite <- (take_span t from (index m)) by lia.
    by rewrite <- !app_assoc.
Qed.

Lemma markers_region_bounds P m :
  m ∈ markers P t -> index m <= contentEndOf t m <= length t.
Proof.
  intros Hin. destruct (marker_bounds P t m Hin).
  destruct (contentEndOf_bounds P t m Hin). lia.
Qed.

(** The document written by a pass over separated regions. *)
Lemma spliceAll_separated P :
  separated t 0 (markers P t) = true ->
  (forall m, m ∈ markers P t -> exists c, generatedFor env repoUrl t m = Ok c) ->
  spliceAll env P repoUrl t
  = Ok (assemble t 0 (partsOf env repoUrl t (markers P t))).
Proof.
  intros Hsep Hg. unfold spliceAll.
  rewrite (spliceLoop_separated (markers P t) 0 []); try done.
  intros m Hm. by eapply markers_region_bounds.
Qed.

(** The log does not influence the document. *)
Lemma spliceLoop_logged ms :
  forall u logged logged',
    fst (spliceLoop env repoUrl t ms u logged)
    = fst (spliceLoop env repoUrl t ms u logged').
Proof.
  induction ms as [| m ms IH]; intros u logged logged'; [done |].
  simpl. destruct (generateMarkdownDoc env _ _ repoUrl); [apply IH | done].
Qed.

End splice.

(** What [updateReadme] writes is the document of [spliceAll]. *)
Lemma updateReadme_writes_spliceAll env path P repoUrl w readme u :
  files w !! path = Some readme ->
  markers P readme <> [] ->
  spliceAll env P repoUrl readme = Ok u ->
  exists w', updateReadme env path P repoUrl w = Returned w' /\
             files w' = <[path := u]> (files w) /\ stderr w' = stderr w.
Proof.
  intros Hfile Hne Hu. unfold updateReadme. rewrite Hfile.
  destruct (reverse (markers P readme)) as [| m ms] eqn:Hr.
  { apply (f_equal reverse) in Hr. rewrite reverse_involutive in Hr. done. }
  unfold spliceAll in Hu. rewrite Hr in Hu.
  rewrite (spliceLoop_logged env repoUrl readme (m :: ms) readme [] (stdout w)) in Hu.
  destruct (spliceLoop env repoUrl readme (m :: ms) readme (stdout w))
    as [[u' | e] logged]; simpl in Hu; [| done].
  injection Hu as ->. by eexists.
Qed.


(** A marker line without [:], backtick or space at its end: the file token
    of the second run takes in the line break that the first run added, and
    no such file is found. *)
Remark unterminated_marker_second_run :
  spliceAll (sampleEnv gitTracked) defaultPhrase None untermReadme
    = Ok untermSpliced /\
  spliceAll (sampleEnv gitTracked) defaultPhrase None untermSpliced
    = Throw (str "No exports found in test/trivial.ts" ++ nl).
Proof. split; vm_compute; reflexivity. Qed.

(** ** Markers inside the region of another marker *)

(** C3 at a document with nested markers: the region of the outer marker
    reaches past the inner marker, its end is taken from the document as
    read, and the text behind the outer fragment is cut from the document as
    already changed: the end of the inner fragment stays behind the outer
    one. *)
Theorem C3_nested_marker_region_corrupted :
  markers defaultPhrase nestedReadme = [nestedOuter; nestedInner] /\
  index nestedInner < contentEndOf nestedReadme nestedOuter /\
  generatedFor (sampleEnv gitTracked) None nestedReadme nestedOuter
    = Ok (answerFragment "###") /\
  spliceAll (sampleEnv gitTracked) defaultPhrase None nestedReadme
    = Ok nestedSpliced.
Proof.
  split; [vm_compute; reflexivity |].
  split; [vm_compute; lia |].
  split; vm_compute; reflexivity.
Qed.

(** X16: for regions that do not overlap the loop is safe: every region
    holds its own fresh content and the text between the regions is kept. *)
Theorem regions_apart_each_holds_its_content
    (env : Env) (repoUrl : option text) (searchPhrase : text) (t : text) :
  separated t 0 (markers searchPhrase t) = true ->
  (forall m, m ∈ markers searchPhrase t ->
             exists c, generatedFor env repoUrl t m = Ok c) ->
  spliceAll env searchPhrase repoUrl t
  = Ok (assemble t 0 (partsOf env repoUrl t (markers searchPhrase t))).
Proof. apply spliceAll_separated. Qed.

(** ** Heading levels *)








(** * More on the renderer *)

(** ** Deep links *)

Lemma stripTrailingSlash_snoc u : stripTrailingSlash (u ++ [c_slash]) = u.
Proof.
  unfold stripTrailingSlash. rewrite reverse_snoc. simpl.
  apply reverse_involutive.
Qed.

Lemma stripTrailingSlash_other u :
  list.last u <> Some c_slash -> stripTrailingSlash u = u.
Proof.
  intros H. unfold stripTrailingSlash.
  destruct (reverse u) as [| c r] eqn:E; [done |].
  destruct (c =? c_slash)%N eqn:Ec; [| done].
  apply N.eqb_eq in Ec. subst c. exfalso. apply H.
  rewrite <- head_reverse, E. done.
Qed.

(** X1: one slash at the end of the repository URL makes no difference to the
    deep link: the URL with the slash and the URL without it give the same
    answer, for every file, line and answer of [git]. *)
Theorem deep_link_ignores_one_trailing_slash
    (env : Env) (repoUrl filePath : text) (lineNumber : nat) :
  list.last repoUrl <> Some c_slash ->
  generateDeepLink env (repoUrl ++ [c_slash]) filePath lineNumber
  = generateDeepLink env repoUrl filePath lineNumber.
Proof.
  intros H. unfold generateDeepLink.
  by rewrite stripTrailingSlash_snoc, stripTrailingSlash_other.
Qed.

Lemma deep_link_ignores_one_trailing_slash_witness :
  list.last exampleRepo <> Some c_slash /\
  generateDeepLink (sampleEnv gitTracked) (exampleRepo ++ [c_slash])
    (str "/repo/test/trivial.ts") 2
  = generateDeepLink (sampleEnv gitTracked) exampleRepo
      (str "/repo/test/trivial.ts") 2.
Proof.
  assert (H : list.last exampleRepo <> Some c_slash) by (vm_compute; discriminate).
  split; [exact H |].
  exact (deep_link_ignores_one_trailing_slash (sampleEnv gitTracked) exampleRepo
           (str "/repo/test/trivial.ts") 2 H).
Defined.

(** ** Kind labels *)

(** X2: the kind label is always one of eight words. *)
Theorem type_label_is_one_of_eight (declaration : Node) (typeString : option text) :
  getTypeLabel declaration typeString ∈
    [str "function"; str "abstract class"; str "class"; str "interface";
     str "type"; str "constant"; str "variable"; str "value"].
Proof.
  unfold getTypeLabel.
  repeat match goal with
  | |- context [match ?x with _ => _ end] => destruct x
  | |- context [if ?b then _ else _] => destruct b
  end; set_solver.
Qed.

(** ** Resolving a symbol *)

(** X3: whatever the checker answers, the export declaration of a resolved
    symbol is the symbol's own first declaration, and the resolved
    declaration is missing only when the symbol has no declaration at all. *)
Theorem resolveSymbol_keeps_the_export_declaration
    (symbol : Symbol) (checker : TypeChecker) :
  exportDeclaration (resolveSymbol symbol checker) = firstDeclaration symbol /\
  (declaration (resolveSymbol symbol checker) = None <->
   firstDeclaration symbol = None).
Proof.
  unfold resolveSymbol.
  destruct (firstDeclaration symbol) as [d |] eqn:Ed; [| done].
  destruct (_ && _).
  - destruct (getAliasedSymbol checker symbol) as [[a |] | e]; simpl; try done.
    unfold firstDeclaration.
    destruct (valueDeclaration a) as [va |] eqn:Ea; simpl; done.
  - destruct (_ && _); [| done].
    destruct (initializer d ≫= expression) as [expr |]; simpl; [| done].
    destruct (getSymbolAtLocation checker (AtNode expr)) as [[i |] | e];
      simpl; try done.
    destruct (valueDeclaration i); simpl; [| done].
    destruct (firstDeclaration i); done.
Qed.

(** X4: when the lookups of the checker throw, the symbol is left as it is:
    its own first declaration and itself. *)
Theorem resolveSymbol_falls_back_when_the_checker_throws
    (symbol : Symbol) (checker : TypeChecker) :
  (forall s, exists e, getAliasedSymbol checker s = Throw e) ->
  (forall l, exists e, getSymbolAtLocation checker l = Throw e) ->
  resolveSymbol symbol checker
  = {| declaration := firstDeclaration symbol;
       originalSymbol := symbol;
       exportDeclaration := firstDeclaration symbol |}.
Proof.
  intros Ha Hl. unfold resolveSymbol.
  destruct (firstDeclaration symbol) as [d |]; [| done].
  destruct (_ && _).
  - destruct (Ha symbol) as [e ->]. done.
  - destruct (_ && _); [| done].
    destruct (initializer d ≫= expression) as [expr |]; [| done].
    destruct (Hl (AtNode expr)) as [e ->]. done.
Qed.

Lemma resolveSymbol_falls_back_witness :
  resolveSymbol aliasSymbol failingChecker
  = {| declaration := Some specifierDecl;
       originalSymbol := aliasSymbol;
       exportDeclaration := Some specifierDecl |}.
Proof.
  apply (resolveSymbol_falls_back_when_the_checker_throws aliasSymbol failingChecker).
  - intros s. by eexists.
  - intros l. by eexists.
Defined.

(** ** A symbol whose type cannot be rendered *)

(** X5: when the checker throws on the type of a symbol, the fragment of the
    symbol is still rendered: its heading, with the label the declaration
    gets without a type, its comment, and a note that the type information
    is unavailable. *)
Theorem symbol_doc_without_type_information
    (env : Env) (nm : text) (sy : Symbol) (chk : TypeChecker) (hp : text)
    (sf : SourceFile) (repoUrl : option text) (d : Node) (e : text) :
  declaration (resolveSymbol sy chk) = Some d ->
  typeStringAt chk (originalSymbol (resolveSymbol sy chk)) d = Throw e ->
  generateSymbolDoc env nm sy chk hp sf repoUrl
  = (deepLink ← deepLinkFor env repoUrl d sf;
     Ok (symbolHeading hp nm (linked (getTypeLabel d None) deepLink) ++
         commentPart (docCommentOf (exportDeclaration (resolveSymbol sy chk)) d) ++
         str "*Type information unavailable*" ++ nl2)).
Proof.
  intros Hd Ht. rewrite (generateSymbolDoc_fragment _ _ _ _ _ _ _ _ Hd).
  unfold getTypeInfo. rewrite Ht.
  change (try_catch (Some <$> Throw e) None) with (@None text).
  destruct (deepLinkFor env repoUrl d sf) as [link | e']; [| done].
  rewrite bind_Ok. done.
Qed.

Lemma symbol_doc_without_type_information_witness :
  generateSymbolDoc (sampleEnv gitTracked) (str "answer") answerSymbol
    failingChecker (str "###") trivialFile None
  = Ok (symbolHeading (str "###") (str "answer") (str "constant") ++
        str "The universe and everything..." ++ nl2 ++
        str "*Type information unavailable*" ++ nl2).
Proof.
  rewrite (symbol_doc_without_type_information (sampleEnv gitTracked)
             (str "answer") answerSymbol failingChecker (str "###") trivialFile
             None answerDecl (str "type")); [| reflexivity | reflexivity].
  vm_compute. reflexivity.
Defined.

(** ** Generation without links *)

Lemma collectTemplateDocs_throws tps tags :
  forall k docs e,
    collectTemplateDocs tps tags k docs = Throw e -> e = startsWithTypeError.
Proof.
  induction tps as [| p tps IH]; intros k docs e H; [done |].
  simpl in H. destruct (tags !! k) as [t |]; [| by eapply IH].
  destruct (commentOrEmpty (tag_comment t)); [by eapply IH | by injection H].
Qed.

Lemma generateTypeParameters_throws tps j e :
  generateTypeParameters tps j = Throw e -> e = startsWithTypeError.
Proof.
  unfold generateTypeParameters. intros H.
  destruct (tags_of j) as [ts |]; [| done].
  destruct (collectTemplateDocs tps _ 0 ∅) as [m | e'] eqn:E; [done |].
  injection H as <-. by eapply collectTemplateDocs_throws.
Qed.

Lemma generateFunctionDoc_throws d ts j e :
  generateFunctionDoc d ts j = Throw e -> e = startsWithTypeError.
Proof.
  unfold generateFunctionDoc. intros H.
  destruct (match match j with Some _ => _ | None => _ end with
            | Some _ => _ | None => _ end); [done |].
  destruct (typeParameters d) as [| tp tps]; [done |].
  destruct (generateTypeParameters (tp :: tps) _) as [s | e'] eqn:E; [done |].
  injection H as <-. by eapply generateTypeParameters_throws.
Qed.

Lemma generateClassDoc_throws env d ts chk hp cn sf repoUrl e :
  linksAnswered env repoUrl sf ->
  generateClassDoc env d ts chk hp cn sf repoUrl = Throw e ->
  e = startsWithTypeError.
Proof.
  intros Hl H.
  destruct (decide (kind d = VariableDeclaration)) as [Hk | Hk].
  { unfold generateClassDoc, is_kind in H.
    by rewrite bool_decide_eq_true_2 in H by done. }
  rewrite generateClassDoc_unfold in H by done.
  unfold classPreamble in H.
  destruct (match typeParameters d with [] => _ | _ => _ end) as [tp | e']
    eqn:E.
  - rewrite !bind_Ok in H.
    destruct (concatResults_total
                (fun m => generateClassMemberDoc env m chk
                            (has_modifier StaticKeyword m) hp cn sf repoUrl)
                (renderedMembers d)) as [s Hs].
    { intros m. by apply generateClassMemberDoc_links. }
    by rewrite Hs in H.
  - injection H as <-. destruct (typeParameters d); [done |].
    by eapply generateTypeParameters_throws.
Qed.

Lemma generateTypeSpecificDoc_throws env d ti chk hp nm sf repoUrl j e :
  linksAnswered env repoUrl sf ->
  generateTypeSpecificDoc env d ti chk hp nm sf repoUrl j = Throw e ->
  e = startsWithTypeError.
Proof.
  intros Hl. unfold generateTypeSpecificDoc. intros H.
  destruct ti as [[| c s] |]; [done | | done].
  destruct (_ && _); [by eapply generateFunctionDoc_throws |].
  destruct (_ && _); [by eapply generateClassDoc_throws |].
  destruct (kind d); try done;
    (by eapply generateFunctionDoc_throws) || (by eapply generateClassDoc_throws).
Qed.

Lemma generateSymbolDoc_throws env nm sy chk hp sf repoUrl e :
  linksAnswered env repoUrl sf ->
  generateSymbolDoc env nm sy chk hp sf repoUrl = Throw e ->
  e = startsWithTypeError.
Proof.
  intros Hl H.
  destruct (declaration (resolveSymbol sy chk)) as [d |] eqn:Hd.
  2:{ unfold generateSymbolDoc in H. by rewrite Hd in H. }
  rewrite (generateSymbolDoc_fragment _ _ _ _ _ _ _ _ Hd) in H.
  destruct (Hl d) as [r Hr]. rewrite Hr, bind_Ok in H.
  destruct (generateTypeSpecificDoc _ _ _ _ _ _ _ _ _) as [body | e'] eqn:E;
    [done |].
  injection H as <-. by eapply generateTypeSpecificDoc_throws.
Qed.

Lemma concatResults_Throw_inv {A} (f : A -> result text) (l : list A) e :
  concatResults f l = Throw e -> exists x, x ∈ l /\ f x = Throw e.
Proof.
  induction l as [| x l IH]; [done |]. simpl. intros H.
  destruct (f x) as [d | e'] eqn:E.
  - rewrite bind_Ok in H.
    destruct (concatResults f l) as [rest | e'']; [done |].
    injection H as <-. destruct (IH eq_refl) as (y & Hy & Hfy).
    exists y. split; [apply elem_of_cons; by right | done].
  - injection H as <-. exists x. split; [apply elem_of_cons; by left | done].
Qed.

(** The exceptions of the generation for a file that has exports, when every
    deep link asked for is answered. *)
Lemma generation_with_exports env filePath hp repoUrl sf exps :
  findSourceFile env filePath = Some sf -> exports sf = Some exps ->
  linksAnswered env repoUrl sf ->
  (forall e, generateMarkdownDoc env filePath hp repoUrl = Throw e ->
             e = startsWithTypeError) /\
  (forallb (exportTemplatesAreStrings (checkerOf env filePath)) exps = true ->
   exists docs,
     generateMarkdownDoc env filePath hp repoUrl = Ok (concat docs) /\
     Forall2 (fun e doc =>
                generateSymbolDoc env e.1 e.2 (checkerOf env filePath) hp sf
                  repoUrl = Ok doc /\
                exists rest, doc = hp ++ str " " ++ e.1 ++ rest)
             exps docs).
Proof.
  intros Hsf Hex Hl. unfold generateMarkdownDoc. rewrite Hsf, Hex. split.
  - intros e H. apply concatResults_Throw_inv in H as ([nm sy] & _ & H).
    by eapply generateSymbolDoc_throws.
  - intros Hs.
    destruct (concatResults_total_in
                (fun '(name, symbol) =>
                   generateSymbolDoc env name symbol (checkerOf env filePath)
                     hp sf repoUrl) exps) as [doc Hdoc].
    { intros [nm sy] Hin. apply generateSymbolDoc_strings; [done |].
      rewrite forallb_forall in Hs. by apply Hs, list_elem_of_In. }
    rewrite Hdoc.
    apply concatResults_Ok in Hdoc as (docs & HF & ->).
    exists docs. split; [done |].
    eapply Forall2_impl; [| exact HF].
    intros [nm sy] d Hd. simpl. split; [done |].
    by apply generateSymbolDoc_heading in Hd.
Qed.

(** X6: without a repository URL, the generation for a file that has an
    exports table throws in one case only, whatever the checker does: the
    [TypeError] of a [@template] comment that is not a string.  When the
    [@template] comments of the exports are strings the document is the
    fragments of the exports, one after the other in the order of the
    table, each starting with the heading prefix and the name of its
    export. *)
Theorem generation_without_links_fails_on_template_comments_only
    (env : Env) (filePath headingPrefix : text) (sf : SourceFile)
    (exps : list (text * Symbol)) :
  findSourceFile env filePath = Some sf ->
  exports sf = Some exps ->
  (forall e, generateMarkdownDoc env filePath headingPrefix None = Throw e ->
             e = startsWithTypeError) /\
  (forallb (exportTemplatesAreStrings (checkerOf env filePath)) exps = true ->
   exists docs,
     generateMarkdownDoc env filePath headingPrefix None = Ok (concat docs) /\
     Forall2 (fun e doc =>
                generateSymbolDoc env e.1 e.2 (checkerOf env filePath)
                  headingPrefix sf None = Ok doc /\
                exists rest, doc = headingPrefix ++ str " " ++ e.1 ++ rest)
             exps docs).
Proof.
  intros Hsf Hex.
  apply generation_with_exports; [done | done | apply linksAnswered_plain].
Qed.

Lemma generation_without_links_fails_on_template_comments_only_witness :
  (exists docs,
     generateMarkdownDoc (envWith trivialFile gitFails) (str "test/trivial.ts")
       (str "###") None = Ok (concat docs) /\
     Forall2 (fun e doc =>
                generateSymbolDoc (envWith trivialFile gitFails) e.1 e.2
                  (checkerOf (envWith trivialFile gitFails) (str "test/trivial.ts"))
                  (str "###") trivialFile None = Ok doc /\
                exists rest, doc = str "###" ++ str " " ++ e.1 ++ rest)
             [(str "answer", answerSymbol)] docs) /\
  generateMarkdownDoc (envWith linkedFile gitFails) (str "test/trivial.ts")
    (str "###") None = Throw startsWithTypeError.
Proof.
  split.
  - destruct (generation_without_links_fails_on_template_comments_only
                (envWith trivialFile gitFails) (str "test/trivial.ts") (str "###")
                trivialFile [(str "answer", answerSymbol)] eq_refl eq_refl)
      as [_ H].
    exact (H eq_refl).
  - destruct (generation_without_links_fails_on_template_comments_only
                (envWith linkedFile gitFails) (str "test/trivial.ts") (str "###")
                linkedFile [(str "pair", pairSymbol)] eq_refl eq_refl)
      as [H _].
    destruct (generateMarkdownDoc (envWith linkedFile gitFails)
                (str "test/trivial.ts") (str "###") None) as [doc | e] eqn:E.
    + vm_compute in E. discriminate E.
    + by rewrite (H e eq_refl).
Defined.

(** ** Tags *)

Lemma filter_filter_sub {A} (P Q : A -> bool) (l : list A) :
  (forall x, P x = true -> Q x = true) ->
  filter (fun x => P x = true) (filter (fun x => Q x = true) l)
  = filter (fun x => P x = true) l.
Proof.
  intros H. induction l as [| x l IH]; [done |].
  rewrite !filter_cons. destruct (decide (Q x = true)) as [Hq | Hq].
  - rewrite filter_cons. destruct (decide (P x = true)); by rewrite IH.
  - destruct (decide (P x = true)) as [Hp | Hp]; [| done].
    by apply H in Hp.
Qed.

(** X7: the tag sections depend on the [@returns], [@throws] and [@example]
    tags only: the other tags of a comment, and its text, can be taken away
    without any change to what is rendered. *)
Theorem tag_sections_read_three_tags_only
    (c c' : option Comment) (ts : list JSDocTag) :
  generateJSDocTags (Some {| comment := c; tags := Some ts |})
  = generateJSDocTags
      (Some {| comment := c';
               tags := Some (filter (fun t => rendersTag t = true) ts) |}).
Proof.
  unfold generateJSDocTags, findTag. simpl.
  rewrite !(filter_filter_sub _ rendersTag); [done | | |];
    intros t Ht; unfold rendersTag; rewrite Ht; simpl;
    by rewrite ?orb_true_r.
Qed.

(** ** Type parameters *)

Lemma collectedDocs_other tps tags :
  forall k docs nm,
    nm ∉ tp_name <$> tps ->
    collectedDocs tps tags k docs !! nm = docs !! nm.
Proof.
  induction tps as [| param rest IH]; intros k docs nm Hnm; [done |].
  rewrite fmap_cons, not_elem_of_cons in Hnm. destruct Hnm as [Hne Hnm].
  simpl. destruct (tags !! k) as [t |].
  - rewrite IH by done. by rewrite lookup_insert_ne.
  - by apply IH.
Qed.

Lemma collectedDocs_lookup tps tags :
  forall k docs i p,
    NoDup (tp_name <$> tps) -> tps !! i = Some p ->
    collectedDocs tps tags k docs !! tp_name p
    = match tags !! (k + i) with
      | Some t => Some (cleanComment t)
      | None => docs !! tp_name p
      end.
Proof.
  induction tps as [| param rest IH]; intros k docs i p Hnd Hi; [done |].
  rewrite fmap_cons in Hnd. apply list.NoDup_cons in Hnd as [Hnotin Hnd].
  destruct i as [| i]; simpl in Hi.
  - injection Hi as ->. rewrite Nat.add_0_r. simpl.
    destruct (tags !! k) as [t |].
    + rewrite collectedDocs_other by done. by rewrite lookup_insert_eq.
    + by apply collectedDocs_other.
  - assert (Hne : tp_name param <> tp_name p).
    { intros Heq. apply Hnotin. rewrite Heq.
      apply list_elem_of_fmap_2. by eapply list_elem_of_lookup_2. }
    simpl. destruct (tags !! k) as [t |] eqn:Hk.
    + rewrite (IH (S k) _ i p) by done.
      replace (k + S i) with (S k + i) by lia.
      destruct (tags !! (S k + i)); [done |]. by rewrite lookup_insert_ne.
    + rewrite (IH k _ i p) by done.
      apply lookup_ge_None in Hk.
      rewrite (proj2 (lookup_ge_None tags (k + i))) by lia.
      by rewrite (proj2 (lookup_ge_None tags (k + S i))) by lia.
Qed.

(** The loop throws exactly when one of the tags it gets to has a comment
    that is not a string. *)
Lemma collectTemplateDocs_result tps tags :
  forall k docs,
    collectTemplateDocs tps tags k docs
    = if forallb hasStringComment (take (length tps) (drop k tags))
      then Ok (collectedDocs tps tags k docs)
      else Throw startsWithTypeError.
Proof.
  induction tps as [| param rest IH]; intros k docs; [done |].
  simpl. destruct (tags !! k) as [t |] eqn:Hk.
  - rewrite (drop_S _ _ _ Hk). simpl.
    unfold hasStringComment at 1, cleanComment, commentOrEmpty.
    destruct (tag_comment t) as [[[| c s] | parts] |]; simpl; try apply IH.
    done.
  - rewrite IH. apply lookup_ge_None in Hk.
    rewrite drop_ge by lia. by rewrite !take_nil.
Qed.

(** X8: when the type parameters have different names, the comment of the
    i-th type parameter is that of the i-th [@template] tag, without a
    leading dash; the parameters after the last such tag get no comment.
    The tags are read as far as there are type parameters, and when one of
    those has a comment that is not a string, [comment.startsWith] throws
    and no line is made. *)
Theorem type_parameters_take_template_tags_by_position
    (typeParameters : list TypeParameter) (jsDoc : option JSDoc) :
  NoDup (tp_name <$> typeParameters) ->
  generateTypeParameters typeParameters jsDoc
  = if forallb hasStringComment
         (take (length typeParameters) (templateTagsOf jsDoc))
    then Ok (str "**Type Parameters:**" ++ nl2 ++
             concat (imap (fun i param =>
                             typeParameterLine param (templateTagsOf jsDoc !! i))
                          typeParameters) ++ nl)
    else Throw startsWithTypeError.
Proof.
  intros Hnd. unfold generateTypeParameters, templateTagsOf.
  assert (Hlines : forall docs : gmap text text,
    (forall i p, typeParameters !! i = Some p ->
       docs !! tp_name p
       = cleanComment <$> (match tags_of jsDoc with
                           | Some ts => filter (fun t => tag_is "template" t = true) ts
                           | None => []
                           end !! i)) ->
    Ok (str "**Type Parameters:**" ++ nl2 ++
        concat ((fun param =>
          str "- `" ++ tp_name param ++
          match tp_constraint param with
          | Some c => str " extends " ++ c
          | None => []
          end ++
          match tp_default param with
          | Some d => str " = " ++ d
          | None => []
          end ++ str "`" ++
          match docs !! tp_name param with
          | Some (c :: s) => str " - " ++ (c :: s)
          | _ => []
          end ++ nl) <$> typeParameters) ++ nl)
    = Ok (str "**Type Parameters:**" ++ nl2 ++
          concat (imap (fun i param =>
                          typeParameterLine param
                            (match tags_of jsDoc with
                             | Some ts => filter (fun t => tag_is "template" t = true) ts
                             | None => []
                             end !! i))
                       typeParameters) ++ nl)).
  { intros docs Hdocs. do 5 f_equal.
    apply list_eq. intros i.
    rewrite list_lookup_fmap, list_lookup_imap.
    destruct (typeParameters !! i) as [p |] eqn:Hi; [| done]. simpl. f_equal.
    unfold typeParameterLine. specialize (Hdocs i p Hi).
    unfold text in *. rewrite Hdocs.
    destruct (_ !! i) as [t |]; [| done]. simpl.
    by destruct (cleanComment t). }
  destruct (tags_of jsDoc) as [ts |].
  - rewrite collectTemplateDocs_result, drop_0.
    destruct (forallb hasStringComment _); cbv iota; [| reflexivity].
    rewrite bind_Ok. apply Hlines. intros i p Hi.
    rewrite (collectedDocs_lookup _ _ 0 ∅ i p) by done. simpl.
    destruct (filter _ ts !! i); [done | by rewrite lookup_empty].
  - rewrite take_nil. cbn [forallb]. rewrite bind_Ok. apply Hlines.
    intros i p Hi. by rewrite lookup_empty, lookup_nil.
Qed.

Lemma type_parameters_take_template_tags_by_position_witness :
  generateTypeParameters [typeParam "K"; typeParam "V"]
    (Some {| comment := None;
             tags := Some [plainTag "template" "- The keys";
                           plainTag "param" "ignored";
                           plainTag "template" "The values"] |})
  = Ok (str "**Type Parameters:**" ++ nl2 ++
        str "- `K` - The keys" ++ nl ++ str "- `V` - The values" ++ nl ++ nl) /\
  generateTypeParameters [typeParam "K"]
    (Some {| comment := None; tags := Some [linkedTemplateTag] |})
  = Throw startsWithTypeError.
Proof.
  split.
  - rewrite (type_parameters_take_template_tags_by_position
               [typeParam "K"; typeParam "V"]).
    + vm_compute. reflexivity.
    + simpl. apply list.NoDup_cons. split; [| apply NoDup_singleton].
      intros H. apply list_elem_of_singleton in H. vm_compute in H. discriminate H.
  - rewrite (type_parameters_take_template_tags_by_position [typeParam "K"]).
    + vm_compute. reflexivity.
    + apply NoDup_singleton.
Defined.

(** ** A member whose type cannot be rendered *)

Lemma member_doc_entry env member checker isStatic hp className sf :
  generateClassMemberDoc env member checker isStatic hp className sf None
  = Ok (try_catch
          (symbol ← getSymbolAtLocation checker (AtNameOf member);
           match symbol with
           | Some sy =>
               typeString ← typeStringAt checker sy member;
               if is_kind MethodDeclaration member
               then Ok (memberEntry env member isStatic hp className ++
                        str "**Signature:** `" ++ typeString ++ str "`" ++ nl2
                        ++ generateParameters member
                        ++ generateJSDocTags (extractJSDoc (Some member)))
               else Ok (memberEntry env member isStatic hp className ++
                        str "**Type:** `" ++ typeString ++ str "`" ++ nl2
                        ++ exampleBlock (extractJSDoc (Some member)))
           | None => Ok (memberEntry env member isStatic hp className)
           end)
          (memberEntry env member isStatic hp className ++
           str "*Type information unavailable*" ++ nl2)).
Proof. reflexivity. Qed.

(** X21: when the checker throws on the name or on the type of a member, the
    entry of the member is still rendered: its heading, its comment and a
    note that the type information is unavailable; when the checker has no
    symbol for the name, the entry is the heading and the comment alone. *)
Theorem member_doc_without_type_information
    (env : Env) (member : Node) (checker : TypeChecker) (isStatic : bool)
    (hp className : text) (sf : SourceFile) :
  (forall e,
     getSymbolAtLocation checker (AtNameOf member) = Throw e ->
     generateClassMemberDoc env member checker isStatic hp className sf None
     = Ok (memberEntry env member isStatic hp className ++
           str "*Type information unavailable*" ++ nl2)) /\
  (forall sy e,
     getSymbolAtLocation checker (AtNameOf member) = Ok (Some sy) ->
     typeStringAt checker sy member = Throw e ->
     generateClassMemberDoc env member checker isStatic hp className sf None
     = Ok (memberEntry env member isStatic hp className ++
           str "*Type information unavailable*" ++ nl2)) /\
  (getSymbolAtLocation checker (AtNameOf member) = Ok None ->
   generateClassMemberDoc env member checker isStatic hp className sf None
   = Ok (memberEntry env member isStatic hp className)).
Proof.
  rewrite member_doc_entry.
  split; [| split].
  - by intros e ->.
  - intros sy e -> Ht. simpl. by rewrite Ht.
  - by intros ->.
Qed.

Lemma member_doc_without_type_information_witness :
  generateClassMemberDoc (sampleEnv gitTracked) sizeMember failingChecker false
    (str "###") (str "Box") trivialFile None
  = Ok (str "#### box.size " ++ [c_middot] ++ str " property" ++ nl2 ++
        str "*Type information unavailable*" ++ nl2).
Proof.
  destruct (member_doc_without_type_information (sampleEnv gitTracked) sizeMember
              failingChecker false (str "###") (str "Box") trivialFile)
    as [H _].
  rewrite (H (str "symbol") eq_refl). vm_compute. reflexivity.
Defined.

(** ** The exceptions of the generation *)

Lemma no_exports_message_differs filePath :
  str "No exports found in " ++ filePath <> startsWithTypeError.
Proof.
  intros H. apply (f_equal head) in H. vm_compute in H. discriminate H.
Qed.

(** X24: when the [git] command never fails, the generation for a file
    throws in two cases only.  One is a file that is not in the program or
    has no exports table, with the message that names the file; the other is
    the [TypeError] of a [@template] comment that is not a string.  When the
    file has exports and their [@template] comments are strings, the
    generation returns. *)
Theorem generation_throws_in_two_cases_only
    (env : Env) (filePath headingPrefix : text) (repoUrl : option text) :
  (forall cmd, exists out, execSync env cmd = Ok out) ->
  (forall e, generateMarkdownDoc env filePath headingPrefix repoUrl = Throw e ->
             e = str "No exports found in " ++ filePath \/
             e = startsWithTypeError) /\
  (generateMarkdownDoc env filePath headingPrefix repoUrl
   = Throw (str "No exports found in " ++ filePath) <->
   ~ exists sf exps, findSourceFile env filePath = Some sf /\
                     exports sf = Some exps) /\
  (forall sf exps,
     findSourceFile env filePath = Some sf -> exports sf = Some exps ->
     forallb (exportTemplatesAreStrings (checkerOf env filePath)) exps = true ->
     exists doc, generateMarkdownDoc env filePath headingPrefix repoUrl = Ok doc).
Proof.
  intros Hgit.
  destruct (findSourceFile env filePath) as [sf |] eqn:Hsf.
  - destruct (exports sf) as [exps |] eqn:Hex.
    + destruct (generation_with_exports env filePath headingPrefix repoUrl sf
                  exps Hsf Hex (linksAnswered_git env repoUrl sf Hgit))
        as [Hthrow Hok].
      split; [| split].
      * intros e He. right. by apply Hthrow.
      * split.
        -- intros He. apply Hthrow in He.
           by apply no_exports_message_differs in He.
        -- intros Hno. exfalso. apply Hno. by eexists _, _.
      * intros sf' exps' [= <-] Hex' Hs. rewrite Hex in Hex'.
        injection Hex' as <-. destruct (Hok Hs) as (docs & Hd & _).
        by eexists.
    + unfold generateMarkdownDoc. rewrite Hsf, Hex.
      split; [| split].
      * intros e [= <-]. by left.
      * split; [| done]. intros _ (sf' & exps & [= <-] & H). congruence.
      * intros sf' exps' [= <-] Hex'. congruence.
  - unfold generateMarkdownDoc. rewrite Hsf.
    split; [| split].
    + intros e [= <-]. by left.
    + split; [| done]. by intros _ (sf' & exps & H & _).
    + by intros sf' exps' H.
Qed.

Lemma generation_throws_in_two_cases_only_witness :
  generateMarkdownDoc (sampleEnv gitTracked) (str "src/missing.ts") (str "###")
    (Some exampleRepo) = Throw (str "No exports found in src/missing.ts") /\
  exists doc,
    generateMarkdownDoc (sampleEnv gitTracked) (str "test/trivial.ts")
      (str "###") (Some exampleRepo) = Ok doc.
Proof.
  assert (Hgit : forall cmd, exists out,
             execSync (sampleEnv gitTracked) cmd = Ok out)
    by (intros cmd; by eexists).
  split.
  - destruct (generation_throws_in_two_cases_only (sampleEnv gitTracked)
                (str "src/missing.ts") (str "###") (Some exampleRepo) Hgit)
      as (_ & H & _).
    apply H. intros (sf & exps & Hsf & _). vm_compute in Hsf. discriminate Hsf.
  - destruct (generation_throws_in_two_cases_only (sampleEnv gitTracked)
                (str "test/trivial.ts") (str "###") (Some exampleRepo) Hgit)
      as (_ & _ & H).
    apply (H trivialFile [(str "answer", answerSymbol)]); reflexivity.
Defined.

(** ** Constness *)

(** X25: [isConst] looks at the declaration and its ancestors up to the
    first variable statement and no further: it answers true exactly when
    one of these nodes has the const flag, or the last of them is a variable
    statement whose declaration list has it. *)
Theorem isConst_looks_up_to_the_statement (declaration : Node) :
  isConst declaration =
  existsb hasConstFlag (upToStatement declaration) ||
  match list.last (upToStatement declaration) with
  | Some s =>
      is_kind VariableStatement s &&
      match declarationList s with
      | Some l => hasConstFlag l
      | None => false
      end
  | None => false
  end.
Proof.
  remember (length (upToStatement declaration)) as n eqn:En.
  revert declaration En.
  induction n as [n IH] using lt_wf_ind. intros declaration ->.
  destruct declaration as [k f ms js p nm ini ex dl tps ps mem ty po sl].
  cbn [isConst upToStatement existsb flags parent declarationList].
  unfold hasConstFlag at 1. cbn [flags].
  destruct (negb (N.land f NodeFlags_Const =? 0)%N) eqn:Ef; [done |].
  cbn [orb].
  destruct (is_kind VariableStatement _) eqn:Ek.
  - cbn [existsb list.last orb]. by rewrite Ek.
  - destruct p as [p |].
    + assert (Hlt : length (upToStatement p) <
                      length (upToStatement
                        (MkNode k f ms js (Some p) nm ini ex dl tps ps mem
                                    ty po sl))).
      { cbn [upToStatement parent]. rewrite Ek. simpl. lia. }
      rewrite (IH _ Hlt p eq_refl).
      f_equal.
      destruct (upToStatement p) as [| x l] eqn:E; [by destruct p |].
      by rewrite last_cons_cons.
    + cbn [existsb list.last orb]. by rewrite Ek.
Qed.

(** * The command line *)

Lemma parseArgs_unfold a v rest c :
  parseArgs (a :: v :: rest) c =
  if bool_decide (a = str "--file")
  then parseArgs rest
         {| cfg_readmePath := v; cfg_searchPhrase := cfg_searchPhrase c;
            cfg_repoUrl := cfg_repoUrl c |}
  else if bool_decide (a = str "--search")
  then parseArgs rest
         {| cfg_readmePath := cfg_readmePath c; cfg_searchPhrase := v;
            cfg_repoUrl := cfg_repoUrl c |}
  else if bool_decide (a = str "--repo-url")
  then parseArgs rest
         {| cfg_readmePath := cfg_readmePath c;
            cfg_searchPhrase := cfg_searchPhrase c; cfg_repoUrl := Some v |}
  else parseArgs (v :: rest) c.
Proof. done. Qed.

(** The shape of the three proofs below: by induction on the number of
    arguments, an option pair moves the positions by two, any other argument
    by one. *)
Ltac parse_cases IH n args c :=
  destruct args as [| a [| v rest]]; [by left | by left |];
  rewrite parseArgs_unfold;
  assert (length rest <= n) by (simpl in *; lia);
  assert (length (v :: rest) <= n) by (simpl in *; lia);
  repeat case_bool_decide; subst;
  match goal with
  | |- context [parseArgs rest ?c'] =>
      destruct (IH rest c') as [Heq | (i & Hi1 & Hi2)]; [done | |];
      [ first [ left; exact Heq
              | right; exists 0; split; [done | simpl; by rewrite Heq]
              | right; exists 0; split; [done |]; eexists; split; [done |];
                simpl; by rewrite Heq ]
      | right; exists (S (S i)); by split ]
  | |- context [parseArgs (v :: rest) c] =>
      destruct (IH (v :: rest) c) as [Heq | (i & Hi1 & Hi2)]; [done | |];
      [ left; exact Heq | right; exists (S i); by split ]
  end.

Lemma parseArgs_readmePath n :
  forall args c, length args <= n ->
    cfg_readmePath (parseArgs args c) = cfg_readmePath c \/
    exists i, args !! i = Some (str "--file") /\
              args !! S i = Some (cfg_readmePath (parseArgs args c)).
Proof.
  induction n as [| n IH]; intros args c Hn.
  - destruct args; [by left | simpl in Hn; lia].
  - parse_cases IH n args c.
Qed.

Lemma parseArgs_searchPhrase n :
  forall args c, length args <= n ->
    cfg_searchPhrase (parseArgs args c) = cfg_searchPhrase c \/
    exists i, args !! i = Some (str "--search") /\
              args !! S i = Some (cfg_searchPhrase (parseArgs args c)).
Proof.
  induction n as [| n IH]; intros args c Hn.
  - destruct args; [by left | simpl in Hn; lia].
  - parse_cases IH n args c.
Qed.

Lemma parseArgs_repoUrl n :
  forall args c, length args <= n ->
    cfg_repoUrl (parseArgs args c) = cfg_repoUrl c \/
    exists i, args !! i = Some (str "--repo-url") /\
      exists v, args !! S i = Some v /\
                cfg_repoUrl (parseArgs args c) = Some v.
Proof.
  induction n as [| n IH]; intros args c Hn.
  - destruct args; [by left | simpl in Hn; lia].
  - parse_cases IH n args c.
Qed.

(** X9: every setting the command line parser answers with is its default,
    or the argument that follows the flag of the setting somewhere among the
    arguments; so a setting whose flag is not given keeps its default. *)
Theorem settings_are_defaults_or_flag_arguments (argv : list text) :
  let args := drop 2 argv in
  let c := parseCommandLineArgs argv in
  (cfg_readmePath c = str "README.md" \/
   exists i, args !! i = Some (str "--file") /\
             args !! S i = Some (cfg_readmePath c)) /\
  (cfg_searchPhrase c = str "The following is auto-generated from" \/
   exists i, args !! i = Some (str "--search") /\
             args !! S i = Some (cfg_searchPhrase c)) /\
  (cfg_repoUrl c = None \/
   exists i, args !! i = Some (str "--repo-url") /\
     exists v, args !! S i = Some v /\ cfg_repoUrl c = Some v).
Proof.
  intros args c. unfold c, parseCommandLineArgs. fold args.
  split; [| split].
  - by apply (parseArgs_readmePath (length args)).
  - by apply (parseArgs_searchPhrase (length args)).
  - by apply (parseArgs_repoUrl (length args)).
Qed.

(** * More on the splicer *)

(** ** The end of a region *)

Lemma headingLoop_result t maxLevel :
  forall fuel li r,
    headingLoop fuel t li maxLevel = Some r ->
    r = length t \/
    exists m, attemptAt headingRegex 1 t r = Some m /\ r <= length t /\
              length (default [] (group t m 1)) <= maxLevel.
Proof.
  induction fuel as [| fuel IH]; intros li r H; [done |].
  simpl in H. destruct (exec headingRegex 1 t li) as [m |] eqn:E.
  - destruct (length (default [] (group t m 1)) <=? maxLevel) eqn:El.
    + injection H as <-. right. apply Nat.leb_le in El.
      apply exec_spec in E as (j & Hj & Hat & _).
      pose proof Hat as Hat'.
      apply heading_shape in Hat' as (k & ws & Hi & _); [| lia].
      exists m. rewrite Hi. split; [done |]. split; [lia | done].
    + by eapply IH.
  - injection H as <-. by left.
Qed.

(** X10: the end of a region is inside the text, at or after the position
    the search starts from; when it is not the end of the text, it is the
    start of a line that begins with at most [maxLevel] and at most six [#]
    followed by white space. *)
Theorem region_end_is_a_heading_or_the_end
    (t : text) (startPos maxLevel : nat) :
  let r := findNextHeadingBoundary t startPos maxLevel in
  r <= length t /\
  (startPos <= length t -> startPos <= r) /\
  (r < length t ->
   atLineStart t r = true /\
   exists k ws rest,
     drop r t = repeat_hash k ++ ws ++ rest /\
     1 <= k <= 6 /\ k <= maxLevel /\
     ws <> [] /\ forallb isWhiteSpace ws = true).
Proof.
  intros r. unfold r, findNextHeadingBoundary.
  destruct (headingLoop_total t maxLevel (2 + length t) startPos) as [x Hx];
    [lia | lia |].
  rewrite Hx. simpl.
  assert (Hle : x <= length t).
  { destruct (headingLoop_result _ _ _ _ _ Hx) as [-> | (m & _ & H & _)]; lia. }
  split; [done |]. split.
  - intros Hs. by apply (headingLoop_bounds t maxLevel _ _ _ Hs Hx).
  - intros Hlt.
    destruct (headingLoop_result _ _ _ _ _ Hx) as [-> | (m & Hat & _ & Hlev)];
      [lia |].
    apply heading_shape in Hat
      as (k & ws & Hi & Hs & Hsl & Hk & Hws & Hfws & Hsp & Hg & Hls); [| done].
    split; [exact Hls |].
    exists k, ws, (drop (stop m) t).
    rewrite Hg in Hlev. simpl in Hlev. unfold repeat_hash in Hlev.
    rewrite length_replicate in Hlev.
    repeat split; try lia.
    + rewrite app_assoc, <- Hsp. symmetry. apply span_drop; lia.
    + intros ->. simpl in Hws. lia.
    + done.
Qed.

(** ** The markers of a document *)

Lemma matchAll_loop_ordered r n t :
  bounds_ok r ->
  forall fuel li ms,
    matchAll_loop fuel r n t li = Some ms ->
    Forall (fun m => li <= index m) ms /\
    forall i m1 m2, ms !! i = Some m1 -> ms !! S i = Some m2 ->
                    next_index m1 <= index m2.
Proof.
  intros Hb. induction fuel as [| fuel IH]; intros li ms H; [done |].
  simpl in H. destruct (exec r n t li) as [m |] eqn:E.
  - destruct (matchAll_loop fuel r n t (next_index m)) as [ms' |] eqn:E';
      [| done].
    simpl in H. injection H as <-.
    destruct (IH _ _ E') as [Hall Hchain].
    destruct (exec_bounds _ _ _ _ _ Hb E) as (H1 & H2 & H3).
    assert (Hn : index m <= next_index m).
    { unfold next_index. destruct (stop m =? index m); lia. }
    split.
    + constructor; [done |].
      eapply Forall_impl; [| exact Hall]. simpl. intros; lia.
    + intros [| i] m1 m2 Hm1 Hm2; simpl in *.
      * injection Hm1 as <-.
        rewrite Forall_lookup in Hall. by apply (Hall 0 m2).
      * by eapply Hchain.
  - injection H as <-. split; [constructor | intros i m1 m2 Hm1; done].
Qed.

Lemma marker_nonempty P t m :
  m ∈ markers P t -> index m < stop m.
Proof.
  intros (j & Hj & Hat)%markers_elem.
  destruct (marker_shape _ _ _ _ Hj Hat)
    as (i3 & line & xs & file & zs & Hi & H1 & H2 & H3 & Hsp & _).
  apply (f_equal length) in Hsp.
  rewrite span_length in Hsp by lia.
  rewrite !length_app in Hsp. simpl in Hsp. lia.
Qed.

(** X11: the markers of a document come in the order of the text and do not
    overlap: every marker is a piece of the text that is not empty, and the
    next marker starts at or after its end. *)
Theorem markers_are_in_order_and_apart (P t : text) :
  (forall m, m ∈ markers P t -> index m < stop m /\ stop m <= length t) /\
  (forall i m1 m2,
     markers P t !! i = Some m1 -> markers P t !! S i = Some m2 ->
     stop m1 <= index m2).
Proof.
  split.
  - intros m Hm. split; [by eapply marker_nonempty | by eapply marker_bounds].
  - intros i m1 m2 H1 H2.
    pose proof (markers_total P t) as Ht. unfold matchAll in Ht.
    destruct (matchAll_loop_ordered _ 4 t (markerRegex_bounds P) _ _ _ Ht)
      as [_ Hchain].
    specialize (Hchain i m1 m2 H1 H2).
    assert (Hin : m1 ∈ markers P t) by (by eapply list_elem_of_lookup_2).
    apply marker_nonempty in Hin.
    unfold next_index in Hchain.
    destruct (stop m1 =? index m1) eqn:Eq; [| done].
    apply Nat.eqb_eq in Eq. lia.
Qed.

(** X12: the phrase of a marker follows a line break: a document in which
    the phrase occurs on the first line only has no marker, and a pass over
    it ends with exit status 1 and writes nothing. *)
Theorem phrase_on_the_first_line_is_no_marker
    (env : Env) (path P : text) (repoUrl : option text) (w : World) (t : text) :
  files w !! path = Some t ->
  includes P (drop 1 t) = false ->
  markers P t = [] /\
  exists w', updateReadme env path P repoUrl w = Exited 1 w' /\
             files w' = files w.
Proof.
  intros Hfile Hno.
  assert (Hm : markers P t = []).
  { destruct (markers P t) as [| m ms] eqn:E; [done |].
    assert (Hin : m ∈ markers P t) by (rewrite E; apply elem_of_cons; by left).
    destruct (markers_elem _ _ _ Hin) as (j & Hj & Hat).
    destruct (marker_shape _ _ _ _ Hj Hat)
      as (i3 & line & xs & file & zs & _ & _ & H3 & Hs & Hsp & _).
    rewrite (span_decompose t i3 (stop m)) in Hno by lia.
    rewrite Hsp in Hno.
    replace (take i3 t ++
             (line ++ [c_nl] ++ P ++ xs ++ file ++ zs ++ [c_nl]) ++
             drop (stop m) t)
      with ((take i3 t ++ line ++ [c_nl]) ++ P ++
            (xs ++ file ++ zs ++ [c_nl] ++ drop (stop m) t)) in Hno
      by (by rewrite <- !app_assoc).
    destruct (take i3 t ++ line ++ [c_nl]) as [| c pre] eqn:Epre.
    { by destruct (take i3 t), line. }
    simpl in Hno. rewrite drop_0 in Hno.
    by rewrite includes_app in Hno. }
  split; [done |].
  unfold updateReadme. rewrite Hfile, Hm. simpl. by eexists.
Qed.

Lemma phrase_on_the_first_line_is_no_marker_witness :
  markers defaultPhrase firstLineReadme = [] /\
  exists w', updateReadme (sampleEnv gitTracked) readmePath defaultPhrase None
               (worldWith firstLineReadme) = Exited 1 w' /\
             files w' = files (worldWith firstLineReadme).
Proof.
  apply (phrase_on_the_first_line_is_no_marker (sampleEnv gitTracked) readmePath
           defaultPhrase None (worldWith firstLineReadme) firstLineReadme).
  - reflexivity.
  - vm_compute. reflexivity.
Defined.

(** X13: the source file of a marker is never empty and has no backtick, no
    colon and no space in it. *)
Theorem marker_file_is_one_token (P t : text) (m : jsmatch) :
  m ∈ markers P t ->
  sourceFileOf t m <> [] /\
  Forall (fun c => c <> c_backtick /\ c <> c_colon /\ c <> c_space)
         (sourceFileOf t m).
Proof.
  intros (j & Hj & Hat)%markers_elem.
  destruct (marker_shape _ _ _ _ Hj Hat)
    as (i3 & line & xs & file & zs & _ & _ & _ & _ & _ & _ & _ & Hf & Hne & _
        & _ & Hg4 & _).
  unfold sourceFileOf. rewrite Hg4. simpl. split; [done |].
  apply Forall_forall. intros c Hc.
  rewrite forallb_forall in Hf.
  specialize (Hf c Hc). unfold cls_file, cls_term, char_in in Hf. simpl in Hf.
  apply negb_true_iff in Hf. rewrite !orb_false_iff in Hf.
  destruct Hf as (H1 & H2 & H3 & _).
  apply N.eqb_neq in H1, H2, H3. done.
Qed.

Lemma marker_file_is_one_token_witness :
  sourceFileOf trivialReadme trivialMarker <> [] /\
  Forall (fun c => c <> c_backtick /\ c <> c_colon /\ c <> c_space)
         (sourceFileOf trivialReadme trivialMarker).
Proof.
  apply (marker_file_is_one_token defaultPhrase).
  vm_compute. apply elem_of_cons. by left.
Defined.

(** ** What a pass logs *)

Lemma spliceLoop_log_ok env repoUrl t ms :
  forall u logged u' logged',
    spliceLoop env repoUrl t ms u logged = (Ok u', logged') ->
    logged' = logged ++ generatingLines t ms.
Proof.
  induction ms as [| m ms IH]; intros u logged u' logged' H; simpl in H.
  - injection H as _ <-. by rewrite app_nil_r.
  - destruct (generateMarkdownDoc env _ _ repoUrl) as [c | e]; [| done].
    apply IH in H. rewrite H. unfold generatingLines. simpl.
    by rewrite <- app_assoc.
Qed.

Lemma spliceLoop_log_throw env repoUrl t ms :
  forall u logged e logged',
    spliceLoop env repoUrl t ms u logged = (Throw e, logged') ->
    exists before m after,
      ms = before ++ m :: after /\
      logged' = logged ++ generatingLines t (before ++ [m]) /\
      generatedFor env repoUrl t m = Throw e /\
      Forall (fun m' => exists c, generatedFor env repoUrl t m' = Ok c) before.
Proof.
  induction ms as [| m ms IH]; intros u logged e logged' H; simpl in H; [done |].
  destruct (generateMarkdownDoc env _ _ repoUrl) as [c | e0] eqn:Eg.
  - apply IH in H as (before & m' & after & -> & -> & Hm' & Hb).
    exists (m :: before), m', after. split; [done |]. split.
    + unfold generatingLines. simpl. by rewrite <- app_assoc.
    + split; [done |]. constructor; [by exists c | done].
  - injection H as <- <-. exists [], m, ms. repeat split; try done.
Qed.

(** X14: a pass that returns has logged one line for every marker, the last
    marker of the document first, and then the line with the number of
    markers; it has written the one file and nothing on standard error.  A
    pass that ends with an exception of the generation has logged the lines
    of the markers up to the one whose generation threw, and has written
    nothing. *)
Theorem pass_logs_a_line_for_every_marker
    (env : Env) (path P : text) (repoUrl : option text) (w : World) (t : text) :
  files w !! path = Some t ->
  (forall w',
     updateReadme env path P repoUrl w = Returned w' ->
     stdout w' = stdout w ++ generatingLines t (reverse (markers P t)) ++
                 [updatedLine (length (markers P t)) path] /\
     stderr w' = stderr w /\
     exists u, files w' = <[path := u]> (files w)) /\
  (forall e w',
     updateReadme env path P repoUrl w = Thrown e w' ->
     files w' = files w /\
     exists before m after,
       reverse (markers P t) = before ++ m :: after /\
       stdout w' = stdout w ++ generatingLines t (before ++ [m]) /\
       generatedFor env repoUrl t m = Throw e).
Proof.
  intros Hfile. unfold updateReadme. rewrite Hfile.
  destruct (reverse (markers P t)) as [| m0 ms] eqn:Hr.
  { split; [intros w' H; done | intros e w' H; done]. }
  destruct (spliceLoop env repoUrl t (m0 :: ms) t (stdout w))
    as [[u | e0] logged] eqn:Hs.
  - split; [| intros e w' H; done].
    intros w' H. injection H as <-. simpl.
    apply spliceLoop_log_ok in Hs. rewrite Hs.
    split; [| split; [done | by exists u]].
    rewrite <- app_assoc. do 2 f_equal.
    unfold updatedLine.
    assert (Hlen : length (markers P t) = S (length ms)).
    { rewrite <- (length_reverse (markers P t)), Hr. done. }
    by rewrite Hlen.
  - split; [intros w' H; done |].
    intros e w' H. injection H as <- <-. simpl. split; [done |].
    apply spliceLoop_log_throw in Hs
      as (before & m & after & Hms & Hlog & Hm & _).
    by exists before, m, after.
Qed.

Lemma pass_logs_a_line_for_every_marker_witness :
  exists w',
    updateReadme (sampleEnv gitTracked) readmePath defaultPhrase None
      (worldWith trivialReadme) = Returned w' /\
    stdout w' = [str "Generating docs for test/trivial.ts with heading level 4...";
                 str "Updated documentation for 1 file(s) in README.md"].
Proof.
  destruct (pass_logs_a_line_for_every_marker (sampleEnv gitTracked) readmePath
              defaultPhrase None (worldWith trivialReadme) trivialReadme eq_refl)
    as [Hret _].
  destruct (updateReadme (sampleEnv gitTracked) readmePath defaultPhrase None
              (worldWith trivialReadme)) as [w' | code w' | e w'] eqn:E;
    [| vm_compute in E; discriminate E | vm_compute in E; discriminate E].
  exists w'. split; [reflexivity |].
  destruct (Hret w' eq_refl) as [Hout _]. rewrite Hout.
  vm_compute. reflexivity.
Defined.

(** ** The start of the document *)

Lemma matchAll_loop_S fuel r n t li :
  matchAll_loop (S fuel) r n t li =
  match exec r n t li with
  | None => Some []
  | Some m => (m ::.) <$> matchAll_loop fuel r n t (next_index m)
  end.
Proof. done. Qed.

Lemma spliceLoop_keeps_prefix env repoUrl P t :
  forall fuel li ms,
    matchAll_loop fuel (markerRegex P) 4 t li = Some ms ->
    forall b logged u,
      b <= li -> b <= length t ->
      fst (spliceLoop env repoUrl t (reverse ms) t logged) = Ok u ->
      take b u = take b t.
Proof.
  induction fuel as [| fuel IH]; intros li ms H b logged u Hb Hbt Hu; [done |].
  simpl in H. destruct (exec (markerRegex P) 4 t li) as [m |] eqn:E.
  - destruct (matchAll_loop fuel (markerRegex P) 4 t (next_index m))
      as [ms' |] eqn:E'; [| done].
    simpl in H. injection H as <-.
    destruct (exec_bounds _ _ _ _ _ (markerRegex_bounds P) E) as (H1 & H2 & H3).
    assert (Hn : index m <= next_index m).
    { unfold next_index. destruct (stop m =? index m); lia. }
    rewrite reverse_cons, spliceLoop_app in Hu.
    destruct (spliceLoop env repoUrl t (reverse ms') t logged)
      as [[u1 | e1] logged1] eqn:E1; [| done].
    assert (Hu1 : take (index m) u1 = take (index m) t).
    { apply (IH _ _ E' (index m) logged u1); [lia | lia |]. by rewrite E1. }
    simpl in Hu.
    destruct (generateMarkdownDoc env _ _ repoUrl) as [c | e]; [| done].
    simpl in Hu. injection Hu as <-.
    unfold substring_to. rewrite Hu1.
    rewrite take_app_le by (rewrite length_take; lia).
    rewrite take_take. f_equal. lia.
  - injection H as <-. simpl in Hu. by injection Hu as <-.
Qed.

(** X15: whatever the document, a pass keeps the text before the first
    marker as it is and puts the replacement of the first marker right
    behind it: its heading, its line, a line break and what is generated for
    it. *)
Theorem first_marker_and_the_text_before_it
    (env : Env) (repoUrl : option text) (P t u : text) (m : jsmatch)
    (ms : list jsmatch) :
  markers P t = m :: ms ->
  spliceAll env P repoUrl t = Ok u ->
  exists c tail,
    generatedFor env repoUrl t m = Ok c /\
    u = take (index m) t ++ replacementOf t m c ++ tail.
Proof.
  intros Hm Hu.
  pose proof (markers_total P t) as Ht. rewrite Hm in Ht.
  unfold matchAll in Ht.
  change (2 + length t) with (S (S (length t))) in Ht.
  rewrite matchAll_loop_S in Ht.
  destruct (exec (markerRegex P) 4 t 0) as [m0 |] eqn:E; [| done].
  destruct (matchAll_loop (S (length t)) (markerRegex P) 4 t (next_index m0))
    as [ms' |] eqn:E'; [| done].
  simpl in Ht. injection Ht as -> ->.
  destruct (exec_bounds _ _ _ _ _ (markerRegex_bounds P) E) as (H1 & H2 & H3).
  assert (Hn : index m <= next_index m).
  { unfold next_index. destruct (stop m =? index m); lia. }
  unfold spliceAll in Hu. rewrite Hm, reverse_cons, spliceLoop_app in Hu.
  destruct (spliceLoop env repoUrl t (reverse ms) t [])
    as [[u1 | e1] logged1] eqn:E1; [| done].
  assert (Hu1 : take (index m) u1 = take (index m) t).
  { apply (spliceLoop_keeps_prefix env repoUrl P t _ _ _ E' (index m) [] u1);
      [lia | lia |]. by rewrite E1. }
  simpl in Hu. unfold generatedFor.
  destruct (generateMarkdownDoc env _ _ repoUrl) as [c | e]; [| done].
  simpl in Hu. injection Hu as <-.
  exists c, (substring_from (contentEndOf t m) u1).
  split; [done |]. unfold substring_to. by rewrite Hu1.
Qed.

Lemma first_marker_and_the_text_before_it_witness :
  exists c tail,
    generatedFor (sampleEnv gitTracked) None nestedReadme nestedOuter = Ok c /\
    nestedSpliced
    = take (index nestedOuter) nestedReadme ++
      replacementOf nestedReadme nestedOuter c ++ tail.
Proof.
  apply (first_marker_and_the_text_before_it (sampleEnv gitTracked) None
           defaultPhrase nestedReadme nestedSpliced nestedOuter [nestedInner]).
  - vm_compute. reflexivity.
  - vm_compute. reflexivity.
Defined.

Lemma regions_apart_each_holds_its_content_witness :
  spliceAll (sampleEnv gitTracked) defaultPhrase None trivialReadme
  = Ok (assemble trivialReadme 0
          (partsOf (sampleEnv gitTracked) None trivialReadme
             (markers defaultPhrase trivialReadme))).
Proof.
  apply (regions_apart_each_holds_its_content (sampleEnv gitTracked) None
           defaultPhrase trivialReadme).
  - vm_compute. reflexivity.
  - intros m Hm. vm_compute in Hm.
    apply elem_of_cons in Hm as [-> | Hm]; [| by apply elem_of_nil in Hm].
    eexists. vm_compute. reflexivity.
Defined.

(** ** The heading of a marker *)

Lemma str_space : str " " = [c_space].
Proof. vm_compute. reflexivity. Qed.

(** X22: the replacement of a marker is its title line and marker line as
    they were, a line break and the new content; when the marker has a
    heading, whatever white space followed its [#]s in the document, line
    breaks included, is replaced by one space. *)
Theorem replacement_puts_one_space_after_the_heading
    (P t : text) (m : jsmatch) (newContent : text) :
  m ∈ markers P t ->
  exists line,
    group t m 3 = Some line /\
    ((group t m 2 = None /\
      matched t m = line /\
      replacementOf t m newContent = line ++ nl ++ newContent) \/
     (exists k ws,
        1 <= k <= 6 /\ ws <> [] /\ forallb isWhiteSpace ws = true /\
        matched t m = repeat_hash k ++ ws ++ line /\
        replacementOf t m newContent
        = repeat_hash k ++ [c_space] ++ line ++ nl ++ newContent)).
Proof.
  intros (j & Hj & Hat)%markers_elem.
  destruct (marker_shape _ _ _ _ Hj Hat)
    as (i3 & line & xs & file & zs & Hi & H1 & H2 & H3 & Hsp & _ & _ & _ & _
        & _ & Hg3 & _ & Hhead).
  exists (span t i3 (stop m)). split; [done |].
  unfold replacementOf, matched. rewrite Hg3, Hi.
  destruct Hhead as [(Hg2 & _ & ->) | (k & ws & Hk & Hws & Hfws & Hspan & Hg2 & _)].
  - left. rewrite Hg2. done.
  - right. exists k, ws. repeat (split; [done |]). split.
    + rewrite <- (span_app t j i3 (stop m)) by lia. rewrite Hspan.
      by rewrite <- app_assoc.
    + rewrite Hg2. destruct k as [| k]; [lia |]. simpl.
      unfold repeat_hash. rewrite length_replicate.
      rewrite str_space. simpl. by rewrite <- !app_assoc.
Qed.

Lemma replacement_puts_one_space_after_the_heading_witness :
  exists line,
    group trivialReadme trivialMarker 3 = Some line /\
    ((group trivialReadme trivialMarker 2 = None /\
      matched trivialReadme trivialMarker = line /\
      replacementOf trivialReadme trivialMarker (str "new") = line ++ nl ++ str "new") \/
     (exists k ws,
        1 <= k <= 6 /\ ws <> [] /\ forallb isWhiteSpace ws = true /\
        matched trivialReadme trivialMarker = repeat_hash k ++ ws ++ line /\
        replacementOf trivialReadme trivialMarker (str "new")
        = repeat_hash k ++ [c_space] ++ line ++ nl ++ str "new")).
Proof.
  apply (replacement_puts_one_space_after_the_heading defaultPhrase).
  vm_compute. apply elem_of_cons. by left.
Defined.

(** ** How a pass ends *)

(** X23: over a document that is there, a pass ends in one of three ways: it
    exits, always with status 1, exactly when the document has no marker; it
    returns exactly when there is a marker and the generation succeeds for
    every marker; it ends with an exception exactly when the generation
    throws for some marker. *)
Theorem pass_ends_in_one_of_three_ways
    (env : Env) (path P : text) (repoUrl : option text) (w : World) (t : text) :
  files w !! path = Some t ->
  (forall code w', updateReadme env path P repoUrl w = Exited code w' ->
                   code = 1) /\
  ((exists w', updateReadme env path P repoUrl w = Exited 1 w') <->
   markers P t = []) /\
  ((exists w', updateReadme env path P repoUrl w = Returned w') <->
   markers P t <> [] /\
   forall m, m ∈ markers P t -> exists c, generatedFor env repoUrl t m = Ok c) /\
  ((exists e w', updateReadme env path P repoUrl w = Thrown e w') <->
   exists m e, m ∈ markers P t /\ generatedFor env repoUrl t m = Throw e).
Proof.
  intros Hfile. unfold updateReadme. rewrite Hfile.
  destruct (reverse (markers P t)) as [| m0 ms] eqn:Hr.
  - assert (Hm : markers P t = []).
    { apply (f_equal reverse) in Hr. by rewrite reverse_involutive in Hr. }
    rewrite Hm. split; [by intros code w' [= <- _] |].
    split; [split; [done | by eexists] |].
    split; split.
    + by intros [w' H].
    + by intros [H _].
    + by intros (e & w' & H).
    + intros (m & e & Hin & _). by apply elem_of_nil in Hin.
  - assert (Hne : markers P t <> []).
    { intros E. by rewrite E in Hr. }
    assert (Hin : forall m, m ∈ m0 :: ms <-> m ∈ markers P t).
    { intros m. rewrite <- Hr. apply elem_of_reverse. }
    destruct (spliceLoop env repoUrl t (m0 :: ms) t (stdout w))
      as [[u | e0] logged] eqn:Hs.
    + assert (Hall : forall m, m ∈ markers P t ->
                       exists c, generatedFor env repoUrl t m = Ok c).
      { intros m Hm. destruct (generatedFor env repoUrl t m) as [c | e] eqn:E;
          [by exists c | exfalso].
        apply Hin in Hm.
        destruct (spliceLoop_throws env repoUrl t (m0 :: ms) t (stdout w) m e Hm E)
          as [e' He'].
        by rewrite Hs in He'. }
      split; [done |]. split; [split; [by intros [w' H] | done] |].
      split; split.
      * done.
      * intros _. by eexists.
      * by intros (e & w' & H).
      * intros (m & e & Hm & He). destruct (Hall m Hm) as [c Hc]. congruence.
    + apply spliceLoop_log_throw in Hs
        as (before & m & after & Hms & _ & Hm & _).
      assert (Hmin : m ∈ markers P t).
      { apply Hin. rewrite Hms. apply elem_of_app. right.
        apply elem_of_cons. by left. }
      split; [done |]. split; [split; [by intros [w' H] | done] |].
      split; split.
      * by intros [w' H].
      * intros [_ Hall]. destruct (Hall m Hmin) as [c Hc]. congruence.
      * intros _. by exists m, e0.
      * intros _. by eexists _, _.
Qed.

Lemma pass_ends_in_one_of_three_ways_witness :
  exists e w',
    updateReadme (sampleEnv gitTracked) readmePath defaultPhrase None
      (worldWith missingReadme) = Thrown e w'.
Proof.
  destruct (pass_ends_in_one_of_three_ways (sampleEnv gitTracked) readmePath
              defaultPhrase None (worldWith missingReadme) missingReadme eq_refl)
    as (_ & _ & _ & Hthrow).
  apply Hthrow. exists missingMarker. eexists. split.
  - vm_compute. apply elem_of_cons. by left.
  - vm_compute. reflexivity.
Defined.

(** * The matcher finds a path when there is one *)

Lemma rep_complete p g n st st' :
  walk p n st st' ->
  forall min max k z,
    min <= n -> (forall mx, max = Some mx -> n <= mx) ->
    k st' = Some z ->
    is_Some (rep p g (m_rest st) min max st k).
Proof.
  induction 1 as [st | n st c u st' Hr Hp Hw IH]; intros min max k z Hmin Hmax Hk.
  - assert (min = 0) as -> by lia.
    destruct (m_rest st) as [| c u]; simpl;
      destruct max as [[| mx] |]; destruct g; rewrite ?Hk;
      repeat match goal with
      | |- context [if ?b then _ else _] => destruct b
      | |- is_Some (match ?x with Some _ => _ | None => _ end) => destruct x
      end; by eexists.
  - rewrite Hr. simpl. rewrite Hp.
    assert (Hrest : m_rest (advance st) = u).
    { unfold advance. by rewrite Hr. }
    destruct (IH (Nat.pred min) (dec_max max) k z) as [z' Hz'].
    { lia. }
    { intros mx Hmx. destruct max as [m0 |]; [| done].
      simpl in Hmx. injection Hmx as <-. specialize (Hmax m0 eq_refl). lia. }
    { done. }
    rewrite Hrest in Hz'.
    destruct max as [[| mx] |].
    + specialize (Hmax 0 eq_refl). lia.
    + rewrite Hz'. destruct min; [| by eexists].
      destruct g; [by eexists |]. destruct (k st); by eexists.
    + rewrite Hz'. destruct min; [| by eexists].
      destruct g; [by eexists |]. destruct (k st); by eexists.
Qed.

Lemma run_complete r st st' :
  matches r st st' ->
  forall k z, k st' = Some z -> is_Some (run r st k).
Proof.
  induction 1 as [st | p st c u Hr Hp | r1 r2 st st1 st2 H1 IH1 H2 IH2
                  | st Hls | n r st st' H IH | r inner st st' H IH Hpos
                  | r inner st | p min max g n st st' Hw Hmin Hmax];
    intros k z Hk; simpl.
  - by eexists.
  - rewrite Hr, Hp. by eexists.
  - destruct (IH2 k z Hk) as [z2 Hz2].
    by apply (IH1 (fun st' => run r2 st' k) z2).
  - rewrite Hls. by eexists.
  - by apply (IH (fun st'0 => k (set_cap n (m_pos st) (m_pos st'0) st'0)) z).
  - destruct (IH (fun st'0 => if m_pos st'0 =? m_pos st then None else k st'0) z)
      as [z' Hz'].
    { apply Nat.eqb_neq in Hpos. by rewrite Hpos. }
    rewrite Hz'. by eexists.
  - destruct (run r _ _); by eexists.
  - by eapply rep_complete.
Qed.

Lemma attemptAt_complete r n t i st' :
  matches r (initial n t i) st' -> is_Some (attemptAt r n t i).
Proof.
  intros H. destruct (run_complete _ _ _ H Some st' eq_refl) as [z Hz].
  unfold attemptAt, attempt. fold (initial n t i). rewrite Hz. by eexists.
Qed.

(** ** Paths over a given text *)

Lemma walk_intro p w :
  forall st rest,
    forallb p w = true -> m_rest st = w ++ rest ->
    exists st', walk p (length w) st st' /\ m_rest st' = rest /\
                m_pos st' = m_pos st + length w.
Proof.
  induction w as [| c w IH]; intros st rest Hf Hr.
  - exists st. split; [constructor |]. split; [done | simpl; lia].
  - simpl in Hf. apply andb_prop in Hf as [Hc Hf].
    destruct (IH (advance st) rest Hf) as (st' & Hw & Hr' & Hp').
    { unfold advance. by rewrite Hr. }
    exists st'. split; [by eapply walk_S |]. split; [done |].
    rewrite Hp'. unfold advance. rewrite Hr. simpl. lia.
Qed.

Lemma rep_intro p min max g w st rest :
  forallb p w = true -> m_rest st = w ++ rest ->
  min <= length w -> (forall mx, max = Some mx -> length w <= mx) ->
  exists st', matches (Rep p min max g) st st' /\ m_rest st' = rest /\
              m_pos st' = m_pos st + length w.
Proof.
  intros Hf Hr Hmin Hmax.
  destruct (walk_intro p w st rest Hf Hr) as (st' & Hw & Hr' & Hp').
  exists st'. split; [by eapply m_rep | done].
Qed.

Lemma cls_intro p c st rest :
  p c = true -> m_rest st = c :: rest ->
  exists st', matches (Cls p) st st' /\ m_rest st' = rest /\
              m_pos st' = m_pos st + 1.
Proof.
  intros Hp Hr. exists (advance st). split; [by eapply m_cls |].
  unfold advance. rewrite Hr. simpl. split; [done | lia].
Qed.

Lemma lit_intro s :
  forall st rest,
    m_rest st = s ++ rest ->
    exists st', matches (lit s) st st' /\ m_rest st' = rest /\
                m_pos st' = m_pos st + length s.
Proof.
  induction s as [| c s IH]; intros st rest Hr.
  - exists st. split; [constructor |]. split; [done | simpl; lia].
  - destruct (cls_intro (N.eqb c) c st (s ++ rest)) as (st1 & H1 & Hr1 & Hp1);
      [apply N.eqb_refl | done |].
    destruct (IH st1 rest Hr1) as (st2 & H2 & Hr2 & Hp2).
    exists st2. split; [by eapply m_cat |]. split; [done |]. simpl. lia.
Qed.

Lemma group_intro n r st st' :
  matches r st st' ->
  exists st'', matches (Group n r) st st'' /\ m_rest st'' = m_rest st' /\
               m_pos st'' = m_pos st'.
Proof. intros H. eexists. split; [by apply m_group | done]. Qed.

(** ** Finding the first match *)

Lemma scan_intro r n t :
  forall u i j m,
    u = drop i t -> i <= j <= length t ->
    (forall j', i <= j' < j -> attemptAt r n t j' = None) ->
    attemptAt r n t j = Some m ->
    scan r n (prev_at t i) i u = Some m.
Proof.
  induction u as [| c u IH]; intros i j m Hu Hij Hnone Hat.
  - assert (length (drop i t) = 0) as Hl by (by rewrite <- Hu).
    rewrite length_drop in Hl. assert (j = i) as -> by lia.
    simpl. unfold attemptAt in Hat. rewrite <- Hu in Hat. by rewrite Hat.
  - simpl. destruct (decide (j = i)) as [-> | Hne].
    + unfold attemptAt in Hat. rewrite <- Hu in Hat. by rewrite Hat.
    + pose proof (Hnone i) as Hi. unfold attemptAt in Hi. rewrite <- Hu in Hi.
      rewrite Hi by lia.
      rewrite <- (prev_at_S t i c u) by done.
      apply (IH (S i) j m); [| lia | intros; apply Hnone; lia | done].
      replace (S i) with (i + 1) by lia. by rewrite <- drop_drop, <- Hu.
Qed.

Lemma exec_intro r n t li j m :
  li <= j <= length t ->
  (forall j', li <= j' < j -> attemptAt r n t j' = None) ->
  attemptAt r n t j = Some m ->
  exec r n t li = Some m.
Proof.
  intros Hj Hnone Hat. unfold exec.
  destruct (decide (li <= length t)); [| lia].
  by eapply scan_intro.
Qed.

Lemma scan_none_intro r n t :
  forall u i,
    u = drop i t -> i <= length t ->
    (forall j, i <= j <= length t -> attemptAt r n t j = None) ->
    scan r n (prev_at t i) i u = None.
Proof.
  induction u as [| c u IH]; intros i Hu Hi Hnone.
  - simpl. pose proof (Hnone i) as H. unfold attemptAt in H.
    rewrite <- Hu in H. by rewrite H by lia.
  - simpl. pose proof (Hnone i) as H. unfold attemptAt in H.
    rewrite <- Hu in H. rewrite H by lia.
    assert (Hlt : i < length t).
    { destruct (decide (i < length t)); [done |].
      rewrite drop_ge in Hu; [done | lia]. }
    rewrite <- (prev_at_S t i c u) by done.
    apply IH; [| lia | intros; apply Hnone; lia].
    replace (S i) with (i + 1) by lia. by rewrite <- drop_drop, <- Hu.
Qed.

Lemma exec_none_intro r n t li :
  (forall j, li <= j <= length t -> attemptAt r n t j = None) ->
  exec r n t li = None.
Proof.
  intros H. unfold exec. destruct (decide (li <= length t)); [| done].
  by apply scan_none_intro.
Qed.

Lemma found_matchAll r n t li ms :
  found r n t li ms ->
  forall fuel ms', matchAll_loop fuel r n t li = Some ms' -> ms' = ms.
Proof.
  induction 1 as [li E | li m ms E Hf IH]; intros fuel ms' H;
    (destruct fuel as [| fuel]; [done |]); simpl in H; rewrite E in H.
  - by injection H.
  - destruct (matchAll_loop fuel r n t (next_index m)) as [ms0 |] eqn:E0;
      [| done].
    simpl in H. injection H as <-. f_equal. by eapply IH.
Qed.

Lemma found_markers P t ms :
  found (markerRegex P) 4 t 0 ms -> markers P t = ms.
Proof.
  intros H. pose proof (markers_total P t) as Ht.
  by apply (found_matchAll _ _ _ _ _ H) in Ht.
Qed.

(** * Headings in closed form *)

Lemma is_hash_eq c : is_hash c = true -> c = c_hash.
Proof. unfold is_hash. by intros ->%N.eqb_eq. Qed.

Lemma whitespace_not_hash c : isWhiteSpace c = true -> is_hash c = false.
Proof.
  intros Hw. destruct (is_hash c) eqn:E; [| done].
  apply is_hash_eq in E. subst c. vm_compute in Hw. discriminate Hw.
Qed.

Lemma forallb_repeat_hash k : forallb is_hash (repeat_hash k) = true.
Proof. unfold repeat_hash. induction k as [| k IH]; [done |]. exact IH. Qed.

Lemma leading_le p u : leading p u <= length u.
Proof.
  induction u as [| c u IH]; simpl; [lia |]. destruct (p c); simpl; lia.
Qed.

Lemma leading_take p u : forallb p (take (leading p u) u) = true.
Proof.
  induction u as [| c u IH]; [done |]. simpl.
  destruct (p c) eqn:E; [| done]. simpl. by rewrite E, IH.
Qed.

Lemma leading_stop p u c r : drop (leading p u) u = c :: r -> p c = false.
Proof.
  induction u as [| x u IH]; [done |]. simpl.
  destruct (p x) eqn:E; simpl; [done |]. by intros [= <- _].
Qed.

Lemma leading_app p a b :
  forallb p a = true ->
  match b with c :: _ => p c = false | [] => True end ->
  leading p (a ++ b) = length a.
Proof.
  intros Ha Hb. induction a as [| x a IH]; simpl.
  - destruct b as [| c b]; [done |]. simpl. by rewrite Hb.
  - simpl in Ha. apply andb_prop in Ha as [Hx Ha]. by rewrite Hx, IH.
Qed.

Lemma hashes_split u :
  u = repeat_hash (leading is_hash u) ++ drop (leading is_hash u) u.
Proof.
  rewrite <- (take_drop (leading is_hash u) u) at 1. f_equal.
  pose proof (leading_take is_hash u) as H.
  apply (forallb_replicate is_hash) in H.
  rewrite length_take, Nat.min_l in H by apply leading_le. done.
Qed.

Lemma headingLevel_Some u k :
  headingLevel u = Some k <->
  exists c rest, u = repeat_hash k ++ c :: rest /\ 1 <= k <= 6 /\
                 isWhiteSpace c = true.
Proof.
  unfold headingLevel. split.
  - intros H.
    destruct (1 <=? leading is_hash u) eqn:E1; [| done].
    destruct (leading is_hash u <=? 6) eqn:E2; [| done].
    destruct (drop (leading is_hash u) u) as [| c rest] eqn:Ed; [done |].
    simpl in H. destruct (isWhiteSpace c) eqn:Ec; [| done].
    injection H as <-. apply Nat.leb_le in E1, E2.
    exists c, rest. split; [| done].
    rewrite <- Ed. apply hashes_split.
  - intros (c & rest & -> & Hk & Hc).
    rewrite (leading_app is_hash (repeat_hash k) (c :: rest));
      [| apply forallb_repeat_hash | by apply whitespace_not_hash].
    unfold repeat_hash. rewrite length_replicate.
    rewrite drop_app_length' by (by rewrite length_replicate).
    rewrite Hc.
    destruct (1 <=? k) eqn:E1; [| apply Nat.leb_gt in E1; lia].
    destruct (k <=? 6) eqn:E2; [| apply Nat.leb_gt in E2; lia]. done.
Qed.

Lemma at_line_start_initial n t i :
  at_line_start (initial n t i) = atLineStart t i.
Proof. done. Qed.

(** A heading match is at a line start that reads as a heading, of the level
    of the match. *)
Lemma heading_attempt_level t j m :
  j <= length t ->
  attemptAt headingRegex 1 t j = Some m ->
  atLineStart t j = true /\ index m = j /\
  exists k ws,
    headingLevel (drop j t) = Some k /\
    group t m 1 = Some (repeat_hash k) /\
    drop j t = repeat_hash k ++ ws ++ drop (stop m) t /\
    stop m = j + k + length ws /\ stop m <= length t /\
    ws <> [] /\ forallb isWhiteSpace ws = true.
Proof.
  intros Hj Hat.
  apply heading_shape in Hat
    as (k & ws & Hi & Hs & Hsl & Hk & Hws & Hfws & Hsp & Hg & Hls); [| done].
  split; [done |]. split; [done |]. exists k, ws.
  assert (Hd : drop j t = repeat_hash k ++ ws ++ drop (stop m) t).
  { rewrite app_assoc, <- Hsp. symmetry. apply span_drop; lia. }
  assert (Hne : ws <> []) by (intros ->; simpl in Hws; lia).
  repeat split; try done.
  rewrite Hd. apply headingLevel_Some.
  destruct ws as [| c ws']; [done |]. simpl in Hfws.
  apply andb_prop in Hfws as [Hc _].
  exists c, (ws' ++ drop (stop m) t). done.
Qed.

(** A line start that reads as a heading is matched. *)
Lemma heading_attempt_complete t j k :
  atLineStart t j = true ->
  headingLevel (drop j t) = Some k ->
  is_Some (attemptAt headingRegex 1 t j).
Proof.
  intros Hls (c & rest & Hd & Hk & Hc)%headingLevel_Some.
  destruct (rep_intro is_hash 1 (Some 6) true (repeat_hash k)
              (initial 1 t j) (c :: rest)) as (s1 & H1 & Hr1 & Hp1).
  { apply forallb_repeat_hash. }
  { done. }
  { unfold repeat_hash. rewrite length_replicate. lia. }
  { intros mx [= <-]. unfold repeat_hash. rewrite length_replicate. lia. }
  destruct (group_intro 1 _ _ _ H1) as (s2 & H2 & Hr2 & Hp2).
  destruct (rep_intro isWhiteSpace 1 None true [c] s2 rest)
    as (s3 & H3 & Hr3 & Hp3).
  { simpl. by rewrite Hc. }
  { by rewrite Hr2, Hr1. }
  { simpl. lia. }
  { done. }
  apply (attemptAt_complete _ _ _ _ s3).
  eapply m_cat; [by apply m_linestart |].
  eapply m_cat; [exact H2 | exact H3].
Qed.

Lemma lookup_drop_0 (t : text) j c rest : drop j t = c :: rest -> t !! j = Some c.
Proof.
  intros H. pose proof (lookup_drop t j 0) as Hl. rewrite H in Hl.
  simpl in Hl. by rewrite Nat.add_0_r in Hl.
Qed.

Lemma lookup_in_drop (t : text) j p u :
  drop j t = u -> j <= p -> t !! p = u !! (p - j).
Proof.
  intros <- Hp. rewrite lookup_drop. f_equal. lia.
Qed.

(** No heading starts inside a heading match. *)
Lemma no_heading_inside t j m j' k' :
  j <= length t ->
  attemptAt headingRegex 1 t j = Some m ->
  j < j' < stop m ->
  atLineStart t j' = true ->
  headingLevel (drop j' t) = Some k' -> False.
Proof.
  intros Hj Hat Hj' Hls Hh.
  apply heading_attempt_level in Hat
    as (_ & _ & k & ws & _ & _ & Hd & Hs & Hsl & Hne & Hfws); [| done].
  apply headingLevel_Some in Hh as (c & rest & Hd' & Hk' & Hc).
  destruct k' as [| k']; [lia |]. simpl in Hd'.
  apply lookup_drop_0 in Hd'.
  destruct (decide (j' <= j + k)) as [Hin | Hout].
  - destruct j' as [| p]; [lia |].
    unfold atLineStart in Hls. simpl in Hls.
    rewrite (lookup_in_drop t j p _ Hd) in Hls by lia.
    rewrite lookup_app_l in Hls
      by (unfold repeat_hash; rewrite length_replicate; lia).
    unfold repeat_hash in Hls. rewrite lookup_replicate_2 in Hls by lia.
    vm_compute in Hls. discriminate Hls.
  - rewrite (lookup_in_drop t j j' _ Hd) in Hd' by lia.
    rewrite lookup_app_r in Hd'
      by (unfold repeat_hash; rewrite length_replicate; lia).
    unfold repeat_hash in Hd'. rewrite length_replicate in Hd'.
    rewrite lookup_app_l in Hd' by lia.
    apply list_elem_of_lookup_2 in Hd'.
    rewrite forallb_forall in Hfws.
    apply list_elem_of_In in Hd'. apply Hfws in Hd'.
    vm_compute in Hd'. discriminate Hd'.
Qed.

(** The loop skips no heading that would end the region. *)
Lemma headingLoop_skips t maxLevel :
  forall fuel li r,
    li <= length t ->
    headingLoop fuel t li maxLevel = Some r ->
    forall j k,
      li <= j < r -> atLineStart t j = true ->
      headingLevel (drop j t) = Some k -> maxLevel < k.
Proof.
  induction fuel as [| fuel IH]; intros li r Hli H j k Hj Hls Hh; [done |].
  simpl in H.
  destruct (heading_attempt_complete t j k Hls Hh) as [mj Hmj].
  destruct (exec headingRegex 1 t li) as [m |] eqn:E.
  - apply exec_spec in E as (j0 & Hj0 & Hat & Hnone).
    pose proof Hat as Hat'.
    apply heading_attempt_level in Hat'
      as (_ & Hi & k0 & ws & Hh0 & Hg & _ & Hs & Hsl & _); [| lia].
    assert (Hge : j0 <= j).
    { destruct (decide (j0 <= j)); [done |].
      rewrite (Hnone j) in Hmj by lia. done. }
    rewrite Hg in H. simpl in H. unfold repeat_hash in H.
    rewrite length_replicate in H.
    destruct (k0 <=? maxLevel) eqn:El.
    + injection H as <-. lia.
    + apply Nat.leb_gt in El.
      destruct (decide (j = j0)) as [-> | Hne].
      { rewrite Hh0 in Hh. injection Hh as <-. done. }
      destruct (decide (j < stop m)) as [Hin | Hout].
      { exfalso. apply (no_heading_inside t j0 m j k); try done; lia. }
      apply (IH (stop m) r Hsl H j k); [lia | done | done].
  - injection H as <-.
    rewrite (exec_none _ _ _ _ E j) in Hmj by lia. discriminate Hmj.
Qed.

(** X17: no heading that would end the region is skipped: between the start
    of the search and the end that [findNextHeadingBoundary] answers with,
    every line start that reads as a heading reads as one of a level above
    [maxLevel]. *)
Theorem region_end_skips_no_heading
    (t : text) (startPos maxLevel j k : nat) :
  startPos <= j < findNextHeadingBoundary t startPos maxLevel ->
  atLineStart t j = true ->
  headingLevel (drop j t) = Some k ->
  maxLevel < k.
Proof.
  unfold findNextHeadingBoundary. intros Hj Hls Hh.
  destruct (headingLoop_total t maxLevel (2 + length t) startPos) as [r Hr];
    [lia | lia |].
  rewrite Hr in Hj. simpl in Hj.
  assert (Hs : startPos <= length t).
  { destruct (decide (startPos <= length t)); [done |].
    simpl in Hr. unfold exec in Hr.
    destruct (decide (startPos <= length t)); [done |].
    injection Hr as <-. lia. }
  by apply (headingLoop_skips t maxLevel _ _ _ Hs Hr j k).
Qed.

Lemma region_end_skips_no_heading_witness :
  findNextHeadingBoundary trivialSpliced 76 3 = 150 /\
  headingLevel (drop 77 trivialSpliced) = Some 4 /\ 3 < 4.
Proof.
  assert (H1 : findNextHeadingBoundary trivialSpliced 76 3 = 150)
    by (vm_compute; reflexivity).
  assert (H2 : headingLevel (drop 77 trivialSpliced) = Some 4)
    by (vm_compute; reflexivity).
  split; [exact H1 |]. split; [exact H2 |].
  apply (region_end_skips_no_heading trivialSpliced 76 3 77 4).
  - rewrite H1. lia.
  - vm_compute. reflexivity.
  - exact H2.
Defined.

(** * The markers of a document in normal form *)

(** ** Texts *)

Lemma terminator_not_dot c : isLineTerminator c = true -> is_dot c = false.
Proof. unfold is_dot. by intros ->. Qed.

Lemma terminator_not_hash c : isLineTerminator c = true -> is_hash c = false.
Proof.
  intros H. destruct (is_hash c) eqn:E; [| done].
  apply is_hash_eq in E. subst c. vm_compute in H. discriminate H.
Qed.

Lemma terminator_whitespace c : isLineTerminator c = true -> isWhiteSpace c = true.
Proof. intros H. unfold isWhiteSpace. rewrite H. apply orb_true_r. Qed.

Lemma forallb_app_iff {A} (p : A -> bool) a b :
  forallb p (a ++ b) = true <-> forallb p a = true /\ forallb p b = true.
Proof. rewrite forallb_app. apply andb_true_iff. Qed.

Lemma forallb_last {A} (p : A -> bool) l c :
  forallb p l = true -> list.last l = Some c -> p c = true.
Proof.
  intros Hf Hl. apply last_Some in Hl as [l' ->].
  apply forallb_app_iff in Hf as [_ Hc]. simpl in Hc.
  by apply andb_prop in Hc as [Hc _].
Qed.

(** Two runs of a class that end before a character outside it. *)
Lemma run_unique (p : char -> bool) a b x y ra rb :
  forallb p a = true -> forallb p b = true ->
  p x = false -> p y = false ->
  a ++ x :: ra = b ++ y :: rb -> a = b /\ x :: ra = y :: rb.
Proof.
  revert b. induction a as [| c a IH]; intros b Ha Hb Hx Hy H.
  - destruct b as [| d b]; [done |].
    simpl in H. injection H as -> _. simpl in Hb.
    apply andb_prop in Hb as [Hd _]. congruence.
  - destruct b as [| d b].
    + simpl in H. injection H as -> _. simpl in Ha.
      apply andb_prop in Ha as [Hc _]. congruence.
    + simpl in H. injection H as -> H. simpl in Ha, Hb.
      apply andb_prop in Ha as [_ Ha]. apply andb_prop in Hb as [_ Hb].
      destruct (IH b Ha Hb Hx Hy H) as [-> Hr]. done.
Qed.

(** A text that ends in a line terminator and is the start of some white
    space, a line and more, is the start of the white space. *)
Lemma terminated_in_head (X Y H line Z : text) c0 :
  X ++ Y = H ++ line ++ Z ->
  list.last X = Some c0 -> isLineTerminator c0 = true ->
  forallb is_dot line = true ->
  length X <= length (H ++ line) ->
  exists e, H = X ++ e.
Proof.
  intros Heq Hl Hc0 Hdot Hlen.
  apply app_eq_inv in Heq as [(k & -> & HY) | (k & -> & Hk)].
  - (* X = H ++ k, with k a piece of the line *)
    destruct (list.last k) as [c |] eqn:Ek.
    + rewrite last_app, Ek in Hl. injection Hl as ->.
      rewrite length_app in Hlen. rewrite length_app in Hlen.
      assert (Hkl : length k <= length line) by lia.
      apply app_eq_inv in HY as [(k' & Hline & _) | (k' & -> & _)].
      * rewrite Hline in Hdot. apply forallb_app_iff in Hdot as [Hdot _].
        pose proof (forallb_last _ _ _ Hdot Ek) as Hd.
        by rewrite terminator_not_dot in Hd.
      * rewrite length_app in Hkl.
        assert (k' = []) as -> by (destruct k'; [done | simpl in Hkl; lia]).
        rewrite app_nil_r in Ek.
        pose proof (forallb_last _ _ _ Hdot Ek) as Hd.
        by rewrite terminator_not_dot in Hd.
    + apply last_None in Ek. subst k. exists []. by rewrite !app_nil_r.
  - by exists k.
Qed.

(** The start of some [#] and white space that ends in a line terminator is
    dangling. *)
Lemma dangling_intro (X e : text) k ws c0 :
  repeat_hash k ++ ws = X ++ e ->
  1 <= k <= 6 -> forallb isWhiteSpace ws = true ->
  list.last X = Some c0 -> isLineTerminator c0 = true ->
  isDangling X = true.
Proof.
  intros Heq Hk Hws Hl Hc0.
  apply app_eq_inv in Heq as [(w & Hh & _) | (w & -> & Hw)].
  - (* X inside the hashes *)
    pose proof (forallb_repeat_hash k) as Hf. rewrite Hh in Hf.
    apply forallb_app_iff in Hf as [Hf _].
    pose proof (forallb_last _ _ _ Hf Hl) as Hc.
    by rewrite terminator_not_hash in Hc.
  - assert (Hww : forallb isWhiteSpace w = true).
    { rewrite Hw in Hws. by apply forallb_app_iff in Hws as [Hws _]. }
    assert (Hne : w <> []).
    { intros ->. rewrite app_nil_r in Hl.
      pose proof (forallb_last _ _ _ (forallb_repeat_hash k) Hl) as Hc.
      by rewrite terminator_not_hash in Hc. }
    unfold isDangling.
    rewrite (leading_app is_hash (repeat_hash k) w);
      [| apply forallb_repeat_hash |].
    2:{ destruct w as [| c w']; [done |]. simpl in Hww.
        apply andb_prop in Hww as [Hc _]. by apply whitespace_not_hash. }
    unfold repeat_hash. rewrite length_replicate.
    rewrite drop_app_length' by (by rewrite length_replicate).
    rewrite length_app, length_replicate. rewrite Hww.
    destruct (1 <=? k) eqn:E1; [| apply Nat.leb_gt in E1; lia].
    destruct (k <=? 6) eqn:E2; [| apply Nat.leb_gt in E2; lia].
    destruct (k <? k + length w) eqn:E3; [done |].
    apply Nat.ltb_ge in E3. destruct w; [done | simpl in E3; lia].
Qed.

Lemma lineStartsAll_split f :
  forall Q1 Q2 ls,
    lineStartsAll f ls (Q1 ++ Q2) = true ->
    Q2 <> [] ->
    match list.last Q1 with
    | None => ls
    | Some c => isLineTerminator c
    end = true ->
    f Q2 = true.
Proof.
  induction Q1 as [| c Q1 IH]; intros Q2 ls H Hne Hls.
  - destruct Q2 as [| c Q2]; [done |]. simpl in *. subst ls.
    by apply andb_prop in H as [H _].
  - simpl in H. apply andb_prop in H as [_ H].
    apply (IH Q2 _ H Hne).
    rewrite last_cons in Hls. destruct (list.last Q1); done.
Qed.

Lemma startsWith_short p a b :
  length p <= length a -> startsWith p (a ++ b) = startsWith p a.
Proof.
  revert a. induction p as [| c p IH]; intros a H; [by destruct a |].
  destruct a as [| d a]; [simpl in H; lia |].
  simpl. rewrite IH; [done | simpl in H; lia].
Qed.

Lemma noEarly_spec P X k W :
  noEarly P X = true -> k < length X ->
  startsWith P (drop k (X ++ P ++ W)) = false.
Proof.
  intros H Hk. unfold noEarly in H. rewrite forallb_forall in H.
  specialize (H k). rewrite negb_true_iff in H.
  rewrite app_assoc, drop_app_le by (rewrite length_app; lia).
  rewrite startsWith_short.
  - apply H. apply in_seq. lia.
  - rewrite length_drop, length_app. lia.
Qed.

Lemma prev_at_app (a b : text) :
  prev_at (a ++ b) (length a) = list.last a.
Proof.
  destruct a as [| c a] using rev_ind; [done |].
  rewrite length_app. simpl. rewrite Nat.add_1_r. simpl.
  rewrite last_snoc, <- app_assoc. simpl.
  by apply list_lookup_middle.
Qed.

(** ** The shape of a marker match, read from its start *)

Lemma marker_heading_line_start P t i m :
  i <= length t ->
  attemptAt (markerRegex P) 4 t i = Some m ->
  group t m 2 <> None ->
  atLineStart t i = true.
Proof.
  intros Hi H Hg2.
  apply attemptAt_sound in H as (st' & Hm & Ha' & Hidx & Hstop & Hcaps & Hb);
    [| apply markerRegex_bounds | done].
  pose proof (initial_aligned 4 t i Hi) as Ha0.
  apply matches_cat_inv in Hm as (st1 & Hopt & Hm).
  apply matches_group_inv in Hm as (st3 & Hline & ->).
  apply matches_opt_inv in Hopt as [-> | [Hg _]].
  - destruct (marker_line_shape P t _ st3 Ha0 Hline)
      as (line & xs & file & zs & _ & _ & _ & _ & _ & _ & a & b & Hc4 & _).
    exfalso. apply Hg2. unfold group. rewrite Hcaps. simpl. by rewrite Hc4.
  - apply matches_group_inv in Hg as (s1 & Hg & ->).
    apply matches_cat_inv in Hg as (s0 & Hls & Hg).
    by apply matches_linestart_inv in Hls as [-> Hls].
Qed.

Lemma marker_shape_suffix P t i m :
  i <= length t ->
  attemptAt (markerRegex P) 4 t i = Some m ->
  exists H line xs file zs,
    drop i t = H ++ line ++ [c_nl] ++ P ++ xs ++ file ++ zs ++ [c_nl] ++
               drop (stop m) t /\
    index m = i /\
    stop m = i + length (H ++ line ++ [c_nl] ++ P ++ xs ++ file ++ zs ++ [c_nl]) /\
    forallb is_dot line = true /\ forallb cls_lead xs = true /\
    forallb cls_file file = true /\ file <> [] /\
    forallb cls_term zs = true /\
    group t m 3 = Some (line ++ [c_nl] ++ P ++ xs ++ file ++ zs ++ [c_nl]) /\
    group t m 4 = Some file /\
    ((H = [] /\ group t m 2 = None) \/
     (exists k ws,
        H = repeat_hash k ++ ws /\ 1 <= k <= 6 /\ ws <> [] /\
        forallb isWhiteSpace ws = true /\
        group t m 2 = Some (repeat_hash k) /\ atLineStart t i = true)).
Proof.
  intros Hi Hat.
  destruct (marker_shape P t i m Hi Hat)
    as (i3 & line & xs & file & zs & Hidx & H1 & H2 & H3 & Hsp & Hd & Hl & Hf
        & Hne & Hz & Hg3 & Hg4 & Hhead).
  exists (span t i i3), line, xs, file, zs.
  assert (Hdrop : drop i t = span t i i3 ++ span t i3 (stop m) ++ drop (stop m) t).
  { rewrite app_assoc, span_app by lia. symmetry. apply span_drop; lia. }
  split.
  { rewrite Hdrop, Hsp. by rewrite <- !app_assoc. }
  split; [done |]. split.
  { rewrite length_app, <- Hsp, !span_length by lia. lia. }
  repeat (split; [done |]). split; [by rewrite Hg3, Hsp |].
  split; [done |].
  destruct Hhead as [(Hg2 & _ & ->) | (k & ws & Hk & Hws & Hfws & Hspan & Hg2 & _)].
  - left. split; [apply span_nil | done].
  - right. exists k, ws. repeat (split; [done |]).
    apply (marker_heading_line_start P t i m Hi Hat). by rewrite Hg2.
Qed.

(** ** No marker starts in the text before a marker *)

Lemma no_marker_in_gap P pre Q1 Q2 M W :
  Q2 <> [] ->
  noEarly P ((Q1 ++ Q2) ++ M ++ [c_nl]) = true ->
  noDangling (Q1 ++ Q2) = true ->
  endsLine (Q1 ++ Q2) = true ->
  attemptAt (markerRegex P) 4
    (pre ++ (Q1 ++ Q2) ++ M ++ [c_nl] ++ P ++ W) (length pre + length Q1)
  = None.
Proof.
  intros Hne Hearly Hdang Hends.
  set (t := pre ++ (Q1 ++ Q2) ++ M ++ [c_nl] ++ P ++ W).
  set (j := length pre + length Q1).
  destruct (attemptAt (markerRegex P) 4 t j) as [m |] eqn:Hat; [exfalso | done].
  assert (Ht : t = (pre ++ Q1) ++ Q2 ++ M ++ [c_nl] ++ P ++ W).
  { unfold t. by rewrite <- !app_assoc. }
  assert (Hj : j = length (pre ++ Q1)) by (unfold j; by rewrite length_app).
  assert (Hjt : j <= length t).
  { rewrite Ht, Hj, (length_app (pre ++ Q1)). lia. }
  assert (Hdrop : drop j t = Q2 ++ M ++ [c_nl] ++ P ++ W).
  { rewrite Ht, Hj. apply drop_app_length. }
  destruct (marker_shape_suffix P t j m Hjt Hat)
    as (H & line & xs & file & zs & Hd & _ & _ & Hdot & _ & _ & _ & _ & _ & _
        & Hhead).
  rewrite Hdrop in Hd.
  (* the phrase of the match is not before the phrase of the marker *)
  assert (Hlen : length Q2 + length M + 1 <= length (H ++ line) + 1).
  { destruct (decide (length Q2 + length M + 1 <= length (H ++ line) + 1));
      [done | exfalso].
    pose proof (noEarly_spec P ((Q1 ++ Q2) ++ M ++ [c_nl])
                  (length Q1 + (length (H ++ line) + 1)) W Hearly) as Hn.
    rewrite <- !app_assoc in Hn.
    rewrite <- drop_drop, drop_app_length in Hn.
    replace (Q2 ++ M ++ [c_nl] ++ P ++ W)
      with ((H ++ line ++ [c_nl]) ++ P ++ xs ++ file ++ zs ++ [c_nl] ++
            drop (stop m) t) in Hn
      by (rewrite Hd; by rewrite <- !app_assoc).
    rewrite drop_app_length' in Hn
      by (rewrite !length_app; simpl; lia).
    rewrite startsWith_app in Hn.
    assert (true = false); [| done]. apply Hn.
    rewrite !length_app. simpl. rewrite length_app in n. lia. }
  (* so the text up to the end of the gap is in the heading of the match *)
  assert (Hlast : exists c0, list.last Q2 = Some c0 /\ isLineTerminator c0 = true).
  { unfold endsLine in Hends. rewrite last_app in Hends.
    destruct (list.last Q2) as [c0 |] eqn:E; [by exists c0 |].
    by apply last_None in E. }
  destruct Hlast as (c0 & Hl & Hc0).
  destruct (terminated_in_head Q2 (M ++ [c_nl] ++ P ++ W) H line
              ([c_nl] ++ P ++ xs ++ file ++ zs ++ [c_nl] ++ drop (stop m) t) c0)
    as [e He]; [exact Hd | done | done | done | lia |].
  destruct Hhead as [[-> _] | (k & ws & HH & Hk & _ & Hfws & _ & Hls)].
  { by destruct Q2. }
  assert (Hd2 : isDangling Q2 = true).
  { apply (dangling_intro Q2 e k ws c0); try done. by rewrite <- HH. }
  assert (Hnd : negb (isDangling Q2) = true).
  { apply (lineStartsAll_split _ Q1 Q2 true Hdang Hne).
    destruct (list.last Q1) as [c |] eqn:E; [| done].
    unfold atLineStart in Hls. rewrite Ht, Hj, prev_at_app in Hls.
    rewrite last_app, E in Hls. done. }
  by rewrite Hd2 in Hnd.
Qed.

(** ** The marker of a block is matched *)

Lemma markerRegex_parts P :
  markerRegex P = Cat (Opt headingPart [1; 2]) (Group 3 (linePart P)).
Proof. done. Qed.

Lemma linePart_intro P title lead file term rest st :
  m_rest st = title ++ [c_nl] ++ P ++ lead ++ file ++ term ++ [c_nl] ++ rest ->
  forallb is_dot title = true -> forallb cls_lead lead = true ->
  forallb cls_file file = true -> file <> [] ->
  forallb cls_term term = true ->
  exists st', matches (Group 3 (linePart P)) st st' /\
              m_pos st' = m_pos st +
                length (title ++ [c_nl] ++ P ++ lead ++ file ++ term ++ [c_nl]).
Proof.
  intros Hr Ht Hl Hf Hne Hz.
  destruct (rep_intro is_dot 0 None false title st _ Ht Hr) as (s1 & H1 & Hr1 & Hp1);
    [lia | done |].
  destruct (cls_intro is_nl c_nl s1 _ eq_refl Hr1) as (s2 & H2 & Hr2 & Hp2).
  destruct (lit_intro P s2 _ Hr2) as (s3 & H3 & Hr3 & Hp3).
  destruct (rep_intro cls_lead 0 None true lead s3 _ Hl Hr3)
    as (s4 & H4 & Hr4 & Hp4); [lia | done |].
  destruct (rep_intro cls_file 1 None true file s4 _ Hf Hr4)
    as (s5 & H5 & Hr5 & Hp5); [destruct file; [done | simpl; lia] | done |].
  destruct (group_intro 4 _ _ _ H5) as (s5' & H5' & Hr5' & Hp5').
  rewrite <- Hr5' in Hr5.
  destruct (rep_intro cls_term 0 None true term s5' _ Hz Hr5)
    as (s6 & H6 & Hr6 & Hp6); [lia | done |].
  destruct (cls_intro is_nl c_nl s6 _ eq_refl Hr6) as (s7 & H7 & Hr7 & Hp7).
  eexists. split.
  - apply m_group. unfold linePart.
    eapply m_cat; [exact H1 |]. eapply m_cat; [exact H2 |].
    eapply m_cat; [exact H3 |]. eapply m_cat; [exact H4 |].
    eapply m_cat; [exact H5' |]. eapply m_cat; [exact H6 | exact H7].
  - simpl. rewrite Hp7, Hp6, Hp5', Hp5, Hp4, Hp3, Hp2, Hp1.
    repeat (rewrite length_app; simpl). lia.
Qed.

Lemma headingPart_intro k rest st0 :
  at_line_start st0 = true ->
  m_rest st0 = repeat_hash k ++ [c_space] ++ rest ->
  1 <= k <= 6 ->
  exists st1, matches headingPart (clear_caps [1; 2] st0) st1 /\
              m_rest st1 = rest /\ m_pos st1 = m_pos st0 + k + 1.
Proof.
  intros Hls Hr Hk.
  destruct (rep_intro is_hash 1 (Some 6) true (repeat_hash k)
              (clear_caps [1; 2] st0) ([c_space] ++ rest))
    as (s1 & H1 & Hr1 & Hp1).
  { apply forallb_repeat_hash. }
  { done. }
  { unfold repeat_hash. rewrite length_replicate. lia. }
  { intros mx [= <-]. unfold repeat_hash. rewrite length_replicate. lia. }
  destruct (group_intro 2 _ _ _ H1) as (s2 & H2 & Hr2 & Hp2).
  destruct (rep_intro isWhiteSpace 1 None true [c_space] s2 rest)
    as (s3 & H3 & Hr3 & Hp3).
  { done. }
  { by rewrite Hr2, Hr1. }
  { simpl. lia. }
  { done. }
  eexists. split.
  - apply m_group. eapply m_cat; [by apply m_linestart |].
    eapply m_cat; [exact H2 | exact H3].
  - simpl. split; [done |]. rewrite Hp3, Hp2, Hp1. simpl.
    unfold repeat_hash. rewrite length_replicate. lia.
Qed.

(** The caps of a path through the heading part and through the line
    part. *)
Lemma headingPart_caps st st1 :
  matches headingPart (clear_caps [1; 2] st) st1 ->
  m_caps st = replicate 5 None ->
  exists a b c d,
    m_caps st1 = [None; Some (a, b); Some (c, d); None; None].
Proof.
  intros Hg Hc.
  apply matches_group_inv in Hg as (s1 & Hg & ->).
  apply matches_cat_inv in Hg as (s0 & Hls & Hg).
  apply matches_linestart_inv in Hls as [-> _].
  apply matches_cat_inv in Hg as (s2 & Hh & Hws).
  apply matches_group_inv in Hh as (s2' & Hh & ->).
  apply matches_rep_inv in Hh as (w & _ & _ & _ & _ & Hcw).
  apply matches_rep_inv in Hws as (ws & _ & _ & _ & _ & Hcws).
  simpl in *. rewrite Hcws. simpl. rewrite Hcw, Hc. simpl.
  by eexists _, _, _, _.
Qed.

Lemma linePart_caps P st1 st3 :
  matches (linePart P) st1 st3 ->
  exists x, m_caps st3 = <[4 := x]> (m_caps st1).
Proof.
  intros H.
  apply matches_cat_inv in H as (s1 & H1 & H).
  apply matches_rep_inv in H1 as (line & _ & _ & _ & _ & Hc1).
  apply matches_cat_inv in H as (s2 & H2 & H).
  apply matches_cls_inv in H2 as (c & _ & _ & Hc2).
  apply matches_cat_inv in H as (s3 & H3 & H).
  apply matches_lit_inv in H3 as [_ Hc3].
  apply matches_cat_inv in H as (s4 & H4 & H).
  apply matches_rep_inv in H4 as (xs & _ & _ & _ & _ & Hc4).
  apply matches_cat_inv in H as (s5 & H5 & H).
  apply matches_group_inv in H5 as (s5' & H5 & ->).
  apply matches_rep_inv in H5 as (file & _ & _ & _ & _ & Hc5).
  apply matches_cat_inv in H as (s6 & H6 & H).
  apply matches_rep_inv in H6 as (zs & _ & _ & _ & _ & Hc6).
  apply matches_cls_inv in H as (c' & _ & _ & Hc7).
  eexists. rewrite Hc7, Hc6. simpl. by rewrite Hc5, Hc4, Hc3, Hc2, Hc1.
Qed.

(** When the heading part has a path that the line part can go on from, the
    match has a heading. *)
Lemma marker_prefers_heading P t i m st1 st2 :
  matches headingPart (clear_caps [1; 2] (initial 4 t i)) st1 ->
  m_pos st1 <> i ->
  matches (Group 3 (linePart P)) st1 st2 ->
  attemptAt (markerRegex P) 4 t i = Some m ->
  exists a b, caps m !! 2 = Some (Some (a, b)).
Proof.
  intros H1 Hpos H2 Hat.
  unfold attemptAt, attempt in Hat. fold (initial 4 t i) in Hat.
  rewrite markerRegex_parts in Hat.
  change (run (Cat (Opt headingPart [1; 2]) (Group 3 (linePart P)))
            (initial 4 t i) Some)
    with (match run headingPart (clear_caps [1; 2] (initial 4 t i))
                  (fun st' => if m_pos st' =? m_pos (initial 4 t i) then None
                              else run (Group 3 (linePart P)) st' Some) with
          | Some z => Some z
          | None => run (Group 3 (linePart P)) (initial 4 t i) Some
          end) in Hat.
  destruct (run_complete _ _ _ H2 Some st2 eq_refl) as [z2 Hz2].
  destruct (run_complete _ _ _ H1
              (fun st' => if m_pos st' =? m_pos (initial 4 t i) then None
                          else run (Group 3 (linePart P)) st' Some) z2)
    as [z Hz].
  { simpl. apply Nat.eqb_neq in Hpos. by rewrite Hpos. }
  rewrite Hz in Hat. simpl in Hat. injection Hat as <-. simpl.
  apply run_sound in Hz as (s1 & Hm1 & Hk); [| simpl; lia].
  destruct (m_pos s1 =? m_pos (initial 4 t i)); [done |].
  apply run_sound in Hk as (s2 & Hm2 & Hk);
    [| simpl; repeat split; try lia; apply bounds_ok_lit].
  injection Hk as <-.
  apply headingPart_caps in Hm1 as (a & b & c & d & Hc1); [| done].
  apply matches_group_inv in Hm2 as (s3 & Hm2 & ->).
  apply linePart_caps in Hm2 as [x Hc3].
  simpl. rewrite Hc3, Hc1. simpl. by eexists _, _.
Qed.

(** ** The marker of a block is the only way to read its text *)

Lemma cls_lead_term c : cls_lead c = true -> cls_term c = true.
Proof.
  unfold cls_lead, cls_term, char_in. simpl.
  rewrite !orb_false_r. intros [H | H]%orb_prop; rewrite H;
    by rewrite ?orb_true_r.
Qed.

Lemma cls_file_not_term c : cls_file c = true -> cls_term c = false.
Proof. unfold cls_file. by intros ->%negb_true_iff. Qed.

Lemma cls_file_not_lead c : cls_file c = true -> cls_lead c = false.
Proof.
  intros H%cls_file_not_term. destruct (cls_lead c) eqn:E; [| done].
  apply cls_lead_term in E. congruence.
Qed.

Lemma cls_term_not_file c : cls_term c = true -> cls_file c = false.
Proof. unfold cls_file. by intros ->. Qed.

Lemma dangling_heading X : isDangling X = true -> exists k, headingLevel X = Some k.
Proof.
  unfold isDangling, headingLevel. intros H.
  apply andb_prop in H as [H Hws]. apply andb_prop in H as [H Hlt].
  rewrite H. apply Nat.ltb_lt in Hlt.
  destruct (drop (leading is_hash X) X) as [| c r] eqn:E.
  { apply (f_equal length) in E. rewrite length_drop in E. simpl in E. lia. }
  simpl in Hws. apply andb_prop in Hws as [-> _]. by eexists.
Qed.

(** The part of the marker text after the phrase. *)
Lemma marker_tail_unique (xs file' zs rest' lead file term rest : text) :
  xs ++ file' ++ zs ++ [c_nl] ++ rest' = lead ++ file ++ term ++ [c_nl] ++ rest ->
  forallb cls_lead xs = true -> forallb cls_file file' = true -> file' <> [] ->
  forallb cls_term zs = true ->
  forallb cls_lead lead = true ->
  forallb (fun c => cls_file c && negb (is_nl c)) file = true -> file <> [] ->
  forallb cls_term term = true -> term <> [] ->
  xs = lead /\ file' = file /\ zs = term /\ rest' = rest.
Proof.
  intros Heq Hxs Hf' Hne' Hzs Hlead Hf Hne Hterm Hnt.
  assert (Hfile : forallb cls_file file = true).
  { rewrite forallb_forall in Hf. apply forallb_forall. intros c Hc.
    by apply Hf, andb_prop in Hc as [Hc _]. }
  destruct file' as [| f0 file']; [done |].
  destruct file as [| g0 file]; [done |].
  destruct term as [| t0 term]; [done |].
  simpl in Hf', Hfile, Hterm.
  apply andb_prop in Hf' as [Hf0 Hf'].
  apply andb_prop in Hfile as [Hg0 Hfile].
  apply andb_prop in Hterm as [Ht0 Hterm].
  destruct (run_unique cls_lead xs lead f0 g0
              (file' ++ zs ++ [c_nl] ++ rest')
              (file ++ (t0 :: term) ++ [c_nl] ++ rest)) as [-> Heq2];
    [done | done | by apply cls_file_not_lead | by apply cls_file_not_lead
    | exact Heq |].
  split; [done |].
  assert (Hfz : f0 :: file' = g0 :: file /\
                zs ++ [c_nl] ++ rest' = (t0 :: term) ++ [c_nl] ++ rest).
  { destruct zs as [| z0 zs].
    - exfalso. simpl in Heq2.
      change (f0 :: file' ++ c_nl :: rest')
        with ((f0 :: file') ++ c_nl :: rest') in Heq2.
      change (g0 :: file ++ t0 :: term ++ c_nl :: rest)
        with ((g0 :: file) ++ t0 :: term ++ c_nl :: rest) in Heq2.
      apply app_eq_inv in Heq2 as [(k & Hk1 & Hk2) | (k & Hk1 & Hk2)].
      + destruct k as [| k0 k].
        * simpl in Hk2. injection Hk2 as -> _. vm_compute in Ht0. discriminate Ht0.
        * simpl in Hk2. injection Hk2 as <- _.
          assert (Hin : forallb cls_file (f0 :: file') = true)
            by (simpl; by rewrite Hf0, Hf').
          rewrite Hk1 in Hin. apply forallb_app_iff in Hin as [_ Hin].
          simpl in Hin. apply andb_prop in Hin as [Hin _].
          by rewrite (cls_term_not_file _ Ht0) in Hin.
      + destruct k as [| k0 k].
        * simpl in Hk2. injection Hk2 as <- _. vm_compute in Ht0. discriminate Ht0.
        * simpl in Hk2. injection Hk2 as <- _.
          rewrite Hk1 in Hf. apply forallb_app_iff in Hf as [_ Hf].
          simpl in Hf. discriminate Hf.
    - simpl in Hzs. apply andb_prop in Hzs as [Hz0 _].
      change (f0 :: file' ++ (z0 :: zs) ++ [c_nl] ++ rest')
        with ((f0 :: file') ++ z0 :: (zs ++ [c_nl] ++ rest')) in Heq2.
      change (g0 :: file ++ (t0 :: term) ++ [c_nl] ++ rest)
        with ((g0 :: file) ++ t0 :: (term ++ [c_nl] ++ rest)) in Heq2.
      apply (run_unique cls_file) in Heq2;
        [done | simpl; by rewrite Hf0, Hf' | simpl; by rewrite Hg0, Hfile
        | by apply cls_term_not_file | by apply cls_term_not_file]. }
  destruct Hfz as [Hfeq Heq3]. split; [done |].
  change (zs ++ [c_nl] ++ rest') with (zs ++ c_nl :: rest') in Heq3.
  change ((t0 :: term) ++ [c_nl] ++ rest) with ((t0 :: term) ++ c_nl :: rest) in Heq3.
  apply (run_unique cls_term) in Heq3;
    [| done | simpl; by rewrite Ht0, Hterm | done | done].
  destruct Heq3 as [-> Hr]. by injection Hr as ->.
Qed.

(** The part of the marker text before the phrase. *)
Lemma marker_head_unique P (heading title Y H line Z : text) :
  H ++ line ++ [c_nl] ++ P ++ Z = heading ++ title ++ [c_nl] ++ P ++ Y ->
  forallb is_dot line = true ->
  noEarly P (heading ++ title ++ [c_nl]) = true ->
  (H = [] \/
   exists k ws, H = repeat_hash k ++ ws /\ 1 <= k <= 6 /\ ws <> [] /\
                forallb isWhiteSpace ws = true) ->
  ((heading = [] /\ headingLevel (title ++ [c_nl]) = None) \/
   (exists k c title',
      heading = repeat_hash k ++ [c_space] /\ title = c :: title' /\
      isWhiteSpace c = false /\ H <> [])) ->
  H = heading /\ line = title /\ Z = Y.
Proof.
  intros Heq Hdot Hearly HH Hblock.
  (* the phrase of the match is not before the phrase of the marker *)
  assert (H1 : length (heading ++ title) <= length (H ++ line)).
  { destruct (decide (length (heading ++ title) <= length (H ++ line)));
      [done | exfalso].
    pose proof (noEarly_spec P (heading ++ title ++ [c_nl])
                  (length (H ++ line) + 1) Y Hearly) as Hn.
    replace ((heading ++ title ++ [c_nl]) ++ P ++ Y)
      with ((H ++ line ++ [c_nl]) ++ P ++ Z) in Hn
      by (rewrite <- !app_assoc; exact Heq).
    rewrite drop_app_length' in Hn by (rewrite !length_app; simpl; lia).
    rewrite startsWith_app in Hn.
    assert (true = false); [| done]. apply Hn.
    rewrite !length_app in *. simpl. lia. }
  (* nor behind it *)
  assert (H2 : length (H ++ line) <= length (heading ++ title)).
  { destruct (decide (length (H ++ line) <= length (heading ++ title)));
      [done | exfalso].
    destruct (terminated_in_head (heading ++ title ++ [c_nl]) (P ++ Y) H line
                ([c_nl] ++ P ++ Z) c_nl) as [e He].
    { rewrite <- !app_assoc. by rewrite Heq. }
    { by rewrite !app_assoc, last_snoc. }
    { done. }
    { done. }
    { rewrite !length_app in *. simpl. lia. }
    destruct HH as [-> | (k' & ws & HH & Hk' & Hws & Hfws)].
    { by destruct heading, title. }
    destruct Hblock as [[-> Hnone] | (k & c & title' & -> & -> & Hc & _)].
    - simpl in He.
      assert (Hd : isDangling (title ++ [c_nl]) = true).
      { apply (dangling_intro _ e k' ws c_nl); try done.
        - by rewrite <- HH.
        - by rewrite last_snoc. }
      apply dangling_heading in Hd as [k Hk]. congruence.
    - destruct ws as [| w0 ws']; [done |]. simpl in Hfws.
      apply andb_prop in Hfws as [Hw0 Hfws].
      rewrite HH in He. rewrite <- !app_assoc in He. simpl in He.
      apply (run_unique is_hash) in He as [_ He];
        [| apply forallb_repeat_hash | apply forallb_repeat_hash
         | by apply whitespace_not_hash | done].
      injection He as _ ->. simpl in Hfws.
      apply andb_prop in Hfws as [Hcw _]. congruence. }
  assert (Heq' : (H ++ line) ++ ([c_nl] ++ P ++ Z)
                 = (heading ++ title) ++ ([c_nl] ++ P ++ Y))
    by (rewrite <- !app_assoc; exact Heq).
  apply app_inj_1 in Heq' as [Heq1 Heq2]; [| lia].
  apply app_inv_head, app_inv_head in Heq2.
  destruct Hblock as [[-> Hnone] | (k & c & title' & -> & -> & Hc & Hne)].
  - destruct HH as [-> | (k' & ws & -> & Hk' & Hws & Hfws)].
    + simpl in Heq1. done.
    + exfalso. destruct ws as [| w0 ws']; [done |]. simpl in Hfws.
      apply andb_prop in Hfws as [Hw0 _].
      assert (Hl : headingLevel (title ++ [c_nl]) = Some k').
      { apply headingLevel_Some. exists w0, (ws' ++ line ++ [c_nl]).
        split; [| done]. simpl in Heq1. rewrite <- Heq1.
        by rewrite <- !app_assoc. }
      congruence.
  - destruct HH as [-> | (k' & ws & -> & Hk' & Hws & Hfws)]; [done |].
    destruct ws as [| w0 ws']; [done |]. simpl in Hfws.
    apply andb_prop in Hfws as [Hw0 Hfws].
    rewrite <- !app_assoc in Heq1. simpl in Heq1.
    apply (run_unique is_hash) in Heq1 as [Hk Heq1];
      [| apply forallb_repeat_hash | apply forallb_repeat_hash
       | by apply whitespace_not_hash | done].
    injection Heq1 as -> Heq1.
    destruct ws' as [| w1 ws'].
    + simpl in Heq1. subst line. by rewrite Hk.
    + simpl in Heq1. injection Heq1 as -> _. simpl in Hfws.
      apply andb_prop in Hfws as [Hcw _]. congruence.
Qed.

Lemma wfMarker_spec b :
  wfMarker b = true ->
  forallb is_dot (b_title b) = true /\ forallb cls_lead (b_lead b) = true /\
  forallb (fun c => cls_file c && negb (is_nl c)) (b_file b) = true /\
  b_file b <> [] /\
  forallb cls_term (b_term b) = true /\ b_term b <> [] /\
  match b_level b with
  | 0 => headingLevel (b_title b ++ [c_nl]) = None
  | k => k <= 6 /\ exists c title', b_title b = c :: title' /\
                                    isWhiteSpace c = false
  end.
Proof.
  unfold wfMarker. intros H.
  repeat (apply andb_prop in H as [H ?]).
  repeat split; try done.
  - intros E. by rewrite E in *.
  - intros E. by rewrite E in *.
  - destruct (b_level b) as [| k].
    + by destruct (headingLevel _).
    + match goal with
      | Hl : _ && _ = true |- _ => apply andb_prop in Hl as [Hl1 Hl2]
      end.
      apply Nat.leb_le in Hl1. split; [done |].
      destruct (b_title b) as [| c title']; [done |].
      exists c, title'. split; [done |]. by apply negb_true_iff.
Qed.

Lemma forallb_file (file : text) :
  forallb (fun c => cls_file c && negb (is_nl c)) file = true ->
  forallb cls_file file = true.
Proof.
  intros Hf. rewrite forallb_forall in Hf. apply forallb_forall.
  intros c Hc. by apply Hf, andb_prop in Hc as [Hc _].
Qed.

(** The marker of a block is matched where it starts, as it is laid out. *)
Lemma marker_of_block P pre b rest :
  let t := pre ++ markerText P b ++ rest in
  match list.last pre with
  | None => true
  | Some c => isLineTerminator c
  end = true ->
  wfMarker b = true ->
  noEarly P (headingOf b ++ b_title b ++ [c_nl]) = true ->
  exists m,
    attemptAt (markerRegex P) 4 t (length pre) = Some m /\
    index m = length pre /\
    stop m = length pre + length (markerText P b) /\
    group t m 2 = (match b_level b with
                   | 0 => None
                   | k => Some (repeat_hash k)
                   end) /\
    group t m 3 = Some (titledLine P b) /\
    group t m 4 = Some (b_file b).
Proof.
  intros t Hls Hwf Hearly.
  destruct (wfMarker_spec b Hwf) as (Hdot & Hlead & Hfile & Hfne & Hterm & Htne & Hlev).
  pose proof (forallb_file _ Hfile) as Hfile'.
  set (j := length pre).
  assert (Hjt : j <= length t) by (unfold t, j; rewrite length_app; lia).
  assert (Hdrop : drop j t = markerText P b ++ rest) by apply drop_app_length.
  assert (Hstart : atLineStart t j = true).
  { unfold atLineStart, t, j. rewrite prev_at_app. exact Hls. }
  assert (Hrest0 : m_rest (initial 4 t j) =
            headingOf b ++ b_title b ++ [c_nl] ++ P ++ b_lead b ++ b_file b ++
            b_term b ++ [c_nl] ++ rest).
  { simpl. rewrite Hdrop. unfold markerText, titledLine, markerLine.
    by rewrite <- !app_assoc. }
  (* a path, and what it says about the match *)
  assert (Hex : exists m, attemptAt (markerRegex P) 4 t j = Some m /\
                  (b_level b <> 0 -> group t m 2 <> None)).
  { unfold headingOf in Hrest0. destruct (b_level b) as [| k0] eqn:El.
    - destruct (linePart_intro P (b_title b) (b_lead b) (b_file b) (b_term b)
                  rest (initial 4 t j) Hrest0 Hdot Hlead Hfile' Hfne Hterm)
        as (s2 & H2 & _).
      destruct (attemptAt_complete (markerRegex P) 4 t j s2) as [m Hm].
      { rewrite markerRegex_parts. eapply m_cat; [apply m_opt_none | exact H2]. }
      exists m. split; [done | done].
    - destruct Hlev as [Hk6 _].
      destruct (headingPart_intro (S k0)
                  (b_title b ++ [c_nl] ++ P ++ b_lead b ++ b_file b ++
                   b_term b ++ [c_nl] ++ rest) (initial 4 t j))
        as (s1 & H1 & Hr1 & Hp1).
      { exact Hstart. }
      { rewrite Hrest0. by rewrite <- !app_assoc. }
      { lia. }
      destruct (linePart_intro P (b_title b) (b_lead b) (b_file b) (b_term b)
                  rest s1 Hr1 Hdot Hlead Hfile' Hfne Hterm)
        as (s2 & H2 & _).
      assert (Hpos : m_pos s1 <> j) by (rewrite Hp1; simpl; lia).
      destruct (attemptAt_complete (markerRegex P) 4 t j s2) as [m Hm].
      { rewrite markerRegex_parts.
        eapply m_cat; [| exact H2]. by apply m_opt_some. }
      exists m. split; [done |]. intros _.
      destruct (marker_prefers_heading P t j m s1 s2 H1 Hpos H2 Hm)
        as (a & c & Hc).
      unfold group. rewrite Hc. done. }
  destruct Hex as (m & Hm & Hprefers). exists m. split; [exact Hm |].
  destruct (marker_shape_suffix P t j m Hjt Hm)
    as (H & line & xs & file & zs & Hd & Hidx & Hstop & Hdl & Hxs & Hf & Hfn
        & Hzs & Hg3 & Hg4 & Hhead).
  rewrite Hdrop in Hd. unfold markerText, titledLine, markerLine in Hd.
  rewrite <- !app_assoc in Hd.
  destruct (marker_head_unique P (headingOf b) (b_title b)
              (b_lead b ++ b_file b ++ b_term b ++ [c_nl] ++ rest) H line
              (xs ++ file ++ zs ++ [c_nl] ++ drop (stop m) t))
    as (HH & Hline & Htail).
  { symmetry. exact Hd. }
  { done. }
  { done. }
  { destruct Hhead as [[-> _] | (k & ws & -> & Hk & Hws & Hfws & _)];
      [by left | right; by exists k, ws]. }
  { unfold headingOf. destruct (b_level b) as [| k0] eqn:El.
    - left. done.
    - right. destruct Hlev as (Hk6 & c & title' & Ht & Hc).
      exists (S k0), c, title'. repeat split; try done.
      intros ->. destruct Hhead as [[_ Hg2] | (k & ws & Hk & Hk1 & _)].
      + exact (Hprefers (Nat.neq_succ_0 k0) Hg2).
      + destruct k; [lia | done]. }
  destruct (marker_tail_unique xs file zs (drop (stop m) t)
              (b_lead b) (b_file b) (b_term b) rest)
    as (-> & -> & -> & Hrest); try done.
  subst H line.
  split; [done |]. split.
  { rewrite Hstop. unfold markerText, titledLine, markerLine.
    by rewrite <- ?app_assoc. }
  split.
  { unfold headingOf in Hhead. destruct (b_level b) as [| k0] eqn:El.
    - destruct Hhead as [[_ Hg2] | (k & ws & Hk & Hk1 & _)]; [done |].
      destruct k; [lia | done].
    - destruct Hhead as [[Hk _] | (k & ws & Hk & Hk6 & Hws & Hfws & Hg2 & _)].
      + done.
      + rewrite Hg2. f_equal.
        destruct ws as [| w0 ws']; [done |]. simpl in Hfws.
        apply andb_prop in Hfws as [Hw0 _].
        apply (run_unique is_hash _ _ c_space w0 [] ws') in Hk as [Hk _];
          [by rewrite Hk | apply forallb_repeat_hash | apply forallb_repeat_hash
          | done | by apply whitespace_not_hash]. }
  split; [| done].
  rewrite Hg3. unfold titledLine, markerLine. done.
Qed.

(** * The pass over a document in normal form *)

(** ** No marker behind the last one *)

Lemma includes_drop p (u : text) :
  forall k, includes p (drop k u) = true -> includes p u = true.
Proof.
  induction u as [| c u IH]; intros k H.
  - by rewrite drop_nil in H.
  - destruct k as [| k]; [done |]. simpl in H.
    simpl. rewrite (IH k H). apply orb_true_r.
Qed.

Lemma no_marker_after P pre u j :
  includes P u = false ->
  length pre <= j <= length (pre ++ u) ->
  attemptAt (markerRegex P) 4 (pre ++ u) j = None.
Proof.
  intros Hno Hj.
  destruct (attemptAt (markerRegex P) 4 (pre ++ u) j) as [m |] eqn:Hat;
    [exfalso | done].
  destruct (marker_shape_suffix P _ j m (proj2 Hj) Hat)
    as (H & line & xs & file & zs & Hd & _).
  assert (Hin : includes P (drop j (pre ++ u)) = true).
  { rewrite Hd.
    replace (H ++ line ++ [c_nl] ++ P ++ xs ++ file ++ zs ++ [c_nl] ++
             drop (stop m) (pre ++ u))
      with ((H ++ line ++ [c_nl]) ++ P ++
            (xs ++ file ++ zs ++ [c_nl] ++ drop (stop m) (pre ++ u)))
      by (by rewrite <- !app_assoc).
    apply includes_app. }
  rewrite drop_app_ge in Hin by lia.
  apply includes_drop in Hin. congruence.
Qed.

(** ** Where a region ends *)

Lemma findNextHeadingBoundary_unique t s L r :
  s <= r <= length t ->
  (forall j k, s <= j < r -> atLineStart t j = true ->
               headingLevel (drop j t) = Some k -> L < k) ->
  r = length t \/
  (atLineStart t r = true /\
   exists k, headingLevel (drop r t) = Some k /\ k <= L) ->
  findNextHeadingBoundary t s L = r.
Proof.
  intros Hr Hskip Hend. unfold findNextHeadingBoundary.
  destruct (headingLoop_total t L (2 + length t) s) as [r' Hr']; [lia | lia |].
  rewrite Hr'. simpl.
  assert (Hs : s <= length t) by lia.
  pose proof (headingLoop_bounds t L _ _ _ Hs Hr') as Hb.
  destruct (Nat.lt_trichotomy r' r) as [Hlt | [-> | Hgt]]; [exfalso | done | exfalso].
  - destruct (headingLoop_result _ _ _ _ _ Hr') as [-> | (m & Hat & Hle & Hlev)];
      [lia |].
    apply heading_attempt_level in Hat
      as (Hls & _ & k & ws & Hh & Hg & _); [| done].
    rewrite Hg in Hlev. simpl in Hlev. unfold repeat_hash in Hlev.
    rewrite length_replicate in Hlev.
    specialize (Hskip r' k (conj (proj1 Hb) Hlt) Hls Hh). lia.
  - destruct Hend as [-> | (Hls & k & Hh & Hk)]; [lia |].
    pose proof (headingLoop_skips t L _ _ _ Hs Hr' r k (conj (proj1 Hr) Hgt) Hls Hh).
    lia.
Qed.

Lemma headingLevel_app_terminated (X Y : text) c0 k :
  list.last X = Some c0 -> isLineTerminator c0 = true ->
  headingLevel (X ++ Y) = Some k -> headingLevel X = Some k.
Proof.
  intros Hl Hc0 (c & r & Heq & Hk & Hc)%headingLevel_Some.
  apply headingLevel_Some.
  apply app_eq_inv in Heq as [(w & -> & Hw) | (w & Hh & _)].
  - destruct w as [| c' w'].
    + exfalso. rewrite app_nil_r in Hl.
      pose proof (forallb_last _ _ _ (forallb_repeat_hash k) Hl) as Hx.
      by rewrite terminator_not_hash in Hx.
    + simpl in Hw. injection Hw as <- _. by exists c, w'.
  - exfalso. pose proof (forallb_repeat_hash k) as Hf. rewrite Hh in Hf.
    apply forallb_app_iff in Hf as [Hf _].
    pose proof (forallb_last _ _ _ Hf Hl) as Hx.
    by rewrite terminator_not_hash in Hx.
Qed.

Lemma endsLine_last (X : text) :
  endsLine X = true -> X <> [] ->
  exists c0, list.last X = Some c0 /\ isLineTerminator c0 = true.
Proof.
  unfold endsLine. intros H Hne.
  destruct (list.last X) as [c0 |] eqn:E; [by exists c0 |].
  by apply last_None in E.
Qed.

Lemma endsLine_ok (a : text) :
  endsLine a = true ->
  match list.last a with None => true | Some c => isLineTerminator c end = true.
Proof. done. Qed.

(** The region of a block ends where the block ends. *)
Lemma region_end pre region rest base :
  endsLine pre = true ->
  wfRegion base region = true ->
  atBoundary base rest = true ->
  findNextHeadingBoundary (pre ++ region ++ rest) (length pre) base
  = length pre + length region.
Proof.
  intros Hpre Hwf Hb.
  apply andb_prop in Hwf as [Hends Hfree].
  set (t := pre ++ region ++ rest).
  apply findNextHeadingBoundary_unique.
  - unfold t. rewrite !length_app. lia.
  - intros j k Hj Hls Hh.
    set (o := j - length pre).
    assert (Hreg : region = take o region ++ drop o region)
      by (by rewrite take_drop).
    assert (Hne : drop o region <> []).
    { intros E. apply (f_equal length) in E. rewrite length_drop in E.
      simpl in E. unfold o in E. lia. }
    assert (Hlen : length (take o region) = o)
      by (rewrite length_take; unfold o; lia).
    assert (Ht : t = (pre ++ take o region) ++ drop o region ++ rest).
    { unfold t. rewrite Hreg at 1. by rewrite <- !app_assoc. }
    assert (Hjl : j = length (pre ++ take o region)).
    { rewrite length_app, Hlen. unfold o. lia. }
    assert (Hd : drop j t = drop o region ++ rest).
    { rewrite Ht, Hjl. apply drop_app_length. }
    rewrite Hd in Hh.
    destruct (endsLine_last (drop o region)) as (c0 & Hl & Hc0); [| done |].
    { unfold endsLine in *. rewrite Hreg, last_app in Hends.
      destruct (list.last (drop o region)) eqn:E; [done |].
      by apply last_None in E. }
    apply (headingLevel_app_terminated _ _ c0) in Hh; [| done | done].
    assert (Hnb : negb (isBoundary base (drop o region)) = true).
    { unfold headingFree in Hfree. rewrite Hreg in Hfree.
      apply (lineStartsAll_split _ _ _ true Hfree Hne).
      destruct (list.last (take o region)) as [c |] eqn:E; [| done].
      unfold atLineStart in Hls. rewrite Ht, Hjl, prev_at_app in Hls.
      by rewrite last_app, E in Hls. }
    unfold isBoundary in Hnb. rewrite Hh in Hnb.
    apply negb_true_iff, Nat.leb_gt in Hnb. done.
  - destruct rest as [| c rest'].
    + left. unfold t. rewrite !length_app. simpl. lia.
    + right.
      assert (Ht : t = (pre ++ region) ++ c :: rest')
        by (unfold t; by rewrite <- app_assoc).
      assert (Hjl : length pre + length region = length (pre ++ region))
        by (by rewrite length_app).
      split.
      * unfold atLineStart. rewrite Ht, Hjl, prev_at_app.
        apply endsLine_ok. by apply endsLine_app.
      * rewrite Ht, Hjl, drop_app_length.
        simpl in Hb. unfold isBoundary in Hb.
        destruct (headingLevel (c :: rest')) as [k |]; [| done].
        exists k. split; [done |]. by apply Nat.leb_le.
Qed.

(** ** The markers of a document in normal form *)

Lemma noEarly_drop P (a X : text) :
  noEarly P (a ++ X) = true -> noEarly P X = true.
Proof.
  unfold noEarly. rewrite !forallb_forall. intros H k Hk.
  apply in_seq in Hk.
  specialize (H (length a + k)).
  rewrite <- app_assoc, <- drop_drop, drop_app_length in H.
  apply H. apply in_seq. rewrite length_app. lia.
Qed.

Lemma markerText_length P b : 1 <= length (markerText P b).
Proof.
  unfold markerText, titledLine, markerLine. rewrite !length_app. simpl. lia.
Qed.

Lemma markerText_endsLine P b (a : text) : endsLine (a ++ markerText P b) = true.
Proof.
  unfold endsLine, markerText, titledLine, markerLine.
  rewrite !app_assoc, last_snoc. done.
Qed.

Lemma baseOf_level (t : text) m b :
  group t m 2 = (match b_level b with
                 | 0 => None
                 | k => Some (repeat_hash k)
                 end) ->
  baseHeadingLevelOf t m = baseOf b.
Proof.
  intros Hg. unfold baseHeadingLevelOf, baseOf. rewrite Hg.
  destruct (b_level b) as [| k]; [done |].
  simpl. unfold repeat_hash. by rewrite length_replicate.
Qed.

(** One block: no marker in the text before its marker, its marker, and the
    end of its region. *)
Lemma block_marker P pre R b rest :
  let t := pre ++ R ++ blockText P b ++ rest in
  endsLine pre = true -> endsLine R = true ->
  endsLine (b_before b) = true ->
  noEarly P (R ++ b_before b ++ headingOf b ++ b_title b ++ [c_nl]) = true ->
  noDangling (R ++ b_before b) = true ->
  wfMarker b = true ->
  wfRegion (baseOf b) (b_region b) = true ->
  atBoundary (baseOf b) rest = true ->
  exists m,
    exec (markerRegex P) 4 t (length pre) = Some m /\
    next_index m = length pre + length R + length (b_before b) +
                   length (markerText P b) /\
    marks P t (length pre + length R) b m.
Proof.
  intros t Hpre HR Hbefore Hearly Hdang Hwf Hreg Hbound.
  set (Q := R ++ b_before b).
  assert (HQ : endsLine Q = true) by (by apply endsLine_app).
  set (rest' := b_region b ++ rest).
  assert (Ht : t = (pre ++ Q) ++ markerText P b ++ rest').
  { unfold t, Q, rest', blockText. by rewrite <- !app_assoc. }
  destruct (marker_of_block P (pre ++ Q) b rest')
    as (m & Hat & Hidx & Hstop & Hg2 & Hg3 & Hg4).
  { apply endsLine_ok. by apply endsLine_app. }
  { done. }
  { apply (noEarly_drop P Q). unfold Q. by rewrite <- !app_assoc. }
  rewrite <- Ht in Hat, Hg2, Hg3, Hg4.
  rewrite length_app in Hat, Hidx, Hstop.
  assert (HlQ : length Q = length R + length (b_before b))
    by (unfold Q; by rewrite length_app).
  assert (Hlt : length t = length pre + length Q + length (markerText P b)
                           + length rest').
  { rewrite Ht, !length_app. lia. }
  exists m. split; [| split].
  - apply (exec_intro _ _ _ _ (length pre + length Q)); [lia | | done].
    intros j Hj.
    set (o := j - length pre).
    assert (Hne : drop o Q <> []).
    { intros E. apply (f_equal length) in E. rewrite length_drop in E.
      simpl in E. unfold o in E. lia. }
    assert (Hj' : j = length pre + length (take o Q)).
    { rewrite length_take. unfold o. lia. }
    replace t with (pre ++ (take o Q ++ drop o Q) ++
                    (headingOf b ++ b_title b) ++ [c_nl] ++ P ++
                    (b_lead b ++ b_file b ++ b_term b ++ [c_nl] ++ rest')).
    2:{ rewrite take_drop, Ht. unfold markerText, titledLine, markerLine.
        by rewrite <- !app_assoc. }
    rewrite Hj'. apply no_marker_in_gap; rewrite ?take_drop; try done.
    unfold Q. rewrite <- !app_assoc. exact Hearly.
  - unfold next_index. rewrite Hstop, Hidx.
    pose proof (markerText_length P b).
    destruct (_ =? _) eqn:E; [apply Nat.eqb_eq in E; lia | lia].
  - unfold marks. split; [lia |]. split; [lia |].
    split; [done |]. split; [done |]. split; [done |].
    unfold contentEndOf.
    rewrite (baseOf_level t m b Hg2).
    assert (Hcs : contentStartOf t m = length (pre ++ Q ++ markerText P b)).
    { unfold contentStartOf, matched. rewrite span_length by lia.
      rewrite !length_app. lia. }
    rewrite Hcs.
    replace t with ((pre ++ Q ++ markerText P b) ++ b_region b ++ rest)
      by (rewrite Ht; unfold rest'; by rewrite <- !app_assoc).
    rewrite region_end; try done.
    + unfold blockText. rewrite !length_app. lia.
    + rewrite app_assoc. apply markerText_endsLine.
Qed.

Lemma found_docOf P post :
  forall bs pre R,
    normal P R bs post = true ->
    endsLine pre = true -> endsLine R = true ->
    exists ms,
      found (markerRegex P) 4 (pre ++ R ++ docOf P bs post) (length pre) ms /\
      tracks P (pre ++ R ++ docOf P bs post) (length pre + length R) bs ms.
Proof.
  induction bs as [| b bs IH]; intros pre R Hn Hpre HR.
  - exists []. split; [| done]. apply found_nil.
    apply exec_none_intro. intros j Hj. simpl.
    apply no_marker_after; [| done].
    simpl in Hn. by apply negb_true_iff in Hn.
  - simpl in Hn.
    repeat (apply andb_prop in Hn as [Hn ?]).
    match goal with
    | H1 : normal _ _ _ _ = true, H2 : atBoundary _ _ = true,
      H3 : wfRegion _ _ = true, H4 : wfMarker _ = true,
      H5 : noDangling _ = true, H6 : noEarly _ _ = true |- _ =>
        rename H1 into Hnext; rename H2 into Hbound; rename H3 into Hreg;
        rename H4 into Hwf; rename H5 into Hdang; rename H6 into Hearly
    end.
    simpl.
    destruct (block_marker P pre R b (docOf P bs post))
      as (m & Hex & Hnext_idx & Hmarks); try done.
    set (t := pre ++ R ++ blockText P b ++ docOf P bs post) in *.
    destruct (IH (pre ++ R ++ b_before b ++ markerText P b) (b_region b))
      as (ms & Hfound & Htracks).
    { done. }
    { rewrite !app_assoc. apply markerText_endsLine. }
    { by apply andb_prop in Hreg as [Hreg _]. }
    assert (Ht : (pre ++ R ++ b_before b ++ markerText P b) ++
                 b_region b ++ docOf P bs post = t).
    { unfold t, blockText. by rewrite <- !app_assoc. }
    rewrite Ht in Hfound, Htracks.
    exists (m :: ms). split.
    + apply found_cons; [done |]. rewrite Hnext_idx.
      replace (length pre + length R + length (b_before b) +
               length (markerText P b))
        with (length (pre ++ R ++ b_before b ++ markerText P b))
        by (rewrite !length_app; lia).
      done.
    + split; [done |].
      replace (length pre + length R + length (blockText P b))
        with (length (pre ++ R ++ b_before b ++ markerText P b) +
              length (b_region b))
        by (unfold blockText; rewrite !length_app; lia).
      done.
Qed.

(** ** What the pass writes *)

Lemma generatedFor_marks env repoUrl P t start b m :
  marks P t start b m ->
  generatedFor env repoUrl t m = generatedForBlock env repoUrl b.
Proof.
  intros (_ & _ & Hg2 & _ & Hg4 & _).
  unfold generatedFor, generatedForBlock, sourceFileOf, headingPrefixOf.
  by rewrite Hg4, (baseOf_level t m b Hg2).
Qed.

Lemma replacementOf_marks P t start b m c :
  marks P t start b m ->
  replacementOf t m c = markerText P b ++ nl ++ c.
Proof.
  intros (_ & _ & Hg2 & Hg3 & _).
  unfold replacementOf, markerText, headingOf. rewrite Hg2, Hg3. simpl.
  destruct (b_level b) as [| k]; [done |].
  simpl. unfold repeat_hash. rewrite length_replicate, str_space.
  by rewrite <- !app_assoc.
Qed.

Lemma tracks_separated P t :
  forall bs ms start, tracks P t start bs ms -> separated t start ms = true.
Proof.
  induction bs as [| b bs IH]; intros [| m ms] start H; try done.
  destruct H as [(Hi & _ & _ & _ & _ & Hce) Ht]. simpl.
  rewrite Hce, (IH _ _ Ht), andb_true_r. apply Nat.leb_le. lia.
Qed.

Lemma tracks_generates env repoUrl P t :
  forall bs ms start,
    tracks P t start bs ms ->
    forallb (generates env repoUrl) bs = true ->
    forall m, m ∈ ms -> exists c, generatedFor env repoUrl t m = Ok c.
Proof.
  induction bs as [| b bs IH]; intros [| m0 ms] start H Hg m Hm; try done.
  - by apply elem_of_nil in Hm.
  - destruct H as [Hmarks Ht]. simpl in Hg. apply andb_prop in Hg as [Hb Hg].
    apply elem_of_cons in Hm as [-> | Hm]; [| by eapply IH].
    rewrite (generatedFor_marks _ _ _ _ _ _ _ Hmarks).
    unfold generates in Hb.
    destruct (generatedForBlock env repoUrl b) as [c |]; [by exists c | done].
Qed.

Lemma span_middle (a b c : text) :
  span (a ++ b ++ c) (length a) (length a + length b) = b.
Proof.
  unfold span. rewrite drop_app_length.
  replace (length a + length b - length a) with (length b) by lia.
  apply take_app_length.
Qed.

Lemma markerText_fresh env repoUrl P b :
  markerText P (freshBlock env repoUrl b) = markerText P b.
Proof. done. Qed.

Lemma assemble_docOf env repoUrl P post :
  forall bs ms pre0 t,
    t = pre0 ++ docOf P bs post ->
    tracks P t (length pre0) bs ms ->
    assemble t (length pre0) (partsOf env repoUrl t ms)
    = docOf P (freshBlock env repoUrl <$> bs) post.
Proof.
  induction bs as [| b bs IH]; intros [| m ms] pre0 t Ht H; try done.
  - simpl. rewrite Ht. apply drop_app_length.
  - destruct H as [Hmarks Htr]. simpl.
    pose proof Hmarks as (Hi & Hs & _ & _ & _ & Hce).
    rewrite Hce, Hi.
    rewrite (replacementOf_marks P t _ b m _ Hmarks).
    unfold contentFor. rewrite (generatedFor_marks env repoUrl P t _ b m Hmarks).
    fold (contentOfBlock env repoUrl b).
    assert (Ht' : t = (pre0 ++ blockText P b) ++ docOf P bs post).
    { rewrite Ht. simpl. by rewrite <- !app_assoc. }
    replace (length pre0 + length (blockText P b))
      with (length (pre0 ++ blockText P b)) in * by (by rewrite length_app).
    rewrite (IH ms (pre0 ++ blockText P b) t Ht' Htr).
    assert (Hsp : span t (length pre0) (length pre0 + length (b_before b))
                  = b_before b).
    { rewrite Ht. simpl. unfold blockText. rewrite <- !app_assoc.
      apply span_middle. }
    rewrite Hsp. unfold blockText. rewrite markerText_fresh. simpl.
    by rewrite <- !app_assoc.
Qed.

Lemma spliceAll_normal env repoUrl P bs post :
  normal P [] bs post = true ->
  forallb (generates env repoUrl) bs = true ->
  spliceAll env P repoUrl (docOf P bs post)
  = Ok (docOf P (freshBlock env repoUrl <$> bs) post).
Proof.
  intros Hn Hg.
  destruct (found_docOf P post bs [] [] Hn eq_refl eq_refl) as (ms & Hf & Ht).
  simpl in Hf, Ht.
  apply found_markers in Hf.
  rewrite spliceAll_separated.
  - rewrite Hf. f_equal.
    by apply (assemble_docOf env repoUrl P post bs ms [] _ eq_refl).
  - rewrite Hf. by eapply tracks_separated.
  - rewrite Hf. by eapply tracks_generates.
Qed.

(** X18: a pass over a document in normal form keeps the text before and
    between the blocks, the heading, the title line and the marker line of
    every block, and puts a line break and what is generated for the block's
    file in place of every region. *)
Theorem normal_form_pass
    (env : Env) (repoUrl : option text) (P : text) (bs : list block)
    (post : text) :
  normal P [] bs post = true ->
  forallb (generates env repoUrl) bs = true ->
  spliceAll env P repoUrl (docOf P bs post)
  = Ok (docOf P (freshBlock env repoUrl <$> bs) post) /\
  forall path w,
    bs <> [] -> files w !! path = Some (docOf P bs post) ->
    exists w',
      updateReadme env path P repoUrl w = Returned w' /\
      files w' = <[path := docOf P (freshBlock env repoUrl <$> bs) post]>
                   (files w).
Proof.
  intros Hn Hg. split; [by apply spliceAll_normal |].
  intros path w Hne Hfile.
  destruct (updateReadme_writes_spliceAll env path P repoUrl w
              (docOf P bs post)
              (docOf P (freshBlock env repoUrl <$> bs) post) Hfile)
    as (w' & Hw & Hf & _).
  - destruct (found_docOf P post bs [] [] Hn eq_refl eq_refl) as (ms & Hf & Ht).
    simpl in Hf, Ht. apply found_markers in Hf. rewrite Hf.
    destruct bs, ms; done.
  - by apply spliceAll_normal.
  - by exists w'.
Qed.

Lemma generates_fresh env repoUrl b :
  generates env repoUrl (freshBlock env repoUrl b) = generates env repoUrl b.
Proof. done. Qed.

Lemma freshBlock_idem env repoUrl b :
  freshBlock env repoUrl (freshBlock env repoUrl b) = freshBlock env repoUrl b.
Proof. done. Qed.

(** X19: when a document in normal form is still in normal form with the
    fresh regions in it, a second pass writes what the first pass wrote,
    byte for byte. *)
Theorem normal_form_second_pass
    (env : Env) (repoUrl : option text) (P : text) (bs : list block)
    (post : text) :
  normal P [] bs post = true ->
  normal P [] (freshBlock env repoUrl <$> bs) post = true ->
  forallb (generates env repoUrl) bs = true ->
  (once ← spliceAll env P repoUrl (docOf P bs post);
   spliceAll env P repoUrl once)
  = spliceAll env P repoUrl (docOf P bs post).
Proof.
  intros Hn Hn' Hg.
  rewrite (spliceAll_normal env repoUrl P bs post Hn Hg). simpl.
  rewrite (spliceAll_normal env repoUrl P _ post Hn').
  - f_equal. f_equal. rewrite <- list_fmap_compose.
    apply list_fmap_ext. intros i b _. apply freshBlock_idem.
  - rewrite forallb_forall in Hg. apply forallb_forall.
    intros b' Hb'. apply list_elem_of_In, list_elem_of_fmap in Hb'
      as (b & -> & Hb).
    rewrite generates_fresh. by apply Hg, list_elem_of_In.
Qed.

Lemma normal_form_pass_witness :
  docOf defaultPhrase twoBlocks [] = twoBlocksReadme /\
  spliceAll (sampleEnv gitTracked) defaultPhrase None twoBlocksReadme
  = Ok twoBlocksSpliced.
Proof.
  assert (Hd : docOf defaultPhrase twoBlocks [] = twoBlocksReadme)
    by (vm_compute; reflexivity).
  split; [exact Hd |]. rewrite <- Hd.
  destruct (normal_form_pass (sampleEnv gitTracked) None defaultPhrase
              twoBlocks []) as [Hs _].
  - vm_compute. reflexivity.
  - vm_compute. reflexivity.
  - rewrite Hs. vm_compute. reflexivity.
Defined.

Lemma normal_form_second_pass_witness :
  (once ← spliceAll (sampleEnv gitTracked) defaultPhrase None
            (docOf defaultPhrase twoBlocks []);
   spliceAll (sampleEnv gitTracked) defaultPhrase None once)
  = spliceAll (sampleEnv gitTracked) defaultPhrase None
      (docOf defaultPhrase twoBlocks []).
Proof.
  apply (normal_form_second_pass (sampleEnv gitTracked) None defaultPhrase
           twoBlocks []).
  - vm_compute. reflexivity.
  - vm_compute. reflexivity.
  - vm_compute. reflexivity.
Defined.

(** X20: the markers of a document in normal form are the markers of its
    blocks, one for every block and in the order of the blocks: each starts
    where the marker of its block starts, ends with the marker line, has the
    heading level, the title line and the file of the block, and its region
    ends where the block ends. *)
Theorem normal_form_markers (P : text) (bs : list block) (post : text) :
  normal P [] bs post = true ->
  tracks P (docOf P bs post) 0 bs (markers P (docOf P bs post)).
Proof.
  intros Hn.
  destruct (found_docOf P post bs [] [] Hn eq_refl eq_refl) as (ms & Hf & Ht).
  simpl in Hf, Ht. apply found_markers in Hf. by rewrite Hf.
Qed.

Lemma normal_form_markers_witness :
  tracks defaultPhrase (docOf defaultPhrase twoBlocks []) 0 twoBlocks
    (markers defaultPhrase (docOf defaultPhrase twoBlocks [])).
Proof.
  apply (normal_form_markers defaultPhrase twoBlocks []).
  vm_compute. reflexivity.
Defined.
(** * A second pass *)

(** ** Texts that end their line *)










(** ** The phrase, on one line *)








(** ** Headings at the start of a text *)



(** ** The normal form after a pass *)








(** ** Generated texts that are not inert *)

(** A comment with a line that reads as a marker line: the second run finds
    a marker more, inside the fragment of the first run. *)
Remark generated_marker_line_second_run :
  inert defaultPhrase 3
    (contentOfBlock (envWith markedFile gitTracked) None
       (Block [] 3 (str "Answer") (str " ") (str "test/trivial.ts") (str ":") []))
  = false /\
  exists once twice,
    spliceAll (envWith markedFile gitTracked) defaultPhrase None trivialReadme
      = Ok once /\
    spliceAll (envWith markedFile gitTracked) defaultPhrase None once
      = Ok twice /\
    length (markers defaultPhrase trivialReadme) = 1 /\
    length (markers defaultPhrase once) = 2 /\
    length once < length twice.
Proof.
  split; [vm_compute; reflexivity |].
  eexists _, _. split; [vm_compute; reflexivity |].
  split; [vm_compute; reflexivity |].
  split; [vm_compute; reflexivity |].
  split; [vm_compute; reflexivity | vm_compute; lia].
Qed.

(** An example that ends in a line of [#]s, before a marker with a heading:
    in the second run the heading of that marker starts at the line of
    [#]s, four levels deep, and its fragment is made one level deeper than
    in the first run. *)
Remark generated_dangling_line_second_run :
  forallb (inertBlock (envWith ruledFile gitTracked) None defaultPhrase)
    twoBlocks = false /\
  exists once twice,
    spliceAll (envWith ruledFile gitTracked) defaultPhrase None twoBlocksReadme
      = Ok once /\
    spliceAll (envWith ruledFile gitTracked) defaultPhrase None once
      = Ok twice /\
    (baseHeadingLevelOf twoBlocksReadme <$> markers defaultPhrase twoBlocksReadme)
      = [2; 2] /\
    (baseHeadingLevelOf once <$> markers defaultPhrase once) = [2; 4] /\
    once <> twice.
Proof.
  split; [vm_compute; reflexivity |].
  eexists _, _. split; [vm_compute; reflexivity |].
  split; [vm_compute; reflexivity |].
  split; [vm_compute; reflexivity |].
  split; [vm_compute; reflexivity |].
  intros H. apply (f_equal length) in H. vm_compute in H. discriminate H.
Qed.
